(** * bun-task-runner: the caching engine of [task.ts]

    A shallow embedding of [task.ts]: the input fingerprint ([hashInputs]),
    the output capture ([prepareOutputs]), the restoration of a cache record
    ([restoreFromCache]), the recursive engine ([runTask]) and the top
    level of the script ([main]), over an explicit world made of the
    working tree, the two SQLite tables, the console and the UUID source.

    Conventions.
    - A JavaScript string is represented by its UTF-8 encoding, held in a
      [string]; file contents are [list byte].
    - The runtime services the script calls but does not define
      ([Bun.CryptoHasher], the reading of UTF-16 text, [Glob.scan],
      [String.prototype.localeCompare], the [$] shell) are the fields of a
      class, [Platform]; nothing is assumed of them but what a statement
      says.
    - A call that throws stops in the world it threw in; the recursion of
      [runTask], which the script does not bound, is given a depth. *)

From Stdlib Require Import ZArith NArith Ascii String List Lia Bool.
From Stdlib Require Import Strings.Byte.
From stdpp Require Import base option list gmap strings sorting.

Local Open Scope string_scope.
Local Open Scope list_scope.

#[global] Instance byte_eq_dec : EqDecision byte := Byte.byte_eq_dec.

(** ** Bytes and text *)

Definition bytes := list byte.

(** The three bytes of U+FFFD, the replacement character. *)
Definition replacement : bytes := [xef; xbf; xbd].

(** A pending multi-byte sequence of the UTF-8 decoder: the bytes read so
    far, how many continuation bytes are still needed, and the range the
    next byte must lie in. *)
Record pending := Pending {
  seen : bytes;
  needed : nat;
  lower : N;
  upper : N
}.

Definition in_range (lo hi : N) (b : byte) : bool :=
  let n := Byte.to_N b in ((lo <=? n) && (n <=? hi))%N.

(** What the decoder does on a byte read with no sequence pending: emit it
    (ASCII), open a sequence (a lead byte), or emit U+FFFD (a byte that can
    start nothing). *)
Definition lead (b : byte) : bytes * option pending :=
  let n := Byte.to_N b in
  if (n <=? 127)%N then ([b], None)
  else if in_range 194 223 b then ([], Some (Pending [b] 1 128 191))
  else if (n =? 224)%N then ([], Some (Pending [b] 2 160 191))
  else if (n =? 237)%N then ([], Some (Pending [b] 2 128 159))
  else if in_range 225 239 b then ([], Some (Pending [b] 2 128 191))
  else if (n =? 240)%N then ([], Some (Pending [b] 3 144 191))
  else if (n =? 244)%N then ([], Some (Pending [b] 3 128 143))
  else if in_range 241 243 b then ([], Some (Pending [b] 3 128 191))
  else (replacement, None).

(** The UTF-8 decoder with replacement (no fatal mode), re-encoded on the
    fly: a well-formed sequence is emitted as it is, every maximal
    ill-formed part becomes U+FFFD, and the byte that broke a sequence is
    read again as a first byte. *)
Fixpoint utf8_decode (st : option pending) (bs : bytes) : bytes :=
  match bs with
  | [] => match st with None => [] | Some _ => replacement end
  | b :: bs' =>
      match st with
      | None => let '(out, st') := lead b in out ++ utf8_decode st' bs'
      | Some p =>
          if in_range (lower p) (upper p) b then
            match needed p with
            | S (S n) => utf8_decode (Some (Pending (seen p ++ [b]) (S n) 128 191)) bs'
            | _ => (seen p ++ [b]) ++ utf8_decode None bs'
            end
          else
            let '(out, st') := lead b in
            replacement ++ out ++ utf8_decode st' bs'
      end
  end.

(** A leading byte order mark is dropped. *)
Definition strip_bom (bs : bytes) : bytes :=
  match bs with
  | xef :: xbb :: xbf :: rest => rest
  | _ => bs
  end.

(** A file read as UTF-8. *)
Definition text_utf8 (bs : bytes) : string :=
  string_of_list_byte (utf8_decode None (strip_bom bs)).

(** The bytes a hasher sees when it is fed a string. *)
Definition utf8 (s : string) : bytes := list_byte_of_string s.

(** ** Plain JavaScript objects used as maps

    An object is the list of its own properties in property order: the
    array-index keys in ascending numeric order, then the other keys in
    the order they were created. What an object inherits from its
    prototype is not part of the map. *)

Definition obj (V : Type) := list (string * V).

Definition is_digit (c : ascii) : bool :=
  let n := N_of_ascii c in ((48 <=? n) && (n <=? 57))%N.

Fixpoint digits_value (acc : N) (s : string) : N :=
  match s with
  | EmptyString => acc
  | String c s' => digits_value (10 * acc + (N_of_ascii c - 48))%N s'
  end.

Fixpoint all_digits (s : string) : bool :=
  match s with
  | EmptyString => true
  | String c s' => is_digit c && all_digits s'
  end.

(** The canonical numeric strings of the integers 0 .. 2^32 - 2. *)
Definition array_index (k : string) : option N :=
  match k with
  | EmptyString => None
  | String c rest =>
      if all_digits k
         && (negb (Ascii.eqb c "0") || String.eqb rest EmptyString)
         && (String.length k <=? 10)%nat
         && (digits_value 0 k <? 4294967295)%N
      then Some (digits_value 0 k) else None
  end.

Fixpoint obj_update {V} (k : string) (v : V) (o : obj V) : obj V :=
  match o with
  | [] => []
  | (k', v') :: o' =>
      if decide (k' = k) then (k, v) :: o' else (k', v') :: obj_update k v o'
  end.

(** Where an array-index key [i] goes: before the first property that is
    not an array index or has a larger index. *)
Fixpoint obj_add_index {V} (i : N) (k : string) (v : V) (o : obj V) : obj V :=
  match o with
  | [] => [(k, v)]
  | (k', v') :: o' =>
      match array_index k' with
      | Some j => if (j <? i)%N then (k', v') :: obj_add_index i k v o'
                  else (k, v) :: o
      | None => (k, v) :: o
      end
  end.

Definition obj_add {V} (k : string) (v : V) (o : obj V) : obj V :=
  match array_index k with
  | Some i => obj_add_index i k v o
  | None => o ++ [(k, v)]
  end.

Definition has_key {V} (k : string) (o : obj V) : bool :=
  bool_decide (k ∈ o.*1).

(** Defining a property, as [Object.fromEntries] does and as the
    assignment [o[k] = v] does for a key that names no accessor: the value
    of an own property is replaced where it is, a new property takes its
    place in the property order. *)
Definition obj_define {V} (k : string) (v : V) (o : obj V) : obj V :=
  if has_key k o then obj_update k v o else obj_add k v o.

(** The assignment [o[k] = v] on an object made by [{}]. [__proto__] is
    not a property of such an object but an accessor it inherits from
    [Object.prototype]: the assignment calls the setter and the object
    gets no property. (Given a string the setter does nothing; given
    [null] or an array of bytes it replaces the prototype of the object,
    which is then no longer a plain map: what is stated of the captured
    outputs leaves the path [__proto__] out.) *)
Definition obj_assign {V} (k : string) (v : V) (o : obj V) : obj V :=
  if decide (k = "__proto__") then o else obj_define k v o.

Definition Object_entries {V} (o : obj V) : list (string * V) := o.

Definition Object_fromEntries {V} (l : list (string * V)) : obj V :=
  fold_left (λ o e, obj_define e.1 e.2 o) l [].

(** ** [Array.prototype.sort] and [JSON.stringify] *)

(** [Array.prototype.sort] is stable; with a consistent comparator every
    stable sort returns the same array, here by insertion from the right:
    an element goes before the first one it does not compare greater
    than. *)
Fixpoint sort_insert {A} (cmp : A → A → Z) (x : A) (l : list A) : list A :=
  match l with
  | [] => [x]
  | y :: l' => if (cmp x y <=? 0)%Z then x :: l else y :: sort_insert cmp x l'
  end.

Definition Array_sort {A} (cmp : A → A → Z) (l : list A) : list A :=
  foldr (sort_insert cmp) [] l.

Definition dquote : string := String "034"%char EmptyString.

Definition hex_digit (n : N) : ascii :=
  ascii_of_N (if (n <? 10)%N then 48 + n else 87 + n).

(** QuoteJSONString on one character. *)
Definition json_escape (c : ascii) : string :=
  let n := N_of_ascii c in
  if (n =? 34)%N then "\" +:+ dquote
  else if (n =? 92)%N then "\\"
  else if (n =? 8)%N then "\b"
  else if (n =? 12)%N then "\f"
  else if (n =? 10)%N then "\n"
  else if (n =? 13)%N then "\r"
  else if (n =? 9)%N then "\t"
  else if (n <? 32)%N then
    "\u00" +:+ String (hex_digit (n / 16)) (String (hex_digit (n mod 16)) EmptyString)
  else String c EmptyString.

Fixpoint json_escape_all (s : string) : string :=
  match s with
  | EmptyString => EmptyString
  | String c s' => json_escape c +:+ json_escape_all s'
  end.

Definition json_quote (s : string) : string :=
  dquote +:+ json_escape_all s +:+ dquote.

Fixpoint json_members (o : obj string) : string :=
  match o with
  | [] => EmptyString
  | [(k, v)] => json_quote k +:+ ":" +:+ json_quote v
  | (k, v) :: o' => json_quote k +:+ ":" +:+ json_quote v +:+ "," +:+ json_members o'
  end.

(** [JSON.stringify({ command, files })]. *)
Definition JSON_stringify (command : string) (files : obj string) : string :=
  "{" +:+ json_quote "command" +:+ ":" +:+ json_quote command +:+ ","
  +:+ json_quote "files" +:+ ":{" +:+ json_members files +:+ "}}".

(** ** Tasks and the working tree *)

(** [interface Task]: every field but [command] is optional. *)
Record Task := {
  command : string;
  depends_on : option (list string);
  inputs : option (list string);
  outputs : option (list string);
  cache : option bool
}.

(** [interface Scripts]: the task graph of [tasks.json], as the map of
    its own properties. The script reads it with [scripts[name]], which
    also finds what a plain object inherits: [prototype_names] lists the
    names that are then not [undefined] although the graph has no such
    task, and that the map does not answer for. *)
Abbreviation Scripts := (gmap string Task).

(** The properties of [Object.prototype]. *)
Definition prototype_names : list string :=
  ["constructor"; "hasOwnProperty"; "isPrototypeOf"; "propertyIsEnumerable";
   "toLocaleString"; "toString"; "valueOf"; "__proto__"; "__defineGetter__";
   "__defineSetter__"; "__lookupGetter__"; "__lookupSetter__"].

(** The files of the store, which the script keeps in the working
    directory (lines 7 and 10). *)
Definition store_files : list string :=
  ["cache.sqlite"; "cache.sqlite-wal"; "cache.sqlite-shm"].

(** What a path of the working tree holds: a file that can be opened, a
    file that exists but cannot be opened (no permission on it), or a
    directory; a path not in the map does not exist. *)
Inductive node :=
  | File (content : bytes)
  | Locked (content : bytes)
  | Dir.

#[global] Instance node_eq_dec : EqDecision node.
Proof. solve_decision. Defined.

Abbreviation FS := (gmap string node).

(** [Bun.file(p).bytes()]: fails on a missing path, on a file that cannot
    be opened and on a directory. *)
Definition read_bytes (fs : FS) (p : string) : option bytes :=
  match fs !! p with
  | Some (File b) => Some b
  | _ => None
  end.

(** The directories above a path: what stands before each of its
    slashes. *)
Fixpoint parents_from (seen rest : string) : list string :=
  match rest with
  | EmptyString => []
  | String c rest' =>
      (if Ascii.eqb c "/" && negb (String.eqb seen EmptyString) then [seen] else [])
      ++ parents_from (seen +:+ String c EmptyString) rest'
  end.

Definition parents (p : string) : list string := parents_from EmptyString p.

(** A path that holds a file cannot be gone through. *)
Definition blocks (fs : FS) (d : string) : bool :=
  match fs !! d with
  | Some (File _) | Some (Locked _) => true
  | _ => false
  end.

Definition mkdirs (fs : FS) (ds : list string) : FS :=
  foldr (λ d f, <[d := Dir]> f) fs ds.

(** [Bun.write(p, content)]: creates or replaces a file, after creating
    the directories above it that are missing; fails on a file that cannot
    be opened, on a directory, and when a path above holds a file. *)
Definition write_file (fs : FS) (p : string) (content : bytes) : option FS :=
  match fs !! p with
  | Some Dir | Some (Locked _) => None
  | _ =>
      if existsb (blocks fs) (parents p) then None
      else Some (<[p := File content]> (mkdirs fs (parents p)))
  end.

(** [unlinkSync(p)]: removes a file, whether it can be opened or not; fails
    on a missing path and on a directory. *)
Definition unlink (fs : FS) (p : string) : option FS :=
  match fs !! p with
  | Some (File _) | Some (Locked _) => Some (delete p fs)
  | _ => None
  end.

(** [pattern.includes('*')]. *)
Fixpoint includes_star (s : string) : bool :=
  match s with
  | EmptyString => false
  | String c s' => Ascii.eqb c "*" || includes_star s'
  end.

(** What the console receives, and the commands handed to the shell. *)
Inductive event :=
  | WarnInput (p : string)           (* Warning: Could not read input file *)
  | WarnOutput (p : string)          (* Warning: Could not read output file *)
  | CacheHit (name : string)         (* Cache hit for task: *)
  | OutputFromCache (name : string)  (* Output from cache: *)
  | Print (s : string)               (* console.log(cachedTask.stdout) *)
  | Starting (name : string)         (* Starting task: *)
  | Echo (cmd : string)              (* > command *)
  | Shell (cmd : string)             (* the command is run by the shell *)
  | Finished (name : string)         (* Finished task: *)
  | Restoring (id : N)               (* Restoring task from cache: *)
  | RestoringFiles (n : nat)         (* Restoring n files from cache *)
  | Clearing (p : string)            (* Clearing path *)
  | WarnDelete (p : string)          (* Warning: Could not delete file *)
  | Skipping (p : string)            (* Skipping path (unchanged) *)
  | Writing (p : string)             (* Writing path *)
  | NotFound (name : string)         (* Error: Script 'name' not found *)
  | Loading                          (* Loading tasks from path *)
  | Usage                            (* the listing printed by [usage] *)
  | ResetDone.                       (* Database reset successfully. *)

#[global] Instance event_eq_dec : EqDecision event.
Proof. solve_decision. Defined.

(** ** The cache store: the two tables of [cache.sqlite] *)

(** A row of [task_cache] (the [timestamp] column is never read). *)
Record cache_row := CacheRow {
  id : N;
  task_name : string;
  row_inputs : string;
  stdout : string
}.

(** A row of [task_output]. *)
Record output_row := OutputRow {
  task_id : N;
  path : string;
  hash : option string;
  content : option bytes
}.

(** The order of the index of a text column: byte by byte, a proper prefix
    first. *)
Fixpoint memcmp (a b : string) : Z :=
  match a, b with
  | EmptyString, EmptyString => 0
  | EmptyString, String _ _ => -1
  | String _ _, EmptyString => 1
  | String c a', String d b' =>
      if (N_of_ascii c <? N_of_ascii d)%N then -1
      else if (N_of_ascii d <? N_of_ascii c)%N then 1
      else memcmp a' b'
  end%Z.

(** Rows in the order of their paths. *)
Definition by_path (rows : list output_row) : list output_row :=
  Array_sort (λ a b, memcmp (path a) (path b)) rows.

#[global] Instance cache_row_eq_dec : EqDecision cache_row.
Proof. solve_decision. Defined.

#[global] Instance output_row_eq_dec : EqDecision output_row.
Proof. solve_decision. Defined.

(** The world the script runs in. [fs] is the working tree without the
    files of the store ([cache.sqlite] and its [-wal] and [-shm]), whose
    content is the two tables; [next_uuid] stands for [randomUUIDv7()]:
    each call returns an identifier never returned before. *)
Record World := {
  fs : FS;
  task_cache : list cache_row;
  task_output : list output_row;
  trace : list event;
  next_uuid : N
}.

Definition set_fs (f : FS) (w : World) : World :=
  {| fs := f; task_cache := task_cache w; task_output := task_output w;
     trace := trace w; next_uuid := next_uuid w |}.

Definition log (es : list event) (w : World) : World :=
  {| fs := fs w; task_cache := task_cache w; task_output := task_output w;
     trace := trace w ++ es; next_uuid := next_uuid w |}.

Definition randomUUIDv7 (w : World) : N * World :=
  (next_uuid w,
   {| fs := fs w; task_cache := task_cache w; task_output := task_output w;
      trace := trace w; next_uuid := N.succ (next_uuid w) |}).

(** [SELECT * FROM task_cache WHERE task_name = ? AND inputs = ?] read with
    [.get]: the first matching row. *)
Definition select_cache (name fingerprint : string) (w : World) : option cache_row :=
  List.find (λ r, bool_decide (task_name r = name ∧ row_inputs r = fingerprint))
            (task_cache w).

(** The rows of [task_output] of a record, in the order they were
    inserted. *)
Definition rows_of (i : N) (w : World) : list output_row :=
  List.filter (λ r, bool_decide (task_id r = i)) (task_output w).

(** [SELECT * FROM task_output WHERE task_id = ?] read with [.all]: the
    rows are found through the index of the primary key [(task_id, path)]
    and come in the order of their paths. *)
Definition select_outputs (i : N) (w : World) : list output_row :=
  by_path (rows_of i w).

(** [INSERT INTO task_cache]: [id] is the primary key. *)
Definition insert_cache (r : cache_row) (w : World) : option World :=
  if bool_decide (id r ∈ id <$> task_cache w) then None
  else Some {| fs := fs w; task_cache := task_cache w ++ [r];
               task_output := task_output w; trace := trace w;
               next_uuid := next_uuid w |}.

(** [INSERT INTO task_output]: [(task_id, path)] is the primary key. *)
Definition insert_output (r : output_row) (w : World) : option World :=
  if bool_decide ((task_id r, path r) ∈ (λ r', (task_id r', path r')) <$> task_output w)
  then None
  else Some {| fs := fs w; task_cache := task_cache w;
               task_output := task_output w ++ [r]; trace := trace w;
               next_uuid := next_uuid w |}.

(** [resetDatabase]. *)
Definition resetDatabase (w : World) : World :=
  {| fs := fs w; task_cache := []; task_output := [];
     trace := trace w ++ [ResetDone]; next_uuid := next_uuid w |}.

(** ** Outcomes *)

Inductive error :=
  | TypeError (name : string)   (* [scripts[name]] is undefined *)
  | ShellError (cmd : string)   (* the command exits with a non-zero status *)
  | WriteError (p : string)     (* [Bun.write] fails *)
  | SqliteError.                (* a constraint of the store is violated *)

(** A call returns, throws, or has not returned within the recursion depth
    it was given. *)
Inductive result :=
  | Done (w : World)
  | Throw (e : error) (w : World)
  | Diverge.

Definition bind (r : result) (k : World → result) : result :=
  match r with
  | Done w => k w
  | _ => r
  end.

Notation "r >>= k" := (bind r k) (at level 50, left associativity).

Definition lift (e : error) (w : World) (o : option World) : result :=
  match o with
  | Some w' => Done w'
  | None => Throw e w
  end.

(** A [for ... of] loop whose body may throw. *)
Fixpoint for_each {A} (body : A → World → result) (l : list A) (w : World) : result :=
  match l with
  | [] => Done w
  | x :: l' => body x w >>= for_each body l'
  end.

(** ** The script *)

(** The runtime services the script relies on. *)
Class Platform := {
  (** [new Bun.CryptoHasher('sha256')], [update], [digest('base64')]. *)
  sha256 : bytes → string;
  (** What [Bun.file(p).text()] returns for a file that begins with the
      bytes [FF FE], which it reads as UTF-16: the string, in UTF-8. *)
  utf16 : bytes → string;
  (** [new Glob(pattern).scan()] in the working tree. *)
  scan : string → FS → list string;
  (** [a.localeCompare(b)]: negative, zero or positive. *)
  localeCompare : string → string → Z;
  (** The [$] shell: the working tree the command leaves, and its standard
      output when it exits with status zero. *)
  shell : string → FS → FS * option string
}.

Section Script.

Context {P : Platform}.

(** [Bun.file(p).text()] on a file holding [bs]: UTF-16 after the mark
    [FF FE], UTF-8 otherwise. *)
Definition text (bs : bytes) : string :=
  match bs with
  | xff :: xfe :: _ => utf16 bs
  | _ => text_utf8 bs
  end.

Definition read_text (fs : FS) (p : string) : option string :=
  text <$> read_bytes fs p.

(** Both loops resolve a pattern the same way ([task.ts], lines 56 and
    86): a scan when the pattern contains [*], the pattern itself
    otherwise. *)
Definition resolve (pattern : string) (f : FS) : list string :=
  if includes_star pattern then scan pattern f else [pattern].

(** The body of the inner loop of [hashInputs] (lines 59-66): the file is
    read as text, the text is hashed, and a read that fails is a
    warning. *)
Definition hash_file (f : FS) (acc : obj string * list event) (filepath : string)
  : obj string * list event :=
  match read_text f filepath with
  | Some content => (obj_assign filepath (sha256 (utf8 content)) acc.1, acc.2)
  | None => (acc.1, acc.2 ++ [WarnInput filepath])
  end.

(** The object [inputs] when both loops are over (lines 54-68), and the
    warnings. *)
Definition collect_inputs (patterns : list string) (f : FS) : obj string * list event :=
  fold_left (λ acc pattern, fold_left (hash_file f) (resolve pattern f) acc)
            patterns ([], []).

Definition compare_keys {V} (a b : string * V) : Z := localeCompare a.1 b.1.

(** The string returned by [hashInputs] (lines 71-76). *)
Definition fingerprint_of (cmd : string) (o : obj string) : string :=
  JSON_stringify cmd
    (Object_fromEntries (Array_sort compare_keys (Object_entries o))).

(** [hashInputs] (lines 49-77): the fingerprint and the warnings. *)
Definition hashInputs (task : Task) (f : FS) : string * list event :=
  let '(o, warnings) := collect_inputs (default [] (inputs task)) f in
  (fingerprint_of (command task) o, warnings).

(** The body of the inner loop of [prepareOutputs] (lines 89-95): the file
    is read as bytes, and a read that fails records [null]. *)
Definition capture_file (f : FS) (acc : obj (option bytes) * list event)
    (filepath : string) : obj (option bytes) * list event :=
  match read_bytes f filepath with
  | Some c => (obj_assign filepath (Some c) acc.1, acc.2)
  | None => (obj_assign filepath None acc.1, acc.2 ++ [WarnOutput filepath])
  end.

(** [prepareOutputs] (lines 79-100). *)
Definition prepareOutputs (task : Task) (f : FS) : obj (option bytes) * list event :=
  fold_left (λ acc pattern, fold_left (capture_file f) (resolve pattern f) acc)
            (default [] (outputs task)) ([], []).

Definition getMaybeFileBytes (f : FS) (p : string) : option bytes := read_bytes f p.

Definition getMaybeFileHash (b : option bytes) : option string := sha256 <$> b.

(** The body of the loop of [restoreFromCache] (lines 232-250): only the
    deletion is guarded by [try]. *)
Definition restore_row (r : output_row) (w : World) : result :=
  match hash r, content r with
  | Some h, Some c =>
      let currentContent := getMaybeFileBytes (fs w) (path r) in
      let currentHash := getMaybeFileHash currentContent in
      if decide (currentHash = Some h) then Done (log [Skipping (path r)] w)
      else
        let w1 := log [Writing (path r)] w in
        match write_file (fs w1) (path r) c with
        | Some f' => Done (set_fs f' w1)
        | None => Throw (WriteError (path r)) w1
        end
  | _, _ =>
      let w1 := log [Clearing (path r)] w in
      match unlink (fs w1) (path r) with
      | Some f' => Done (set_fs f' w1)
      | None => Done (log [WarnDelete (path r)] w1)
      end
  end.

(** [restoreFromCache] (lines 220-251). *)
Definition restoreFromCache (i : N) (w : World) : result :=
  let w1 := log [Restoring i] w in
  let rows := select_outputs i w1 in
  for_each restore_row rows (log [RestoringFiles (length rows)] w1).

(** The row written for one entry of the captured outputs (lines
    170-181). *)
Definition output_row_of (taskId : N) (e : string * option bytes) : output_row :=
  OutputRow taskId e.1 (sha256 <$> e.2) e.2.

Definition insert_output_row (r : output_row) (w : World) : result :=
  lift SqliteError w (insert_output r w).

(** The block guarded by [task.cache ?? true] (lines 157-183): the record
    first, then the capture, then one statement per snapshot. *)
Definition save (script_name : string) (task : Task) (inputsHash out : string)
    (w : World) : result :=
  let '(taskId, w1) := randomUUIDv7 w in
  lift SqliteError w1 (insert_cache (CacheRow taskId script_name inputsHash out) w1)
  >>= λ w2,
    let '(captured, warnings) := prepareOutputs task (fs w2) in
    for_each insert_output_row
             (output_row_of taskId <$> Object_entries captured)
             (log warnings w2).

(** [runTask] once the dependencies have returned (lines 130-185). *)
Definition run_own (script_name : string) (task : Task) (w : World) : result :=
  let '(inputsHash, warnings) := hashInputs task (fs w) in
  let w1 := log warnings w in
  match select_cache script_name inputsHash w1 with
  | Some cachedTask =>
      restoreFromCache (id cachedTask) (log [CacheHit script_name] w1)
      >>= λ w2, Done (log [OutputFromCache script_name; Print (stdout cachedTask)] w2)
  | None =>
      let w2 := log [Starting script_name; Echo (command task); Shell (command task)] w1 in
      match shell (command task) (fs w2) with
      | (f', None) => Throw (ShellError (command task)) (set_fs f' w2)
      | (f', Some out) =>
          (if default true (cache task)
           then save script_name task inputsHash out (set_fs f' w2)
           else Done (set_fs f' w2))
          >>= λ w3, Done (log [Finished script_name] w3)
      end
  end.

(** [runTask] (lines 122-186); [depth] bounds the nesting of the recursive
    calls. Reading [depends_on] of a task that is [undefined] throws. *)
Fixpoint runTask (depth : nat) (scripts : Scripts) (script_name : string)
    (w : World) : result :=
  match depth with
  | O => Diverge
  | S depth' =>
      match scripts !! script_name with
      | None => Throw (TypeError script_name) w
      | Some task =>
          for_each (runTask depth' scripts) (default [] (depends_on task)) w
          >>= run_own script_name task
      end
  end.

(** How the process ends. *)
Inductive outcome :=
  | Exit (code : nat) (w : World)
  | Uncaught (e : error) (w : World)
  | Hang.

Definition dump_command : string := "sqlite3 cache.sqlite .dump > cache.sql".

(** The top level of the script, from [process.argv.slice(2)] on;
    [scripts] is what [loadScripts] returns. *)
Definition main (depth : nat) (scripts : Scripts) (args : list string)
    (w : World) : outcome :=
  match args with
  | [] => Exit 1 (log [Loading; Usage] w)
  | script_name :: _ =>
      if decide (script_name = "reset") then Exit 0 (resetDatabase w)
      else
        let w0 := log [Loading] w in
        match scripts !! script_name with
        | None => Exit 1 (log [NotFound script_name; Usage] w0)
        | Some _ =>
            match runTask depth scripts script_name w0 with
            | Done w1 =>
                let w2 := log [Shell dump_command] w1 in
                match shell dump_command (fs w2) with
                | (f', Some _) => Exit 0 (set_fs f' w2)
                | (f', None) => Uncaught (ShellError dump_command) (set_fs f' w2)
                end
            | Throw e w1 => Uncaught e w1
            | Diverge => Hang
            end
        end
  end.

End Script.

(** ** Reading the trace and the task graph *)

Definition world_of (r : result) : option World :=
  match r with
  | Done w | Throw _ w => Some w
  | Diverge => None
  end.

(** The tasks whose own step was entered: each one announces itself with
    exactly one of [Cache hit for task] and [Starting task]. *)
Definition processed (es : list event) : list string :=
  omap (λ e, match e with
             | CacheHit n | Starting n => Some n
             | _ => None
             end) es.

(** The commands run by the shell. *)
Definition executed (es : list event) : list string :=
  omap (λ e, match e with Shell c => Some c | _ => None end) es.

(** The paths written by a restoration. *)
Definition written (es : list event) : list string :=
  omap (λ e, match e with Writing p => Some p | _ => None end) es.


Definition is_restore_event (e : event) : bool :=
  match e with
  | Restoring _ | RestoringFiles _ | Clearing _ | WarnDelete _
  | Skipping _ | Writing _ => true
  | _ => false
  end.

Definition is_warning (e : event) : bool :=
  match e with
  | WarnInput _ | WarnOutput _ => true
  | _ => false
  end.

(** The calls of [runTask] that reach their own step, in the order they
    reach it: the dependency tree below [name], unfolded in post-order, a
    task once for each path that leads to it. *)
Fixpoint visits (depth : nat) (scripts : Scripts) (name : string) : list string :=
  match depth with
  | O => []
  | S depth' =>
      match scripts !! name with
      | None => []
      | Some task =>
          (default [] (depends_on task) ≫= visits depth' scripts) ++ [name]
      end
  end.

(** A snapshot is an absence entry when its hash or its content is null. *)
Definition is_absence (r : output_row) : bool :=
  match hash r, content r with
  | Some _, Some _ => false
  | _, _ => true
  end.

(** What the schema and [save] guarantee of the store: identifiers come
    from the UUID source, a record has one snapshot per path, and a stored
    hash is the digest of the stored content. *)
Definition store_inv `{Platform} (w : World) : Prop :=
  (∀ r, r ∈ task_cache w → (id r < next_uuid w)%N)
  ∧ (∀ r, r ∈ task_output w → (task_id r < next_uuid w)%N)
  ∧ NoDup ((λ r, (task_id r, path r)) <$> task_output w)
  ∧ (∀ r, r ∈ task_output w → hash r = sha256 <$> content r).

(** [save] stopped after the record and the first [n] snapshots were
    written: every [db.run] commits on its own, so this is the store a
    process killed at that point leaves behind, and the store another
    process reads at that point. *)
Definition save_stopped `{Platform} (n : nat) (script_name : string) (task : Task)
    (inputsHash out : string) (w : World) : result :=
  let '(taskId, w1) := randomUUIDv7 w in
  lift SqliteError w1 (insert_cache (CacheRow taskId script_name inputsHash out) w1)
  >>= λ w2,
    let '(captured, warnings) := prepareOutputs task (fs w2) in
    for_each insert_output_row
             (take n (output_row_of taskId <$> Object_entries captured))
             (log warnings w2).

(** What a step appends to the trace. *)
Definition extends (P : list event → Prop) (w w' : World) : Prop :=
  ∃ es, trace w' = trace w ++ es ∧ P es.

(** Every event of a list is of one kind. *)
Definition all_events (p : event → bool) (es : list event) : Prop :=
  Forall (λ e, p e = true) es.

(** Both tables and the UUID source are as they were. *)
Definition same_store (w w' : World) : Prop :=
  task_cache w' = task_cache w ∧ task_output w' = task_output w
  ∧ next_uuid w' = next_uuid w.

(** The primary key of [task_output]. *)
Definition row_key (r : output_row) : N * string := (task_id r, path r).

(** The snapshot rows [save] writes for a record. *)
Definition saved_rows `{Platform} (taskId : N) (task : Task) (f : FS) : list output_row :=
  output_row_of taskId <$> Object_entries (prepareOutputs task f).1.

(** A snapshot has nothing left to do in a working tree: the path of an
    absence entry holds nothing that can be deleted, the file at any other
    path hashes to the stored hash. *)
Definition settled `{Platform} (r : output_row) (f : FS) : Prop :=
  if is_absence r then unlink f (path r) = None
  else sha256 <$> read_bytes f (path r) = hash r.

(** What a restoration may do to a path it holds no snapshot for: leave
    it as it is or, if nothing was there and it lies above one of the
    paths [ps], make it a directory. *)
Definition kept_or_made (ps : list string) (f f' : FS) (p : string) : Prop :=
  f' !! p = f !! p
  ∨ (f !! p = None ∧ f' !! p = Some Dir ∧ ∃ q, q ∈ ps ∧ p ∈ parents q).

(** The loop over [task.depends_on] at the head of [runTask]. *)
Definition run_dependencies `{Platform} (depth : nat) (scripts : Scripts)
    (task : Task) (w : World) : result :=
  for_each (runTask depth scripts) (default [] (depends_on task)) w.
(** The digest [hashInputs] records for a path, when it can read it. *)
Definition digest_of `{Platform} (f : FS) (p : string) : option string :=
  (λ content, sha256 (utf8 content)) <$> read_text f p.

(** The paths the two loops of [hashInputs] go through, in order. *)
Definition input_paths `{Platform} (patterns : list string) (f : FS) : list string :=
  patterns ≫= λ pattern, resolve pattern f.

(** The paths the two loops of [prepareOutputs] go through, in order. *)
Definition output_paths `{Platform} (task : Task) (f : FS) : list string :=
  default [] (outputs task) ≫= λ pattern, resolve pattern f.

(** The same platform with another enumeration of the working tree. *)
Definition with_scan (scan' : string → FS → list string) (P : Platform) : Platform :=
  {| sha256 := @sha256 P; utf16 := @utf16 P; scan := scan';
     localeCompare := @localeCompare P;
     shell := @shell P |}.

(** The comparator orders a list of keys: on these keys it is total and
    transitive, and only a key itself compares equal to it. *)
Definition orders (cmp : string → string → Z) (keys : list string) : Prop :=
  Forall (λ a,
    Forall (λ b,
      ((cmp a b <= 0)%Z ∨ (cmp b a <= 0)%Z)
      ∧ ((cmp a b <= 0)%Z → (cmp b a <= 0)%Z → a = b)
      ∧ Forall (λ c, (cmp a b <= 0)%Z → (cmp b c <= 0)%Z → (cmp a c <= 0)%Z) keys)
    keys) keys.

#[global] Instance orders_dec cmp keys : Decision (orders cmp keys).
Proof. unfold orders. apply _. Defined.
(** The digest the fingerprint holds for a path: that of every path gone
    through that can be read, but for [__proto__], which the assignment
    to [inputs] makes no property of. *)
Definition recorded `{Platform} (task : Task) (f : FS) (q : string) : option string :=
  if decide (q ∈ input_paths (default [] (inputs task)) f ∧ q ≠ "__proto__")
  then digest_of f q else None.

Definition hex_value (c : ascii) : N :=
  let n := N_of_ascii c in
  if (n <? 58)%N then n - 48 else n - 87.

(** Reading one character back from the head of an escaped string: what
    [json_escape] wrote and what follows it, nothing at a closing quote. *)
Definition unescape (s : string) : option (ascii * string) :=
  match s with
  | EmptyString => None
  | String c rest =>
      if Ascii.eqb c "034" then None
      else if Ascii.eqb c "\" then
        match rest with
        | String d rest' =>
            if Ascii.eqb d "034" then Some (d, rest')
            else if Ascii.eqb d "\" then Some (d, rest')
            else if Ascii.eqb d "b" then Some ("008"%char, rest')
            else if Ascii.eqb d "f" then Some ("012"%char, rest')
            else if Ascii.eqb d "n" then Some ("010"%char, rest')
            else if Ascii.eqb d "r" then Some ("013"%char, rest')
            else if Ascii.eqb d "t" then Some ("009"%char, rest')
            else
              match rest' with
              | String _ (String _ (String h (String l rest''))) =>
                  Some (ascii_of_N (16 * hex_value h + hex_value l), rest'')
              | _ => None
              end
        | EmptyString => None
        end
      else Some (c, rest)
  end.

(** What follows the first member of an object in [json_members]. *)
Definition json_rest (o : obj string) : string :=
  match o with
  | [] => EmptyString
  | _ => "," +:+ json_members o
  end.

(** ** The dependency graph, the store and the files, for the further
    properties *)

(** A task lists another among its dependencies. *)
Definition depends (scripts : Scripts) (a b : string) : Prop :=
  ∃ task, scripts !! a = Some task ∧ b ∈ default [] (depends_on task).

(** The commands of a list of task names. *)
Definition commands (scripts : Scripts) (names : list string) : list string :=
  omap (λ n, command <$> scripts !! n) names.

(** What a lookup selects a record by. *)
Definition cache_key (r : cache_row) : string * string := (task_name r, row_inputs r).

(** No two records of the store answer the same lookup. *)
Definition one_record (w : World) : Prop := NoDup (cache_key <$> task_cache w).

(** The foreign key of [task_output]: every snapshot belongs to a record. *)
Definition referenced (w : World) : Prop :=
  ∀ r, r ∈ task_output w → task_id r ∈ id <$> task_cache w.

(** Where an error thrown by a run of [root] that started in [w] and
    stopped in [w'] comes from. *)
Definition thrown_by `{Platform} (scripts : Scripts) (root : string) (e : error)
    (w w' : World) : Prop :=
  match e with
  | TypeError n => scripts !! n = None ∧ rtc (depends scripts) root n
  | ShellError c =>
      ∃ n task es, rtc (depends scripts) root n ∧ scripts !! n = Some task
        ∧ command task = c
        ∧ trace w' = trace w ++ es ++ [Starting n; Echo c; Shell c]
  | WriteError p => ∃ es, trace w' = trace w ++ es ++ [Writing p]
  | SqliteError => ¬ store_inv w
  end.

(** Well-formed UTF-8 (the Unicode Standard, table 3-7): one byte below
    128; two bytes [C2..DF] [80..BF]; three bytes [E0] [A0..BF] [80..BF],
    [ED] [80..9F] [80..BF] or [E1..EF] [80..BF] [80..BF]; four bytes [F0]
    [90..BF], [F4] [80..8F] or [F1..F3] [80..BF], each followed by two
    bytes [80..BF]. *)
Fixpoint well_formed (bs : bytes) : bool :=
  match bs with
  | [] => true
  | b :: r1 =>
      let n := Byte.to_N b in
      if (n <=? 127)%N then well_formed r1
      else
        match r1 with
        | [] => false
        | c1 :: r2 =>
            if in_range 194 223 b then in_range 128 191 c1 && well_formed r2
            else
              match r2 with
              | [] => false
              | c2 :: r3 =>
                  if (n =? 224)%N then
                    in_range 160 191 c1 && in_range 128 191 c2 && well_formed r3
                  else if (n =? 237)%N then
                    in_range 128 159 c1 && in_range 128 191 c2 && well_formed r3
                  else if in_range 225 239 b then
                    in_range 128 191 c1 && in_range 128 191 c2 && well_formed r3
                  else
                    match r3 with
                    | [] => false
                    | c3 :: r4 =>
                        if (n =? 240)%N then
                          in_range 144 191 c1 && in_range 128 191 c2
                          && in_range 128 191 c3 && well_formed r4
                        else if (n =? 244)%N then
                          in_range 128 143 c1 && in_range 128 191 c2
                          && in_range 128 191 c3 && well_formed r4
                        else if in_range 241 243 b then
                          in_range 128 191 c1 && in_range 128 191 c2
                          && in_range 128 191 c3 && well_formed r4
                        else false
                    end
              end
        end
  end.

(** The read of a path fails. *)
Definition unreadable (f : FS) (p : string) : Prop := read_bytes f p = None.

#[global] Instance unreadable_dec f p : Decision (unreadable f p).
Proof. unfold unreadable. apply _. Defined.

(** ** A small platform and a few task graphs to run the script on *)

Module Example.

(** A glob matcher where [*] stands for any run of characters other than
    [/]. *)
Fixpoint glob_match (pattern : string) : string → bool :=
  match pattern with
  | EmptyString => λ s, bool_decide (s = EmptyString)
  | String c pattern' =>
      if Ascii.eqb c "*" then
        fix star (s : string) : bool :=
          glob_match pattern' s
          || match s with
             | String d s' => negb (Ascii.eqb d "/") && star s'
             | EmptyString => false
             end
      else λ s, match s with
                | String d s' => Ascii.eqb c d && glob_match pattern' s'
                | EmptyString => false
                end
  end.

Definition is_file (e : string * node) : bool :=
  match e.2 with File _ | Locked _ => true | Dir => false end.

(** The files of the tree that match, in the order of the underlying map. *)
Definition scan_files (pattern : string) (f : FS) : list string :=
  List.filter (glob_match pattern) (fst <$> List.filter is_file (map_to_list f)).

(** Byte-wise lexicographic comparison. *)
Definition compare_bytes (a b : string) : Z :=
  match Stdlib.Strings.String.compare a b with
  | Eq => 0
  | Lt => -1
  | Gt => 1
  end%Z.

(** A digest that is the content itself. *)
Definition digest (b : bytes) : string := string_of_list_byte b.

(** A shell that knows four commands: [build] writes [out.txt] and prints
    [built], [gen] writes [gen.txt], [serve] prints [serving] and [false]
    fails; anything else prints nothing. *)
Definition run_command (cmd : string) (f : FS) : FS * option string :=
  if decide (cmd = "build") then
    (<["out.txt" := File [x68; x69; x0a]]> f, Some "built")
  else if decide (cmd = "gen") then
    (<["gen.txt" := File [x67]]> f, Some EmptyString)
  else if decide (cmd = "serve") then (f, Some "serving")
  else if decide (cmd = "false") then (f, None)
  else (f, Some EmptyString).

Definition platform : Platform :=
  {| sha256 := digest; utf16 := string_of_list_byte; scan := scan_files;
     localeCompare := compare_bytes;
     shell := run_command |}.

Definition task (cmd : string) (deps ins outs : list string) (c : option bool) : Task :=
  {| command := cmd; depends_on := Some deps; inputs := Some ins;
     outputs := Some outs; cache := c |}.

(** [build] reads [src.txt] and writes [out.txt]; [dev] is not cached; in
    the diamond, [app] depends on [lib] and [cli], which both depend on
    [gen]. *)
Definition build : Task := task "build" [] ["src.txt"] ["out.txt"] None.
Definition dev : Task := task "serve" [] ["src.txt"] [] (Some false).
Definition gen : Task := task "gen" [] ["src.txt"] ["gen.txt"] None.
Definition lib : Task := task "lib" ["gen"] [] [] None.
Definition cli : Task := task "cli" ["gen"] [] [] None.
Definition app : Task := task "app" ["lib"; "cli"] [] [] None.
Definition docs : Task := task "docs" [] ["b.txt"; "*.md"; "a.txt"] ["*.html"] None.
Definition docs' : Task := task "docs" [] ["a.txt"; "b.txt"; "*.md"] ["*.html"] None.
Definition binary : Task := task "build" [] ["in.bin"] [] None.
Definition logs : Task := task "logs" [] [] ["*.log"] None.
Definition broken : Task := task "build" ["missing"] [] [] None.

Definition scripts : Scripts :=
  {[ "build" := build; "dev" := dev; "gen" := gen; "lib" := lib;
     "cli" := cli; "app" := app; "docs" := docs; "broken" := broken;
     "logs" := logs ]}.

Definition world (f : FS) : World :=
  {| fs := f; task_cache := []; task_output := []; trace := []; next_uuid := 0 |}.

Definition tree : FS :=
  {[ "src.txt" := File [x73]; "a.txt" := File [x61]; "b.txt" := File [x62];
     "x.md" := File [x78]; "y.md" := File [x79]; "i.html" := File [x69] ]}.

Definition start : World := world tree.

(** The world a call stops in ([w] itself if it does not stop). *)
Definition after (r : result) (w : World) : World := default w (world_of r).

(** [Glob.scan] enumerating in the opposite order. *)
Definition scan_backwards (pattern : string) (f : FS) : list string :=
  reverse (scan_files pattern f).


(** The tree once [build] has run in it. *)
Definition built_tree : FS := <["out.txt" := File [x68; x69; x0a]]> tree.

(** The fingerprint of [build] in these trees. *)
Definition build_fingerprint : string :=
  "{" +:+ json_quote "command" +:+ ":" +:+ json_quote "build" +:+ ","
  +:+ json_quote "files" +:+ ":{" +:+ json_quote "src.txt" +:+ ":"
  +:+ json_quote "s" +:+ "}}".

(** The rows of a record, in the order they were inserted: an absence
    entry for [gone.txt], a snapshot of [blocked] and one of [out.txt];
    and a store that holds them, in a tree where [blocked] is a
    directory. *)
Definition restore_rows : list output_row :=
  [ OutputRow 0 "gone.txt" None None;
    OutputRow 0 "blocked" (Some "b") (Some [x62]);
    OutputRow 0 "out.txt" (Some "o") (Some [x6f]) ].

Definition blocked_world : World :=
  {| fs := {[ "blocked" := Dir ]}; task_cache := [CacheRow 0 "build" "fp" "built"];
     task_output := restore_rows; trace := []; next_uuid := 1 |}.

Definition unblocked_world : World :=
  {| fs := {[ "other" := Dir ]}; task_cache := [CacheRow 0 "build" "fp" "built"];
     task_output := restore_rows; trace := []; next_uuid := 1 |}.

(** The letter [e] followed by the combining acute accent (U+0301, the
    bytes [cc 81]) written as the one character U+00E9 (the bytes
    [c3 a9]). *)
Fixpoint compose (s : string) : string :=
  match s with
  | EmptyString => EmptyString
  | String c s' =>
      match s' with
      | String d (String e s'') =>
          if Ascii.eqb c "e" && Ascii.eqb d "204" && Ascii.eqb e "129"
          then String "195" (String "169" (compose s''))
          else String c (compose s')
      | _ => String c (compose s')
      end
  end.

(** A comparator for which, as for [localeCompare], two spellings of the
    same text are equal. *)
Definition compare_composed (a b : string) : Z :=
  compare_bytes (compose a) (compose b).

Definition accents_platform : Platform :=
  {| sha256 := digest; utf16 := string_of_list_byte; scan := scan_files;
     localeCompare := compare_composed;
     shell := run_command |}.

(** The name [é.txt] spelt with one character and spelt with two, in a
    tree that holds a file under each, and a task that lists them in one
    order and in the other. *)
Definition composed_name : string := String "195" (String "169" ".txt").
Definition combining_name : string :=
  String "e" (String "204" (String "129" ".txt")).

Definition accents_tree : FS :=
  {[ composed_name := File [x31]; combining_name := File [x32] ]}.

Definition accents : Task := task "cat" [] [composed_name; combining_name] [] None.
Definition accents' : Task := task "cat" [] [combining_name; composed_name] [] None.

End Example.

(** ** More task graphs *)

Module Cases.

Import Example.

(** [watch] and [serve] depend on each other, and [all] on [watch]. *)
Definition looping : Scripts :=
  {[ "all" := task "all" ["watch"] [] [] None;
     "watch" := task "watch" ["serve"] [] [] None;
     "serve" := task "serve" ["watch"] [] [] None ]}.

(** [deploy] depends on [build], then on [check], whose command fails,
    then on [gen]. *)
Definition check : Task := task "false" [] ["src.txt"] [] None.
Definition deploy : Task := task "deploy" ["build"; "check"; "gen"] [] [] None.

Definition failing : Scripts :=
  {[ "build" := build; "check" := check; "gen" := gen; "deploy" := deploy ]}.

(** How far a task of [scripts] is from the tasks without dependencies. *)
Definition level (name : string) : nat :=
  if decide (name = "app") then 2
  else if decide (name ∈ ["lib"; "cli"; "broken"]) then 1
  else 0.

(** The world once [build] has run in [start], and that world with
    [out.txt] removed from the tree. *)
Definition built : World := after (@runTask platform 1 scripts "build" start) start.



(** [docs] with two of its patterns listed again. *)
Definition docs_again : Task :=
  task "docs" [] ["b.txt"; "*.md"; "a.txt"; "a.txt"; "*.md"] ["*.html"] None.

(** A file of text with characters of one, two, three and four bytes. *)
Definition notes : bytes := [x63; xc3; xa9; xe2; x82; xac; xf0; x9f; x98; x80].

Definition notes_tree : FS := {[ "notes.txt" := File notes ]}.


(** The diamond of [scripts] with no task cached. *)
Definition uncached : Scripts :=
  {[ "gen" := task "gen" [] ["src.txt"] ["gen.txt"] (Some false);
     "lib" := task "lib" ["gen"] [] [] (Some false);
     "cli" := task "cli" ["gen"] [] [] (Some false);
     "app" := task "app" ["lib"; "cli"] [] [] (Some false) ]}.

End Cases.

(** * Properties *)

(** ** The serialisation loses nothing *)

Lemma append_nil (b : string) : EmptyString +:+ b = b.
Proof. done. Qed.

Lemma append_cons x (a b : string) : String x a +:+ b = String x (a +:+ b).
Proof. done. Qed.

Lemma append_assoc (a b c : string) : (a +:+ b) +:+ c = a +:+ b +:+ c.
Proof.
  induction a as [|x a IH]; [done|]. rewrite !append_cons. by f_equal.
Qed.

Lemma append_cancel (p a b : string) : p +:+ a = p +:+ b → a = b.
Proof.
  induction p as [|x p IH]; [done|]. rewrite !append_cons. intros [= H]. auto.
Qed.

Lemma unescape_escape c r : unescape (json_escape c +:+ r) = Some (c, r).
Proof. destruct c as [[] [] [] [] [] [] [] []]; reflexivity. Qed.

Lemma unescape_dquote r : unescape (dquote +:+ r) = None.
Proof. done. Qed.

Lemma json_escape_all_inj s1 s2 r1 r2 :
  json_escape_all s1 +:+ dquote +:+ r1 = json_escape_all s2 +:+ dquote +:+ r2 →
  s1 = s2 ∧ r1 = r2.
Proof.
  revert s2. induction s1 as [|c1 s1 IH]; intros [|c2 s2]; cbn [json_escape_all].
  - rewrite !append_nil. unfold dquote. rewrite !append_cons, !append_nil.
    by intros [= ->].
  - rewrite append_nil, append_assoc. intros H. apply (f_equal unescape) in H.
    by rewrite unescape_escape, unescape_dquote in H.
  - rewrite append_nil, append_assoc. intros H. apply (f_equal unescape) in H.
    by rewrite unescape_escape, unescape_dquote in H.
  - rewrite !append_assoc. intros H. apply (f_equal unescape) in H.
    rewrite !unescape_escape in H. injection H as -> H.
    by destruct (IH _ H) as [-> ->].
Qed.

(** A quoted string is read back, with what follows it. *)
Lemma json_quote_inj s1 s2 r1 r2 :
  json_quote s1 +:+ r1 = json_quote s2 +:+ r2 → s1 = s2 ∧ r1 = r2.
Proof.
  unfold json_quote. rewrite !append_assoc. unfold dquote at 1 3.
  rewrite !append_cons, !append_nil. intros [= H].
  by apply json_escape_all_inj.
Qed.

Lemma json_members_cons k v o :
  json_members ((k, v) :: o)
  = json_quote k +:+ ":" +:+ json_quote v +:+ json_rest o.
Proof.
  destruct o as [|[k' v'] o]; cbn [json_members json_rest]; [|done].
  f_equal. f_equal. induction (json_quote v) as [|c s IH]; [done|].
  rewrite append_cons. by f_equal.
Qed.

Lemma json_quote_head s r : ∃ r', json_quote s +:+ r = String "034" r'.
Proof. unfold json_quote, dquote. rewrite !append_cons. by eexists. Qed.

Lemma json_members_inj o1 o2 r1 r2 :
  json_members o1 +:+ "}" +:+ r1 = json_members o2 +:+ "}" +:+ r2 →
  o1 = o2 ∧ r1 = r2.
Proof.
  revert o2. induction o1 as [|[k1 v1] o1 IH]; intros [|[k2 v2] o2].
  - cbn [json_members]. rewrite !append_nil, !append_cons, !append_nil.
    by intros [= ->].
  - rewrite json_members_cons, append_assoc. cbn [json_members].
    match goal with
    | |- context [json_quote k2 +:+ ?rest] =>
        destruct (json_quote_head k2 rest) as [r' ->]
    end.
    rewrite append_nil, append_cons. discriminate.
  - rewrite json_members_cons, append_assoc. cbn [json_members].
    match goal with
    | |- context [json_quote k1 +:+ ?rest] =>
        destruct (json_quote_head k1 rest) as [r' ->]
    end.
    rewrite append_nil, append_cons. discriminate.
  - rewrite !json_members_cons, !append_assoc. intros H.
    apply json_quote_inj in H as [-> H]. apply append_cancel in H.
    apply json_quote_inj in H as [-> H].
    destruct o1 as [|e1 o1], o2 as [|e2 o2]; cbn [json_rest] in H.
    + rewrite !append_nil in H. apply append_cancel in H. by subst.
    + rewrite append_nil, append_assoc in H. discriminate.
    + rewrite append_nil, append_assoc in H. discriminate.
    + rewrite !append_assoc in H. apply append_cancel in H.
      by destruct (IH _ H) as [-> ->].
Qed.

Lemma JSON_stringify_inj cmd1 cmd2 o1 o2 :
  JSON_stringify cmd1 o1 = JSON_stringify cmd2 o2 → cmd1 = cmd2 ∧ o1 = o2.
Proof.
  unfold JSON_stringify. intros H.
  apply append_cancel, json_quote_inj in H as [_ H].
  apply append_cancel, json_quote_inj in H as [-> H].
  apply append_cancel, json_quote_inj in H as [_ H].
  apply append_cancel in H.
  change "}}" with ("}" +:+ "}") in H.
  by apply json_members_inj in H as [-> _].
Qed.

(** ** Results and loops *)

Lemma bind_Done r k w :
  r >>= k = Done w → ∃ w1, r = Done w1 ∧ k w1 = Done w.
Proof. destruct r; simpl; intros H; try discriminate; eauto. Qed.

Lemma bind_world r k w :
  world_of (r >>= k) = Some w →
  (∃ w1, r = Done w1 ∧ world_of (k w1) = Some w)
  ∨ (∃ e, r = Throw e w).
Proof.
  destruct r; simpl; intros H; try discriminate; eauto.
  inversion H; subst; eauto.
Qed.

Lemma for_each_app {A} (body : A → World → result) l1 l2 w :
  for_each body (l1 ++ l2) w = for_each body l1 w >>= for_each body l2.
Proof.
  revert w. induction l1 as [|x l1 IH]; intros w; simpl; [done|].
  destruct (body x w); simpl; auto.
Qed.

(** A property of worlds that every iteration carries to the world it
    stops in, returning or throwing, holds where the loop stops. *)
Lemma for_each_world {A} (P : World → Prop) (body : A → World → result) l :
  (∀ x w w', x ∈ l → P w → world_of (body x w) = Some w' → P w') →
  ∀ w w', P w → world_of (for_each body l w) = Some w' → P w'.
Proof.
  induction l as [|x l IH]; intros Hbody w w' HP Hw; simpl in Hw.
  - by inversion Hw; subst.
  - apply bind_world in Hw as [(w1 & Hx & Hw)|(e & Hx)].
    + eapply IH; [|eapply (Hbody x w w1)|exact Hw].
      * intros y v v' Hy. apply Hbody. by right.
      * by left.
      * done.
      * by rewrite Hx.
    + eapply (Hbody x w w'); [by left|done|by rewrite Hx].
Qed.

Lemma fold_left_bind {A B C} (g : A → B → A) (F : C → list B) l acc :
  fold_left (λ acc x, fold_left g (F x) acc) l acc = fold_left g (l ≫= F) acc.
Proof.
  revert acc. induction l as [|x l IH]; intros acc; simpl; [done|].
  by rewrite fold_left_app, IH.
Qed.

Lemma sort_insert_perm {A} (cmp : A → A → Z) x l : sort_insert cmp x l ≡ₚ x :: l.
Proof.
  induction l as [|y l IH]; simpl; [done|].
  destruct (cmp x y <=? 0)%Z; [done|]. rewrite IH. apply perm_swap.
Qed.

Lemma Array_sort_perm {A} (cmp : A → A → Z) l : Array_sort cmp l ≡ₚ l.
Proof.
  induction l as [|x l IH]; simpl; [done|].
  by rewrite sort_insert_perm, IH.
Qed.

Lemma by_path_perm rows : by_path rows ≡ₚ rows.
Proof. apply Array_sort_perm. Qed.

Lemma elem_of_by_path r rows : r ∈ by_path rows ↔ r ∈ rows.
Proof. by rewrite by_path_perm. Qed.

(** ** What is appended to the trace *)

Lemma extends_refl (P : list event → Prop) w : P [] → extends P w w.
Proof. intros HP. exists []. by rewrite app_nil_r. Qed.

Lemma extends_trans (P Q R : list event → Prop) w1 w2 w3 :
  (∀ es1 es2, P es1 → Q es2 → R (es1 ++ es2)) →
  extends P w1 w2 → extends Q w2 w3 → extends R w1 w3.
Proof.
  intros HR (es1 & E1 & H1) (es2 & E2 & H2).
  exists (es1 ++ es2). rewrite E2, E1, app_assoc. auto.
Qed.

Lemma extends_log (P : list event → Prop) es w : P es → extends P w (log es w).
Proof. intros HP. by exists es. Qed.

Lemma processed_app es1 es2 : processed (es1 ++ es2) = processed es1 ++ processed es2.
Proof. apply omap_app. Qed.

Lemma executed_app es1 es2 : executed (es1 ++ es2) = executed es1 ++ executed es2.
Proof. apply omap_app. Qed.

Lemma written_app es1 es2 : written (es1 ++ es2) = written es1 ++ written es2.
Proof. apply omap_app. Qed.


Lemma omap_none_all {A} (f : event → option A) (p : event → bool) es :
  (∀ e, p e = true → f e = None) → all_events p es → omap f es = [].
Proof.
  intros Hf. induction 1 as [|e es He _ IH]; simpl; [done|].
  by rewrite (Hf e He).
Qed.

Lemma restore_events_processed es :
  all_events is_restore_event es → processed es = [].
Proof. apply omap_none_all. by intros []. Qed.

Lemma restore_events_executed es :
  all_events is_restore_event es → executed es = [].
Proof. apply omap_none_all. by intros []. Qed.

Lemma warnings_processed es : all_events is_warning es → processed es = [].
Proof. apply omap_none_all. by intros []. Qed.

Lemma warnings_executed es : all_events is_warning es → executed es = [].
Proof. apply omap_none_all. by intros []. Qed.

Section Engine.

Context {P : Platform}.

(** *** The two reading loops only warn *)

Lemma hash_files_warn f l acc :
  all_events is_warning acc.2 →
  all_events is_warning (fold_left (hash_file f) l acc).2.
Proof.
  revert acc. induction l as [|p l IH]; intros acc Hacc; simpl; [done|].
  apply IH. unfold hash_file.
  destruct (read_text f p); simpl; [done|].
  apply Forall_app. split; [done|]. by repeat constructor.
Qed.

Lemma collect_inputs_warn patterns f :
  all_events is_warning (collect_inputs patterns f).2.
Proof.
  unfold collect_inputs.
  assert (H : all_events is_warning (([], []) : obj string * list event).2)
    by constructor.
  revert H. generalize (([], []) : obj string * list event).
  induction patterns as [|p ps IH]; intros acc Hacc; simpl; [done|].
  apply IH. by apply hash_files_warn.
Qed.

Lemma hashInputs_warn task f : all_events is_warning (hashInputs task f).2.
Proof.
  unfold hashInputs.
  pose proof (collect_inputs_warn (default [] (inputs task)) f) as H.
  by destruct (collect_inputs _ _).
Qed.

Lemma capture_files_warn f l acc :
  all_events is_warning acc.2 →
  all_events is_warning (fold_left (capture_file f) l acc).2.
Proof.
  revert acc. induction l as [|p l IH]; intros acc Hacc; simpl; [done|].
  apply IH. unfold capture_file.
  destruct (read_bytes f p); simpl; [done|].
  apply Forall_app. split; [done|]. by repeat constructor.
Qed.

Lemma prepareOutputs_warn task f :
  all_events is_warning (prepareOutputs task f).2.
Proof.
  unfold prepareOutputs.
  assert (H : all_events is_warning (([], []) : obj (option bytes) * list event).2)
    by constructor.
  revert H. generalize (([], []) : obj (option bytes) * list event).
  induction (default [] (outputs task)) as [|p ps IH]; intros acc Hacc; simpl; [done|].
  apply IH. by apply capture_files_warn.
Qed.

(** *** Restoration touches the working tree and the trace only *)

Lemma same_store_refl w : same_store w w.
Proof. by repeat split. Qed.

Lemma same_store_trans w1 w2 w3 :
  same_store w1 w2 → same_store w2 w3 → same_store w1 w3.
Proof. intros (?&?&?) (?&?&?). repeat split; congruence. Qed.

Lemma restore_row_world r w w' :
  world_of (restore_row r w) = Some w' →
  same_store w w' ∧ extends (all_events is_restore_event) w w'.
Proof.
  assert (Hdel : ∀ v, world_of
             (match unlink (fs (log [Clearing (path r)] w)) (path r) with
              | Some f' => Done (set_fs f' (log [Clearing (path r)] w))
              | None => Done (log [WarnDelete (path r)] (log [Clearing (path r)] w))
              end) = Some v →
           same_store w v ∧ extends (all_events is_restore_event) w v).
  { intros v. destruct (unlink _ _); simpl; intros [= <-];
      (split; [by repeat split|]).
    - exists [Clearing (path r)]. split; [done|by repeat constructor].
    - exists [Clearing (path r); WarnDelete (path r)].
      split; [simpl; by rewrite <- app_assoc|by repeat constructor]. }
  unfold restore_row.
  destruct (hash r) as [h|], (content r) as [c|]; try apply Hdel.
  case_decide; simpl.
  - intros [= <-]. split; [by repeat split|].
    apply extends_log. by repeat constructor.
  - destruct (write_file _ _ _); simpl; intros [= <-];
      (split; [by repeat split|]); exists [Writing (path r)];
      (split; [done|by repeat constructor]).
Qed.

Lemma all_events_app p es1 es2 :
  all_events p es1 → all_events p es2 → all_events p (es1 ++ es2).
Proof. intros. by apply Forall_app. Qed.

Lemma restore_rows_world rows w w' :
  world_of (for_each restore_row rows w) = Some w' →
  same_store w w' ∧ extends (all_events is_restore_event) w w'.
Proof.
  intros H.
  apply (for_each_world
           (λ v, same_store w v ∧ extends (all_events is_restore_event) w v)
           restore_row rows) with (w := w); [|split|done].
  - intros r v v' _ [Hs He] Hv.
    apply restore_row_world in Hv as [Hs' He']. split.
    + by eapply same_store_trans.
    + eapply extends_trans; [apply all_events_app|done|done].
  - apply same_store_refl.
  - apply extends_refl. constructor.
Qed.

Lemma restoreFromCache_world i w w' :
  world_of (restoreFromCache i w) = Some w' →
  same_store w w' ∧ extends (all_events is_restore_event) w w'.
Proof.
  unfold restoreFromCache. intros H.
  apply restore_rows_world in H as [Hs He]. split; [done|].
  eapply (extends_trans (all_events is_restore_event)); [apply all_events_app| |].
  - apply (extends_log _ [Restoring i]). by repeat constructor.
  - eapply (extends_trans (all_events is_restore_event));
      [apply all_events_app| |exact He].
    apply extends_log. by repeat constructor.
Qed.

(** *** Saving touches the store and the trace only *)

Lemma insert_outputs_world rows w w' :
  world_of (for_each insert_output_row rows w) = Some w' →
  fs w' = fs w ∧ task_cache w' = task_cache w ∧ trace w' = trace w
  ∧ next_uuid w' = next_uuid w
  ∧ ∃ k, task_output w' = task_output w ++ take k rows.
Proof.
  revert w. induction rows as [|r rows IH]; intros w; simpl.
  - intros [= <-]. repeat split; try done. exists 0. by rewrite app_nil_r.
  - unfold insert_output_row at 1, insert_output.
    case_bool_decide; simpl.
    + intros [= <-]. repeat split; try done. exists 0. by rewrite app_nil_r.
    + intros Hw. apply IH in Hw as (Hf & Hc & Ht & Hn & k & Ho). simpl in *.
      repeat split; try done. exists (S k). by rewrite Ho, <- app_assoc.
Qed.

Lemma save_world name task fp out w w' :
  world_of (save name task fp out w) = Some w' →
  fs w' = fs w
  ∧ extends (all_events is_warning) w w'
  ∧ next_uuid w' = N.succ (next_uuid w)
  ∧ ((task_cache w' = task_cache w ∧ task_output w' = task_output w)
     ∨ (task_cache w' = task_cache w ++ [CacheRow (next_uuid w) name fp out]
        ∧ ∃ k, task_output w' = task_output w
                 ++ take k (output_row_of (next_uuid w)
                              <$> Object_entries (prepareOutputs task (fs w)).1))).
Proof.
  unfold save, randomUUIDv7, insert_cache. simpl.
  case_bool_decide; simpl.
  - intros [= <-]. simpl. repeat split; try done.
    + exists []. split; [simpl; by rewrite app_nil_r|constructor].
    + by left.
  - pose proof (prepareOutputs_warn task (fs w)) as Hwarn.
    destruct (prepareOutputs task (fs w)) as [captured warnings]. simpl in *.
    intros Hw. apply insert_outputs_world in Hw as (Hf & Hc & Ht & Hn & k & Ho).
    simpl in *. repeat split; try done.
    + by exists warnings.
    + right. split; [done|]. by exists k.
Qed.

(** *** One step of the engine *)

Lemma run_own_world name task w w' :
  world_of (run_own name task w) = Some w' →
  (next_uuid w <= next_uuid w')%N ∧
  ∃ es, trace w' = trace w ++ es ∧ processed es = [name].
Proof.
  unfold run_own.
  pose proof (hashInputs_warn task (fs w)) as Hwarn.
  destruct (hashInputs task (fs w)) as [fp warnings]. simpl in Hwarn.
  destruct (select_cache name fp (log warnings w)) as [row|].
  - intros H. apply bind_world in H as [(w1 & H1 & H)|(e & H1)].
    + simpl in H. injection H as <-.
      assert (Hw : world_of (restoreFromCache (id row)
                    (log [CacheHit name] (log warnings w))) = Some w1)
        by by rewrite H1.
      apply restoreFromCache_world in Hw as [(_ & _ & Hn) (es & E & Hes)].
      simpl in *. split; [by rewrite Hn|].
      exists (warnings ++ [CacheHit name] ++ es
              ++ [OutputFromCache name; Print (stdout row)]).
      split; [rewrite E; by rewrite <- !app_assoc|].
      rewrite !processed_app, (warnings_processed _ Hwarn),
        (restore_events_processed _ Hes). done.
    + assert (Hw : world_of (restoreFromCache (id row)
                    (log [CacheHit name] (log warnings w))) = Some w')
        by by rewrite H1.
      apply restoreFromCache_world in Hw as [(_ & _ & Hn) (es & E & Hes)].
      simpl in *. split; [by rewrite Hn|].
      exists (warnings ++ [CacheHit name] ++ es).
      split; [rewrite E; by rewrite <- !app_assoc|].
      rewrite !processed_app, (warnings_processed _ Hwarn),
        (restore_events_processed _ Hes). done.
  - destruct (shell (command task) _) as [f' [out|]]; simpl.
    + destruct (default true (cache task)).
      * intros H. apply bind_world in H as [(w1 & H1 & H)|(e & H1)].
        -- simpl in H. injection H as <-.
           assert (Hw : world_of (save name task fp out
                (set_fs f' (log [Starting name; Echo (command task);
                                 Shell (command task)] (log warnings w))))
                = Some w1) by by rewrite H1.
           apply save_world in Hw as (_ & (es & E & Hes) & Hn & _).
           simpl in *. split; [rewrite Hn; lia|].
           exists (warnings ++ [Starting name; Echo (command task);
                                Shell (command task)] ++ es ++ [Finished name]).
           split; [rewrite E; by rewrite <- !app_assoc|].
           rewrite !processed_app, (warnings_processed _ Hwarn),
             (warnings_processed _ Hes). done.
        -- assert (Hw : world_of (save name task fp out
                (set_fs f' (log [Starting name; Echo (command task);
                                 Shell (command task)] (log warnings w))))
                = Some w') by by rewrite H1.
           apply save_world in Hw as (_ & (es & E & Hes) & Hn & _).
           simpl in *. split; [rewrite Hn; lia|].
           exists (warnings ++ [Starting name; Echo (command task);
                                Shell (command task)] ++ es).
           split; [rewrite E; by rewrite <- !app_assoc|].
           rewrite !processed_app, (warnings_processed _ Hwarn),
             (warnings_processed _ Hes). done.
      * simpl. intros [= <-]. simpl. split; [lia|].
        exists (warnings ++ [Starting name; Echo (command task);
                             Shell (command task)] ++ [Finished name]).
        split; [by rewrite <- !app_assoc|].
        rewrite !processed_app, (warnings_processed _ Hwarn). done.
    + intros [= <-]. simpl. split; [lia|].
      exists (warnings ++ [Starting name; Echo (command task);
                           Shell (command task)]).
      split; [by rewrite <- !app_assoc|].
      rewrite !processed_app, (warnings_processed _ Hwarn). done.
Qed.

(** *** The recursion *)

Lemma runTask_unfold depth scripts name w :
  runTask (S depth) scripts name w =
  match scripts !! name with
  | None => Throw (TypeError name) w
  | Some task =>
      for_each (runTask depth scripts) (default [] (depends_on task)) w
      >>= run_own name task
  end.
Proof. done. Qed.



Lemma for_each_not_Done {A} (body : A → World → result) l x :
  x ∈ l → (∀ w w', body x w ≠ Done w') → ∀ w w', for_each body l w ≠ Done w'.
Proof.
  intros Hx Hbody. induction l as [|y l IH]; intros w w' H.
  - by apply elem_of_nil in Hx.
  - simpl in H. apply bind_Done in H as (w1 & Hy & H).
    apply elem_of_cons in Hx as [->|Hx]; [by eapply Hbody|by eapply IH].
Qed.

Lemma runTask_unknown depth scripts name w :
  scripts !! name = None →
  runTask (S depth) scripts name w = Throw (TypeError name) w.
Proof. intros H. by rewrite runTask_unfold, H. Qed.

(** A name that is not in the graph and that an object does not inherit
    either makes [runTask] throw at once, in the world it was called in
    (nothing is fingerprinted, looked up, run or stored for it);
    requested at the top level it ends the process with status 1 before
    [runTask] is called; a task that lists it as a dependency never
    returns, and throws the same error, in the world its earlier
    dependencies left, once they have returned. The error is the one
    raised by reading [depends_on] of [undefined]. *)
Lemma unknown_task_aborts scripts name :
  scripts !! name = None →
  name ∉ prototype_names →
  (∀ depth w, runTask (S depth) scripts name w = Throw (TypeError name) w)
  ∧ (∀ depth rest w, name ≠ "reset" →
       main depth scripts (name :: rest) w
       = Exit 1 (log [NotFound name; Usage] (log [Loading] w)))
  ∧ (∀ depth parent task w w',
       scripts !! parent = Some task →
       name ∈ default [] (depends_on task) →
       runTask depth scripts parent w ≠ Done w')
  ∧ (∀ depth parent task earlier later w w1,
       scripts !! parent = Some task →
       default [] (depends_on task) = earlier ++ name :: later →
       for_each (runTask (S depth) scripts) earlier w = Done w1 →
       runTask (S (S depth)) scripts parent w = Throw (TypeError name) w1).
Proof.
  intros Hname _. split; [|split; [|split]].
  - intros depth w. by apply runTask_unknown.
  - intros depth rest w Hreset. unfold main.
    rewrite decide_False by done. by rewrite Hname.
  - intros depth parent task w w' Hparent Hdep H.
    destruct depth as [|depth]; [discriminate|].
    rewrite runTask_unfold, Hparent in H.
    apply bind_Done in H as (w1 & Hdeps & _).
    revert Hdeps. apply (for_each_not_Done _ _ name); [done|].
    intros v v'. destruct depth as [|depth]; [discriminate|].
    by rewrite runTask_unknown.
  - intros depth parent task earlier later w w1 Hparent Hdeps Hearlier.
    rewrite runTask_unfold, Hparent, Hdeps, for_each_app, Hearlier.
    simpl. by rewrite Hname.
Qed.

(** A relation between worlds that is reflexive, transitive and kept by
    every own step is kept by [runTask], wherever it stops. *)
Lemma runTask_world (Q : World → World → Prop) scripts :
  (∀ w, Q w w) →
  (∀ w1 w2 w3, Q w1 w2 → Q w2 w3 → Q w1 w3) →
  (∀ name task w w',
     scripts !! name = Some task →
     world_of (run_own name task w) = Some w' → Q w w') →
  ∀ depth name w w',
    world_of (runTask depth scripts name w) = Some w' → Q w w'.
Proof.
  intros Hrefl Htrans Hown. induction depth as [|depth IH]; intros name w w' H.
  - discriminate.
  - rewrite runTask_unfold in H.
    destruct (scripts !! name) as [task|] eqn:Hname;
      [|injection H as <-; apply Hrefl].
    apply bind_world in H as [(w1 & Hdeps & H)|(e & Hdeps)].
    + apply Htrans with w1; [|by eapply Hown].
      apply (for_each_world (Q w) (runTask depth scripts)
               (default [] (depends_on task))) with (w := w);
        [|apply Hrefl|by rewrite Hdeps].
      intros d v v' _ Hv Hd. apply Htrans with v; [done|by eapply IH].
    + apply (for_each_world (Q w) (runTask depth scripts)
               (default [] (depends_on task))) with (w := w);
        [|apply Hrefl|by rewrite Hdeps].
      intros d v v' _ Hv Hd. apply Htrans with v; [done|by eapply IH].
Qed.

(** What one own step does to the store. *)
Lemma run_own_store name task w w' :
  world_of (run_own name task w) = Some w' →
  (task_cache w' = task_cache w ∧ task_output w' = task_output w)
  ∨ (default true (cache task) = true
     ∧ select_cache name (hashInputs task (fs w)).1 w = None
     ∧ ∃ out k,
         task_cache w' = task_cache w
           ++ [CacheRow (next_uuid w) name (hashInputs task (fs w)).1 out]
         ∧ task_output w' = task_output w
           ++ take k (output_row_of (next_uuid w)
                        <$> Object_entries (prepareOutputs task (fs w')).1)).
Proof.
  unfold run_own.
  destruct (hashInputs task (fs w)) as [fp warnings]. simpl.
  destruct (select_cache name fp (log warnings w)) as [row|] eqn:Hsel.
  - intros H. left.
    assert (∃ v, world_of (restoreFromCache (id row)
               (log [CacheHit name] (log warnings w))) = Some v
               ∧ task_cache w' = task_cache v ∧ task_output w' = task_output v)
      as (v & Hv & Hc & Ho).
    { apply bind_world in H as [(w1 & H1 & H)|(e & H1)].
      - simpl in H. injection H as <-. exists w1. by rewrite H1.
      - exists w'. by rewrite H1. }
    apply restoreFromCache_world in Hv as [(Hc' & Ho' & _) _].
    simpl in *. split; congruence.
  - destruct (shell (command task) _) as [f' [out|]]; simpl;
      [|intros [= <-]; by left].
    destruct (default true (cache task)); simpl; [|intros [= <-]; by left].
    intros H.
    assert (∃ v, world_of (save name task fp out
               (set_fs f' (log [Starting name; Echo (command task);
                                Shell (command task)] (log warnings w)))) = Some v
               ∧ task_cache w' = task_cache v ∧ task_output w' = task_output v
               ∧ fs w' = fs v)
      as (v & Hv & Hc & Ho & Hf).
    { apply bind_world in H as [(w1 & H1 & H)|(e & H1)].
      - simpl in H. injection H as <-. exists w1. by rewrite H1.
      - exists w'. by rewrite H1. }
    apply save_world in Hv as (Hf' & _ & _ & [[Hc' Ho']|(Hc' & k & Ho')]);
      simpl in *.
    + left. split; congruence.
    + right. split; [done|]. split; [done|].
      exists out, k. rewrite Hc, Ho, Hf, Hf'. by rewrite Hc', Ho'.
Qed.

(** *** Lookups *)

Lemma find_app_none {A} (p : A → bool) l1 l2 :
  List.find p l1 = None → List.find p (l1 ++ l2) = List.find p l2.
Proof.
  induction l1 as [|y l1 IH]; simpl; [done|]. by destruct (p y).
Qed.

Lemma find_snoc_miss {A} (p : A → bool) l x :
  p x = false → List.find p (l ++ [x]) = List.find p l.
Proof.
  intros Hx. induction l as [|y l IH]; simpl; [by rewrite Hx|].
  by destruct (p y).
Qed.

Lemma select_cache_eq name fp w w' :
  task_cache w' = task_cache w → select_cache name fp w' = select_cache name fp w.
Proof. unfold select_cache. by intros ->. Qed.

Lemma executed_own_miss name task warnings es :
  all_events is_warning warnings → all_events is_warning es →
  executed (warnings ++ [Starting name; Echo (command task); Shell (command task)]
            ++ es ++ [Finished name]) = [command task].
Proof.
  intros Hw Hes.
  by rewrite !executed_app, (warnings_executed _ Hw), (warnings_executed _ Hes).
Qed.

(** C8: for a task whose [cache] flag is false, a cache miss runs the
    command and returns with both tables as they were; and no run of any
    task of the graph, wherever it stops, changes what a lookup for that
    task returns, so a lookup that missed keeps missing and the command is
    run again. *)
Theorem uncached_task_leaves_store scripts name task :
  scripts !! name = Some task →
  cache task = Some false →
  (∀ w f' out,
     select_cache name (hashInputs task (fs w)).1 w = None →
     shell (command task) (fs w) = (f', Some out) →
     ∃ w', run_own name task w = Done w'
           ∧ fs w' = f'
           ∧ task_cache w' = task_cache w
           ∧ task_output w' = task_output w
           ∧ ∃ es, trace w' = trace w ++ es ∧ executed es = [command task])
  ∧ (∀ depth root w w',
       world_of (runTask depth scripts root w) = Some w' →
       ∀ fp, select_cache name fp w' = select_cache name fp w).
Proof.
  intros Hname Hcache. split.
  - intros w f' out Hmiss Hshell. unfold run_own.
    pose proof (hashInputs_warn task (fs w)) as Hwarn.
    destruct (hashInputs task (fs w)) as [fp warnings]. simpl in *.
    replace (select_cache name fp (log warnings w)) with (@None cache_row).
    rewrite Hshell, Hcache. simpl.
    eexists. split; [done|]. simpl. repeat split; try done.
    exists (warnings ++ [Starting name; Echo (command task); Shell (command task)]
            ++ [] ++ [Finished name]).
    split; [by rewrite <- !app_assoc|].
    apply executed_own_miss; [done|constructor].
  - intros depth root w w'.
    apply (runTask_world
             (λ v v', ∀ fp, select_cache name fp v' = select_cache name fp v)
             scripts); [done|congruence|].
    intros name' task' v v' Hname' Hown fp.
    apply run_own_store in Hown as [[Hc _]|(Hen & _ & out & k & Hc & _)].
    + by apply select_cache_eq.
    + unfold select_cache. rewrite Hc. apply find_snoc_miss. simpl.
      apply bool_decide_eq_false. intros [-> _].
      rewrite Hname in Hname'. injection Hname' as <-.
      by rewrite Hcache in Hen.
Qed.

(** *** Objects as finite maps *)

Lemma obj_update_keys {V} k (v : V) o : (obj_update k v o).*1 = o.*1.
Proof.
  induction o as [|[k' v'] o IH]; csimpl; [done|].
  case_decide; csimpl; [by subst|by rewrite IH].
Qed.

Lemma obj_add_index_perm {V} i k (v : V) o : obj_add_index i k v o ≡ₚ (k, v) :: o.
Proof.
  induction o as [|[k' v'] o IH]; simpl; [done|].
  destruct (array_index k') as [j|]; [|done].
  destruct (j <? i)%N; [|done].
  rewrite IH. apply perm_swap.
Qed.

Lemma obj_add_perm {V} k (v : V) o : obj_add k v o ≡ₚ (k, v) :: o.
Proof.
  unfold obj_add. destruct (array_index k).
  - apply obj_add_index_perm.
  - by rewrite Permutation_app_comm.
Qed.

Lemma obj_define_NoDup {V} k (v : V) o :
  NoDup o.*1 → NoDup (obj_define k v o).*1.
Proof.
  intros Ho. unfold obj_define, has_key. case_bool_decide as Hk.
  - by rewrite obj_update_keys.
  - rewrite (obj_add_perm k v o). simpl. by constructor.
Qed.

Lemma obj_update_lookup {V} k (v : V) o :
  k ∈ o.*1 →
  (list_to_map (obj_update k v o) : gmap string V) = <[k := v]> (list_to_map o).
Proof.
  induction o as [|[k' v'] o IH]; simpl; intros Hk.
  - by apply elem_of_nil in Hk.
  - case_decide as Hd; simpl.
    + subst. by rewrite insert_insert_eq.
    + apply elem_of_cons in Hk as [->|Hk]; [done|].
      rewrite IH by done. by apply insert_insert_ne.
Qed.

Lemma obj_define_lookup {V} k (v : V) o :
  NoDup o.*1 →
  (list_to_map (obj_define k v o) : gmap string V) = <[k := v]> (list_to_map o).
Proof.
  intros Ho. unfold obj_define, has_key. case_bool_decide as Hk.
  - by apply obj_update_lookup.
  - rewrite <- list_to_map_cons. symmetry. apply list_to_map_proper.
    + simpl. by constructor.
    + by rewrite obj_add_perm.
Qed.

Lemma obj_assign_NoDup {V} k (v : V) o :
  NoDup o.*1 → NoDup (obj_assign k v o).*1.
Proof.
  intros Ho. unfold obj_assign. case_decide; [done|by apply obj_define_NoDup].
Qed.

Lemma obj_assign_lookup {V} k (v : V) o :
  NoDup o.*1 →
  (list_to_map (obj_assign k v o) : gmap string V)
  = if decide (k = "__proto__") then list_to_map o else <[k := v]> (list_to_map o).
Proof.
  intros Ho. unfold obj_assign. case_decide; [done|by apply obj_define_lookup].
Qed.

(** *** The captured outputs *)

Lemma capture_files_NoDup f l acc :
  NoDup acc.1.*1 → NoDup (fold_left (capture_file f) l acc).1.*1.
Proof.
  revert acc. induction l as [|p l IH]; intros acc Hacc; simpl; [done|].
  apply IH. unfold capture_file.
  destruct (read_bytes f p); simpl; by apply obj_assign_NoDup.
Qed.

Lemma prepareOutputs_NoDup task f : NoDup (prepareOutputs task f).1.*1.
Proof.
  unfold prepareOutputs.
  assert (H : NoDup (([], []) : obj (option bytes) * list event).1.*1)
    by constructor.
  revert H. generalize (([], []) : obj (option bytes) * list event).
  induction (default [] (outputs task)) as [|p ps IH]; intros acc Hacc; simpl; [done|].
  apply IH. by apply capture_files_NoDup.
Qed.

(** *** Saving in a store that satisfies the invariant *)

Lemma insert_outputs_done rows w :
  NoDup (row_key <$> (task_output w ++ rows)) →
  for_each insert_output_row rows w =
  Done {| fs := fs w; task_cache := task_cache w;
          task_output := task_output w ++ rows;
          trace := trace w; next_uuid := next_uuid w |}.
Proof.
  revert w. induction rows as [|r rows IH]; intros w Hnd; simpl.
  - rewrite app_nil_r. by destruct w.
  - unfold insert_output_row at 1, insert_output.
    rewrite fmap_app, fmap_cons in Hnd.
    rewrite bool_decide_eq_false_2; simpl.
    + rewrite IH; simpl; [by rewrite <- app_assoc|].
      by rewrite <- app_assoc, fmap_app.
    + apply NoDup_app in Hnd as (_ & Hnd & _).
      intros Hin. apply (Hnd _ Hin). by left.
Qed.

Lemma saved_rows_keys taskId task f :
  row_key <$> saved_rows taskId task f
  = (λ k, (taskId, k)) <$> (prepareOutputs task f).1.*1.
Proof.
  unfold saved_rows, Object_entries. rewrite <- !list_fmap_compose.
  by apply list_fmap_ext.
Qed.

Lemma saved_rows_fresh w task f :
  store_inv w →
  NoDup (row_key <$> (task_output w ++ saved_rows (next_uuid w) task f)).
Proof.
  intros (_ & Hout & Hnd & _). rewrite fmap_app. apply NoDup_app.
  split; [done|]. split.
  - intros key Hold Hnew. rewrite saved_rows_keys in Hnew.
    apply list_elem_of_fmap in Hold as (r & -> & Hr).
    apply list_elem_of_fmap in Hnew as (k & Hk & _).
    apply Hout in Hr. unfold row_key in Hk. injection Hk as Hk _. lia.
  - rewrite saved_rows_keys. apply NoDup_fmap_2.
    + intros k1 k2. congruence.
    + apply prepareOutputs_NoDup.
Qed.

Lemma save_stopped_done n name task fp out w :
  store_inv w →
  save_stopped n name task fp out w =
  Done {| fs := fs w;
          task_cache := task_cache w ++ [CacheRow (next_uuid w) name fp out];
          task_output := task_output w
                         ++ take n (saved_rows (next_uuid w) task (fs w));
          trace := trace w ++ (prepareOutputs task (fs w)).2;
          next_uuid := N.succ (next_uuid w) |}.
Proof.
  intros Hinv. pose proof (saved_rows_fresh w task (fs w) Hinv) as Hnd.
  destruct Hinv as (Hc & _).
  unfold save_stopped, randomUUIDv7, insert_cache. simpl.
  rewrite bool_decide_eq_false_2; simpl.
  - unfold saved_rows in *.
    destruct (prepareOutputs task (fs w)) as [captured warnings]. simpl in *.
    rewrite insert_outputs_done; [done|]. simpl.
    rewrite fmap_app in *. apply NoDup_app in Hnd as (H1 & H2 & H3).
    apply NoDup_app. split; [done|]. split.
    + intros key Hk Hk'. apply (H2 key Hk).
      apply list_elem_of_fmap in Hk' as (r & -> & Hr).
      apply list_elem_of_fmap. exists r. split; [done|].
      by eapply subseteq_take.
    + rewrite fmap_take. eapply sublist_NoDup; [done|apply sublist_take].
  - intros Hin. apply list_elem_of_fmap in Hin as (r & Hid & Hr).
    apply Hc in Hr. lia.
Qed.

Lemma save_as_stopped name task fp out w :
  save name task fp out w =
  save_stopped (length (saved_rows (next_uuid w) task (fs w))) name task fp out w.
Proof.
  unfold save, save_stopped, randomUUIDv7, insert_cache, saved_rows. simpl.
  case_bool_decide; simpl; [done|].
  destruct (prepareOutputs task (fs w)) as [captured warnings]. simpl.
  by rewrite firstn_all.
Qed.

Lemma save_done name task fp out w :
  store_inv w →
  save name task fp out w =
  Done {| fs := fs w;
          task_cache := task_cache w ++ [CacheRow (next_uuid w) name fp out];
          task_output := task_output w ++ saved_rows (next_uuid w) task (fs w);
          trace := trace w ++ (prepareOutputs task (fs w)).2;
          next_uuid := N.succ (next_uuid w) |}.
Proof.
  intros Hinv. rewrite save_as_stopped, save_stopped_done by done.
  by rewrite firstn_all.
Qed.

(** *** The invariant of the store *)

Lemma store_inv_same_store w w' : same_store w w' → store_inv w → store_inv w'.
Proof.
  intros (Hc & Ho & Hn) (H1 & H2 & H3 & H4).
  unfold store_inv. rewrite Hc, Ho, Hn. done.
Qed.

Lemma store_inv_saved name task fp out w :
  store_inv w →
  store_inv {| fs := fs w;
               task_cache := task_cache w ++ [CacheRow (next_uuid w) name fp out];
               task_output := task_output w ++ saved_rows (next_uuid w) task (fs w);
               trace := trace w ++ (prepareOutputs task (fs w)).2;
               next_uuid := N.succ (next_uuid w) |}.
Proof.
  intros Hinv. pose proof (saved_rows_fresh w task (fs w) Hinv) as Hnd.
  destruct Hinv as (H1 & H2 & H3 & H4).
  unfold store_inv. simpl. repeat split.
  - intros r [Hr|Hr]%elem_of_app.
    + apply H1 in Hr. lia.
    + apply list_elem_of_singleton in Hr as ->. simpl. lia.
  - intros r [Hr|Hr]%elem_of_app.
    + apply H2 in Hr. lia.
    + apply list_elem_of_fmap in Hr as (e & -> & _). simpl. lia.
  - exact Hnd.
  - intros r [Hr|Hr]%elem_of_app; [by apply H4|].
    by apply list_elem_of_fmap in Hr as (e & -> & _).
Qed.

Lemma run_own_store_inv name task w w' :
  store_inv w → world_of (run_own name task w) = Some w' → store_inv w'.
Proof.
  intros Hinv. unfold run_own.
  destruct (hashInputs task (fs w)) as [fp warnings].
  destruct (select_cache name fp (log warnings w)) as [row|].
  - intros H.
    assert (∃ v, world_of (restoreFromCache (id row)
               (log [CacheHit name] (log warnings w))) = Some v
               ∧ same_store v w') as (v & Hv & Hs).
    { apply bind_world in H as [(w1 & H1 & H)|(e & H1)].
      - simpl in H. injection H as <-. exists w1. by rewrite H1.
      - exists w'. by rewrite H1. }
    apply restoreFromCache_world in Hv as [Hs' _].
    eapply store_inv_same_store; [exact Hs|].
    eapply store_inv_same_store; [exact Hs'|]. exact Hinv.
  - destruct (shell (command task) _) as [f' [out|]]; simpl;
      [|by intros [= <-]].
    destruct (default true (cache task)); simpl; [|by intros [= <-]].
    rewrite save_done by exact Hinv. simpl. intros [= <-].
    by apply (store_inv_saved name task fp out
                (set_fs f' (log [Starting name; Echo (command task);
                                 Shell (command task)] (log warnings w)))).
Qed.

(** The invariant holds wherever a run stops. *)
Lemma runTask_store_inv depth scripts name w w' :
  store_inv w → world_of (runTask depth scripts name w) = Some w' → store_inv w'.
Proof.
  intros Hinv H. revert Hinv.
  apply (runTask_world (λ v v', store_inv v → store_inv v') scripts)
    with (depth := depth) (name := name); [done|auto| |done].
  intros name' task' v v' _ Hown Hv. by eapply run_own_store_inv.
Qed.

Lemma store_inv_reset w : store_inv (resetDatabase w).
Proof.
  unfold store_inv. simpl. repeat split; try (intros r Hr; by apply elem_of_nil in Hr).
  constructor.
Qed.

Lemma filter_task_id_all taskId (rows : list output_row) :
  (∀ r, r ∈ rows → task_id r = taskId) →
  List.filter (λ r, bool_decide (task_id r = taskId)) rows = rows.
Proof.
  induction rows as [|r rows IH]; intros H; simpl; [done|].
  rewrite bool_decide_eq_true_2 by (apply H; by left).
  rewrite IH; [done|]. intros r' Hr'. apply H. by right.
Qed.

Lemma filter_task_id_none taskId (rows : list output_row) :
  (∀ r, r ∈ rows → task_id r ≠ taskId) →
  List.filter (λ r, bool_decide (task_id r = taskId)) rows = [].
Proof.
  induction rows as [|r rows IH]; intros H; simpl; [done|].
  rewrite bool_decide_eq_false_2 by (apply H; by left).
  apply IH. intros r' Hr'. apply H. by right.
Qed.

Lemma select_new_record name fp out w cache' :
  select_cache name fp w = None →
  List.find (λ r, bool_decide (task_name r = name ∧ row_inputs r = fp))
            (task_cache w ++ CacheRow (next_uuid w) name fp out :: cache')
  = Some (CacheRow (next_uuid w) name fp out).
Proof.
  intros Hmiss. rewrite find_app_none by exact Hmiss. simpl.
  by rewrite bool_decide_eq_true_2.
Qed.

Lemma rows_of_appended i w v rows :
  task_output v = task_output w ++ rows →
  (∀ r, r ∈ task_output w → task_id r ≠ i) →
  (∀ r, r ∈ rows → task_id r = i) →
  rows_of i v = rows.
Proof.
  intros Hv Hold Hnew. unfold rows_of.
  by rewrite Hv, List.filter_app, filter_task_id_none, filter_task_id_all.
Qed.

(** C3, as amended: in a store that satisfies the invariant, the save of
    a cache miss returns with the record and every captured snapshot
    written, so a lookup made after it finds the record with all its
    snapshots (listed in the order of their paths); but the record row is
    written first and each snapshot row after it, one statement at a time:
    in the store left after the record and the first [n] snapshots, a
    lookup already returns the record, with those [n] snapshots only. *)
Theorem record_precedes_snapshots name task fp out w :
  store_inv w →
  select_cache name fp w = None →
  (∃ w', save name task fp out w = Done w'
         ∧ ∃ row, select_cache name fp w' = Some row
                  ∧ select_outputs (id row) w'
                    = by_path (saved_rows (next_uuid w) task (fs w)))
  ∧ (∀ n, ∃ w', save_stopped n name task fp out w = Done w'
         ∧ ∃ row, select_cache name fp w' = Some row
                  ∧ select_outputs (id row) w'
                    = by_path (take n (saved_rows (next_uuid w) task (fs w)))).
Proof.
  intros Hinv Hmiss.
  assert (Hstop : ∀ n, ∃ w', save_stopped n name task fp out w = Done w'
         ∧ ∃ row, select_cache name fp w' = Some row
                  ∧ select_outputs (id row) w'
                    = by_path (take n (saved_rows (next_uuid w) task (fs w)))).
  { intros n. rewrite save_stopped_done by exact Hinv.
    eexists. split; [done|].
    exists (CacheRow (next_uuid w) name fp out). split.
    - unfold select_cache. simpl. by apply select_new_record.
    - unfold select_outputs. f_equal. destruct Hinv as (_ & Hout & _).
      apply (rows_of_appended _ w); [done| |].
      + intros r Hr. apply Hout in Hr. simpl. lia.
      + intros r Hr. apply subseteq_take in Hr.
        by apply list_elem_of_fmap in Hr as (e & -> & _). }
  split; [|exact Hstop].
  rewrite save_as_stopped.
  destruct (Hstop (length (saved_rows (next_uuid w) task (fs w))))
    as (w' & Hw' & row & Hrow & Hrows).
  exists w'. split; [done|]. exists row. split; [done|].
  by rewrite firstn_all in Hrows.
Qed.

(** *** Restoring twice *)

Lemma read_bytes_insert f p c q :
  read_bytes (<[p := File c]> f) q = if decide (p = q) then Some c else read_bytes f q.
Proof.
  unfold read_bytes. rewrite lookup_insert. by case_decide.
Qed.

Lemma unlink_delete f p : unlink (delete p f) p = None.
Proof. unfold unlink. by rewrite lookup_delete_eq. Qed.

Lemma mkdirs_lookup f ds p :
  mkdirs f ds !! p = if decide (p ∈ ds) then Some Dir else f !! p.
Proof.
  induction ds as [|d ds IH].
  - destruct (decide (p ∈ [])) as [Hp|_]; [by apply elem_of_nil in Hp|done].
  - change (mkdirs f (d :: ds)) with (<[d := Dir]> (mkdirs f ds)).
    destruct (decide (p ∈ d :: ds)) as [Hp'|Hp'].
    + destruct (decide (d = p)) as [->|Hd]; [by rewrite lookup_insert_eq|].
      rewrite lookup_insert_ne, IH by done.
      apply elem_of_cons in Hp' as [->|Hp']; [done|]. by rewrite decide_True.
    + rewrite lookup_insert_ne, IH.
      * rewrite decide_False; [done|]. intros Hp. apply Hp'. by right.
      * intros ->. apply Hp'. by left.
Qed.

Lemma kept_or_made_refl ps f p : kept_or_made ps f f p.
Proof. by left. Qed.

Lemma kept_or_made_trans ps f1 f2 f3 p :
  kept_or_made ps f1 f2 p → kept_or_made ps f2 f3 p → kept_or_made ps f1 f3 p.
Proof.
  intros [H12|(H1 & H2 & Hp)] [H23|(H2' & H3 & Hp')].
  - left. congruence.
  - right. rewrite <- H12. done.
  - right. rewrite H23. done.
  - congruence.
Qed.

Lemma kept_or_made_mono ps ps' f f' p :
  ps ⊆ ps' → kept_or_made ps f f' p → kept_or_made ps' f f' p.
Proof.
  intros Hps [H|(H1 & H2 & q & Hq & Hp)]; [by left|right].
  split; [done|]. split; [done|]. exists q. split; [by apply Hps|done].
Qed.

Lemma write_file_elsewhere f p c f' :
  write_file f p c = Some f' →
  ∀ q, q ≠ p → kept_or_made [p] f f' q.
Proof.
  unfold write_file. intros H q Hq.
  assert (Hmk : existsb (blocks f) (parents p) = false →
            kept_or_made [p] f (<[p := File c]> (mkdirs f (parents p))) q).
  { intros Hb. unfold kept_or_made.
    rewrite lookup_insert_ne, mkdirs_lookup by done.
    destruct (decide (q ∈ parents p)) as [Hin|Hin]; [|by left].
    assert (Hq' : blocks f q = false).
    { destruct (blocks f q) eqn:Hbq; [|done].
      assert (existsb (blocks f) (parents p) = true); [|congruence].
      apply existsb_exists. exists q. split; [by apply list_elem_of_In|done]. }
    unfold blocks in Hq'. destruct (f !! q) as [[]|] eqn:Hfq; try done.
    - by left.
    - right. split; [done|]. split; [done|]. exists p. split; [by left|done]. }
  destruct (f !! p) as [[c'|c'|]|]; try discriminate;
    destruct (existsb (blocks f) (parents p)); try discriminate;
    injection H as <-; by apply Hmk.
Qed.

Lemma write_file_read f p c f' :
  write_file f p c = Some f' → read_bytes f' p = Some c.
Proof.
  unfold write_file. intros H.
  destruct (f !! p) as [[c'|c'|]|]; try discriminate;
    destruct (existsb (blocks f) (parents p)); try discriminate;
    injection H as <-; by rewrite read_bytes_insert, decide_True.
Qed.

Lemma restore_row_elsewhere r w w' :
  world_of (restore_row r w) = Some w' →
  ∀ p, p ≠ path r → kept_or_made [path r] (fs w) (fs w') p.
Proof.
  assert (Hdel : ∀ v, world_of
             (match unlink (fs (log [Clearing (path r)] w)) (path r) with
              | Some f' => Done (set_fs f' (log [Clearing (path r)] w))
              | None => Done (log [WarnDelete (path r)] (log [Clearing (path r)] w))
              end) = Some v →
           ∀ p, p ≠ path r → kept_or_made [path r] (fs w) (fs v) p).
  { intros v. unfold unlink. simpl.
    destruct (fs w !! path r) as [[c|c|]|]; simpl; intros [= <-] p Hp; left; simpl;
      try done; by rewrite lookup_delete_ne. }
  unfold restore_row.
  destruct (hash r) as [h|], (content r) as [c|]; try apply Hdel.
  case_decide; simpl; [intros [= <-]; by left|].
  destruct (write_file (fs w) (path r) c) as [f'|] eqn:Hw; simpl;
    intros [= <-] p Hp; simpl; [|by left].
  by eapply write_file_elsewhere.
Qed.

Lemma restore_rows_elsewhere rows w w' :
  world_of (for_each restore_row rows w) = Some w' →
  ∀ p, p ∉ path <$> rows → kept_or_made (path <$> rows) (fs w) (fs w') p.
Proof.
  intros H p Hp.
  apply (for_each_world (λ v, kept_or_made (path <$> rows) (fs w) (fs v) p)
           restore_row rows) with (w := w); [|by left|done].
  intros r v v' Hr Hv Hrow. eapply kept_or_made_trans; [exact Hv|].
  apply (kept_or_made_mono [path r]).
  - intros q ->%list_elem_of_singleton. apply list_elem_of_fmap. by exists r.
  - eapply restore_row_elsewhere; [done|].
    intros ->. apply Hp. apply list_elem_of_fmap. by exists r.
Qed.

Lemma settled_agree r f f' :
  f' !! path r = f !! path r → settled r f → settled r f'.
Proof.
  unfold settled, read_bytes, unlink. intros ->.
  by destruct (is_absence r), (f !! path r) as [[]|].
Qed.

Lemma settled_kept ps r f f' :
  kept_or_made ps f f' (path r) → settled r f → settled r f'.
Proof.
  intros [H|(H1 & H2 & _)]; [by apply settled_agree|].
  unfold settled, read_bytes, unlink. rewrite H1, H2.
  by destruct (is_absence r).
Qed.

Lemma restore_row_settles r w w' :
  hash r = sha256 <$> content r →
  restore_row r w = Done w' → settled r (fs w').
Proof.
  intros Hwf. unfold restore_row, settled, is_absence.
  destruct (hash r) as [h|] eqn:Hh, (content r) as [c|] eqn:Hc;
    try discriminate.
  - rewrite ?Hh, ?Hc in Hwf. simpl in Hwf. case_decide as Hcur; simpl.
    + by intros [= <-].
    + destruct (write_file (fs w) (path r) c) as [f'|] eqn:Hw; simpl;
        intros [= <-]; simpl.
      rewrite (write_file_read _ _ _ _ Hw). simpl. congruence.
  - destruct (unlink _ _) as [f'|] eqn:Hun; simpl; intros [= <-]; simpl.
    + revert Hun. unfold unlink at 1. simpl.
      destruct (fs w !! path r) as [[c'|c'|]|]; intros [= <-];
        apply unlink_delete.
    + done.
Qed.

Lemma restore_rows_settle rows w w' :
  NoDup (path <$> rows) →
  (∀ r, r ∈ rows → hash r = sha256 <$> content r) →
  for_each restore_row rows w = Done w' →
  Forall (λ r, settled r (fs w')) rows.
Proof.
  revert w. induction rows as [|r rows IH]; intros w Hnd Hwf H; [constructor|].
  simpl in H. apply bind_Done in H as (w1 & Hr & Hrows).
  rewrite fmap_cons in Hnd. apply NoDup_cons in Hnd as [Hr' Hnd].
  constructor.
  - apply (settled_kept (path <$> rows) r (fs w1)).
    + eapply restore_rows_elsewhere; [by rewrite Hrows|done].
    + apply (restore_row_settles r w); [|done]. apply Hwf. by left.
  - apply (IH w1); [done| |done]. intros r' Hin. apply Hwf. by right.
Qed.

Lemma settled_row_noop r w :
  settled r (fs w) →
  ∃ es, restore_row r w = Done (log es w) ∧ written es = [].
Proof.
  unfold settled, restore_row, is_absence.
  destruct (hash r) as [h|], (content r) as [c|]; intros Hs.
  - rewrite decide_True by done. by exists [Skipping (path r)].
  - simpl. rewrite Hs.
    exists [Clearing (path r); WarnDelete (path r)].
    split; [|done]. unfold log. simpl. by rewrite <- app_assoc.
  - simpl. rewrite Hs.
    exists [Clearing (path r); WarnDelete (path r)].
    split; [|done]. unfold log. simpl. by rewrite <- app_assoc.
  - simpl. rewrite Hs.
    exists [Clearing (path r); WarnDelete (path r)].
    split; [|done]. unfold log. simpl. by rewrite <- app_assoc.
Qed.

Lemma log_log es1 es2 w : log es2 (log es1 w) = log (es1 ++ es2) w.
Proof. unfold log. simpl. by rewrite app_assoc. Qed.

Lemma settled_rows_noop rows w :
  Forall (λ r, settled r (fs w)) rows →
  ∃ es, for_each restore_row rows w = Done (log es w) ∧ written es = [].
Proof.
  revert w. induction rows as [|r rows IH]; intros w Hs; simpl.
  - exists []. split; [|done]. unfold log. rewrite app_nil_r. by destruct w.
  - apply Forall_cons in Hs as [Hr Hrows].
    destruct (settled_row_noop r w Hr) as (es1 & -> & H1). simpl.
    destruct (IH (log es1 w) Hrows) as (es2 & -> & H2).
    exists (es1 ++ es2). split; [by rewrite log_log|].
    by rewrite written_app, H1, H2.
Qed.

Lemma rows_of_paths i w :
  store_inv w → NoDup (path <$> rows_of i w).
Proof.
  intros (_ & _ & Hnd & _). unfold rows_of.
  induction (task_output w) as [|r rows IH]; simpl; [constructor|].
  rewrite fmap_cons in Hnd. apply NoDup_cons in Hnd as [Hr Hnd].
  case_bool_decide as Hi; [|by apply IH].
  rewrite fmap_cons. apply NoDup_cons. split; [|by apply IH].
  intros Hin. apply Hr.
  apply list_elem_of_fmap in Hin as (r' & Hp & Hr').
  apply list_elem_of_In, List.filter_In in Hr' as [Hr' Hi'].
  apply bool_decide_eq_true in Hi'.
  apply list_elem_of_fmap. exists r'. split; [|by apply list_elem_of_In].
  by rewrite Hp, Hi, Hi'.
Qed.

Lemma select_outputs_paths i w :
  store_inv w → NoDup (path <$> select_outputs i w).
Proof.
  intros Hinv. unfold select_outputs. rewrite by_path_perm.
  by apply rows_of_paths.
Qed.

Lemma select_outputs_wf i w r :
  store_inv w → r ∈ select_outputs i w → hash r = sha256 <$> content r.
Proof.
  intros (_ & _ & _ & Hwf) Hr. apply Hwf.
  unfold select_outputs in Hr. apply (proj1 (elem_of_by_path _ _)) in Hr.
  apply list_elem_of_In, List.filter_In in Hr as [Hr _]. by apply list_elem_of_In.
Qed.

(** C4: in a store that satisfies the invariant, a restoration that has
    returned leaves a working tree in which restoring the same record again
    returns too, changes no file and writes nothing: every hash it compares
    is already the stored one. *)
Theorem restore_twice i w w1 :
  store_inv w →
  restoreFromCache i w = Done w1 →
  ∃ w2, restoreFromCache i w1 = Done w2
        ∧ fs w2 = fs w1
        ∧ ∃ es, trace w2 = trace w1 ++ es ∧ written es = [].
Proof.
  intros Hinv H1.
  assert (Hs : same_store w w1).
  { apply (restoreFromCache_world i). by rewrite H1. }
  unfold restoreFromCache in *.
  assert (Hrows : select_outputs i (log [Restoring i] w1)
                  = select_outputs i (log [Restoring i] w)).
  { unfold select_outputs, rows_of. simpl. by destruct Hs as (_ & -> & _). }
  rewrite Hrows.
  apply restore_rows_settle in H1.
  - apply (settled_rows_noop _
             (log [RestoringFiles (length (select_outputs i (log [Restoring i] w)))]
                  (log [Restoring i] w1))) in H1 as (es & -> & Hes).
    eexists. split; [done|]. split; [done|].
    exists ([Restoring i]
            ++ [RestoringFiles (length (select_outputs i (log [Restoring i] w)))]
            ++ es).
    split; [simpl; by rewrite <- !app_assoc|].
    by rewrite !written_app, Hes.
  - by apply (select_outputs_paths i (log [Restoring i] w)).
  - intros r. by apply (select_outputs_wf i (log [Restoring i] w)).
Qed.

(** *** Failures during a restoration *)

Lemma restore_absence_row r w :
  is_absence r = true →
  restore_row r w =
  match unlink (fs w) (path r) with
  | Some f' => Done (set_fs f' (log [Clearing (path r)] w))
  | None => Done (log [Clearing (path r); WarnDelete (path r)] w)
  end.
Proof.
  unfold is_absence, restore_row.
  destruct (hash r), (content r); try discriminate; intros _; simpl;
    destruct (unlink _ _); try done; by rewrite log_log.
Qed.

(** The two failures of a restoration: a deletion that fails is logged as
    a warning and the loop goes on with the remaining snapshots in the same
    working tree; a write that fails is not caught: the restoration throws
    at that snapshot and the remaining ones are not restored. *)
Lemma restore_failures r rest w :
  (is_absence r = true →
   unlink (fs w) (path r) = None →
   for_each restore_row (r :: rest) w
   = for_each restore_row rest (log [Clearing (path r); WarnDelete (path r)] w))
  ∧ (∀ h c,
       hash r = Some h → content r = Some c →
       getMaybeFileHash (getMaybeFileBytes (fs w) (path r)) ≠ Some h →
       write_file (fs w) (path r) c = None →
       for_each restore_row (r :: rest) w
       = Throw (WriteError (path r)) (log [Writing (path r)] w)).
Proof.
  split.
  - intros Habs Hun. simpl. by rewrite restore_absence_row, Hun.
  - intros h c Hh Hc Hcur Hwrite. simpl. unfold restore_row.
    rewrite Hh, Hc, decide_False by done. simpl. by rewrite Hwrite.
Qed.

(** *** Absence entries *)

Lemma capture_file_lookup f acc p :
  NoDup acc.1.*1 →
  NoDup (capture_file f acc p).1.*1
  ∧ ∀ q, (list_to_map (capture_file f acc p).1 : gmap string (option bytes)) !! q
         = if decide (q = p ∧ q ≠ "__proto__") then Some (read_bytes f q)
           else (list_to_map acc.1 : gmap string (option bytes)) !! q.
Proof.
  intros Hnd.
  assert (∀ (v : option bytes) (e : list event),
    NoDup (obj_assign p v acc.1, e).1.*1
    ∧ ∀ q, (list_to_map (obj_assign p v acc.1, e).1
              : gmap string (option bytes)) !! q
           = if decide (q = p ∧ q ≠ "__proto__") then Some v
             else (list_to_map acc.1 : gmap string (option bytes)) !! q) as Hassign.
  { intros v e. split; [by apply obj_assign_NoDup|]. intros q. cbn [fst].
    rewrite obj_assign_lookup by done.
    destruct (decide (p = "__proto__")) as [Hp|Hp].
    - rewrite decide_False; [done|]. intros [-> ?]. done.
    - destruct (decide (q = p)) as [->|Hq].
      + rewrite lookup_insert_eq. by rewrite decide_True.
      + rewrite lookup_insert_ne by done. rewrite decide_False; [done|].
        by intros [? _]. }
  unfold capture_file. destruct (read_bytes f p) as [c|] eqn:Hread.
  - destruct (Hassign (Some c) acc.2) as [H1 H2]. split; [done|].
    intros q. rewrite H2. case_decide as Hq; [|done]. destruct Hq as [-> _].
    by rewrite Hread.
  - destruct (Hassign None (acc.2 ++ [WarnOutput p])) as [H1 H2]. split; [done|].
    intros q. rewrite H2. case_decide as Hq; [|done]. destruct Hq as [-> _].
    by rewrite Hread.
Qed.

Lemma capture_files_lookup f l acc :
  NoDup acc.1.*1 →
  NoDup (fold_left (capture_file f) l acc).1.*1
  ∧ ∀ q, (list_to_map (fold_left (capture_file f) l acc).1
            : gmap string (option bytes)) !! q
         = if decide (q ∈ l ∧ q ≠ "__proto__") then Some (read_bytes f q)
           else (list_to_map acc.1 : gmap string (option bytes)) !! q.
Proof.
  revert acc. induction l as [|p l IH]; intros acc Hnd.
  - split; [done|]. intros q. case_decide as Hq; [|done].
    destruct Hq as [Hq _]. by apply elem_of_nil in Hq.
  - change (fold_left (capture_file f) (p :: l) acc)
      with (fold_left (capture_file f) l (capture_file f acc p)).
    destruct (capture_file_lookup f acc p Hnd) as [Hnd' Hp].
    destruct (IH _ Hnd') as [Hnd'' Hl]. split; [done|].
    intros q. rewrite Hl, Hp. clear.
    destruct (decide (q ∈ l ∧ q ≠ "__proto__")) as [[Hq Hne]|Hq].
    + rewrite decide_True; [done|]. split; [by right|done].
    + destruct (decide (q = p ∧ q ≠ "__proto__")) as [[-> Hne]|Hq'].
      * rewrite decide_True; [done|]. split; [by left|done].
      * rewrite decide_False; [done|].
        intros [[->|Hin]%elem_of_cons Hne]; [by apply Hq'|by apply Hq].
Qed.

(** What is captured: for every path gone through but [__proto__], what
    reading it gives. *)
Lemma prepareOutputs_lookup task f :
  NoDup (prepareOutputs task f).1.*1
  ∧ ∀ q, (list_to_map (prepareOutputs task f).1 : gmap string (option bytes)) !! q
         = if decide (q ∈ output_paths task f ∧ q ≠ "__proto__")
           then Some (read_bytes f q) else None.
Proof.
  unfold prepareOutputs, output_paths. rewrite fold_left_bind.
  destruct (capture_files_lookup f
              (default [] (outputs task) ≫= λ pattern, resolve pattern f)
              ([], [])) as [Hnd Hl]; [constructor|].
  split; [done|]. intros q. by rewrite Hl.
Qed.






(** *** Running a task again *)

Lemma runTask_steps depth scripts name task w :
  scripts !! name = Some task →
  runTask (S depth) scripts name w
  = run_dependencies depth scripts task w >>= run_own name task.
Proof. intros H. by rewrite runTask_unfold, H. Qed.

Lemma run_own_cache_prefix name task w w' :
  world_of (run_own name task w) = Some w' →
  task_cache w `prefix_of` task_cache w'.
Proof.
  intros [[-> _]|(_ & _ & out & k & -> & _)]%run_own_store; [done|].
  by apply prefix_app_r.
Qed.

Lemma runTask_cache_prefix depth scripts name w w' :
  world_of (runTask depth scripts name w) = Some w' →
  task_cache w `prefix_of` task_cache w'.
Proof.
  apply (runTask_world (λ v v', task_cache v `prefix_of` task_cache v') scripts).
  - done.
  - intros w1 w2 w3 H12 H23. by etrans.
  - intros name' task' v v' _. apply run_own_cache_prefix.
Qed.

Lemma run_dependencies_world (Q : World → World → Prop) depth scripts task :
  (∀ w, Q w w) →
  (∀ w1 w2 w3, Q w1 w2 → Q w2 w3 → Q w1 w3) →
  (∀ name w w', world_of (runTask depth scripts name w) = Some w' → Q w w') →
  ∀ w w', world_of (run_dependencies depth scripts task w) = Some w' → Q w w'.
Proof.
  intros Hrefl Htrans Hrun w w' H. unfold run_dependencies in H.
  apply (for_each_world (Q w) (runTask depth scripts)
           (default [] (depends_on task))) with (w := w); [|apply Hrefl|done].
  intros d v v' _ Hv Hd. apply Htrans with v; [done|by apply (Hrun d)].
Qed.

Lemma for_each_stops {A} (body : A → World → result) l :
  (∀ x w, is_Some (world_of (body x w))) →
  ∀ w, is_Some (world_of (for_each body l w)).
Proof.
  intros Hbody. induction l as [|x l IH]; intros w; simpl; [by eexists|].
  destruct (Hbody x w) as [v Hv].
  destruct (body x w); simpl in *; [apply IH|by eexists|discriminate].
Qed.

Lemma restore_row_stops r w : is_Some (world_of (restore_row r w)).
Proof.
  unfold restore_row.
  destruct (hash r), (content r); simpl;
    try (destruct (unlink _ _); by eexists).
  case_decide; [by eexists|].
  destruct (write_file _ _ _); by eexists.
Qed.

Lemma restoreFromCache_stops i w : is_Some (world_of (restoreFromCache i w)).
Proof. apply for_each_stops, restore_row_stops. Qed.

Lemma run_own_hit name task w row :
  select_cache name (hashInputs task (fs w)).1 w = Some row →
  run_own name task w
  = restoreFromCache (id row) (log [CacheHit name] (log (hashInputs task (fs w)).2 w))
    >>= λ w2, Done (log [OutputFromCache name; Print (stdout row)] w2).
Proof.
  intros Hsel. unfold run_own.
  destruct (hashInputs task (fs w)) as [fp warnings]. simpl in *.
  by replace (select_cache name fp (log warnings w)) with (Some row).
Qed.

Lemma run_own_miss name task w :
  select_cache name (hashInputs task (fs w)).1 w = None →
  default true (cache task) = true →
  store_inv w →
  run_own name task w =
  let w2 := log ((hashInputs task (fs w)).2
                 ++ [Starting name; Echo (command task); Shell (command task)]) w in
  match shell (command task) (fs w) with
  | (f', None) => Throw (ShellError (command task)) (set_fs f' w2)
  | (f', Some out) =>
      Done {| fs := f';
              task_cache := task_cache w
                ++ [CacheRow (next_uuid w) name (hashInputs task (fs w)).1 out];
              task_output := task_output w ++ saved_rows (next_uuid w) task f';
              trace := trace w2 ++ (prepareOutputs task f').2 ++ [Finished name];
              next_uuid := N.succ (next_uuid w) |}
  end.
Proof.
  intros Hsel Hcache Hinv. unfold run_own.
  destruct (hashInputs task (fs w)) as [fp warnings]. simpl in *.
  replace (select_cache name fp (log warnings w)) with (@None cache_row).
  rewrite log_log.
  destruct (shell (command task) (fs w)) as [f' [out|]]; [|done].
  rewrite Hcache, save_done by exact Hinv. simpl.
  unfold log. simpl. by rewrite <- !app_assoc.
Qed.

Lemma run_dependencies_store_inv depth scripts task w w' :
  store_inv w → run_dependencies depth scripts task w = Done w' → store_inv w'.
Proof.
  intros Hinv H. revert Hinv.
  apply (run_dependencies_world (λ v v', store_inv v → store_inv v')
           depth scripts task); [done|auto| |by rewrite H].
  intros d v v' Hd Hv. by eapply runTask_store_inv.
Qed.

Lemma run_dependencies_cache_prefix depth scripts task w w' :
  run_dependencies depth scripts task w = Done w' →
  task_cache w `prefix_of` task_cache w'.
Proof.
  intros H.
  apply (run_dependencies_world (λ v v', task_cache v `prefix_of` task_cache v')
           depth scripts task); [done| | |by rewrite H].
  - intros w1 w2 w3 H12 H23. by etrans.
  - intros d v v'. apply runTask_cache_prefix.
Qed.

Lemma hit_executes_nothing name row warnings w w' :
  all_events is_warning warnings →
  world_of (restoreFromCache (id row) (log [CacheHit name] (log warnings w))
            >>= λ w2, Done (log [OutputFromCache name; Print (stdout row)] w2))
  = Some w' →
  ∃ es, trace w' = trace w ++ es ∧ executed es = [].
Proof.
  intros Hwarn H.
  apply bind_world in H as [(w1 & H1 & H)|(e & H1)].
  - simpl in H. injection H as <-.
    assert (Hw : world_of (restoreFromCache (id row)
                  (log [CacheHit name] (log warnings w))) = Some w1)
      by by rewrite H1.
    apply restoreFromCache_world in Hw as [_ (es & E & Hes)]. simpl in *.
    exists (warnings ++ [CacheHit name] ++ es
            ++ [OutputFromCache name; Print (stdout row)]).
    split; [rewrite E; by rewrite <- !app_assoc|].
    by rewrite !executed_app, (warnings_executed _ Hwarn),
      (restore_events_executed _ Hes).
  - assert (Hw : world_of (restoreFromCache (id row)
                  (log [CacheHit name] (log warnings w))) = Some w')
      by by rewrite H1.
    apply restoreFromCache_world in Hw as [_ (es & E & Hes)]. simpl in *.
    exists (warnings ++ [CacheHit name] ++ es).
    split; [rewrite E; by rewrite <- !app_assoc|].
    by rewrite !executed_app, (warnings_executed _ Hwarn),
      (restore_events_executed _ Hes).
Qed.

(** C1, as amended: for a task whose [cache] flag is not false, started in
    a store that satisfies the invariant. If a first run misses the cache,
    runs the command and returns, it has run the command once; and if a
    second run, started where the first one ended, computes the same
    fingerprint once its dependencies have returned, then it finds the
    record of the first run, restores its snapshots, prints the stored
    standard output and stops without running any command. *)
Theorem cached_task_runs_once scripts depth name task w wa w1 wb :
  scripts !! name = Some task →
  default true (cache task) = true →
  store_inv w →
  run_dependencies depth scripts task w = Done wa →
  select_cache name (hashInputs task (fs wa)).1 wa = None →
  run_own name task wa = Done w1 →
  run_dependencies depth scripts task w1 = Done wb →
  (hashInputs task (fs wb)).1 = (hashInputs task (fs wa)).1 →
  ∃ out,
    (shell (command task) (fs wa)).2 = Some out
    ∧ runTask (S depth) scripts name w = Done w1
    ∧ (∃ es1, trace w1 = trace wa ++ es1 ∧ executed es1 = [command task])
    ∧ runTask (S depth) scripts name w1
      = restoreFromCache (next_uuid wa)
          (log [CacheHit name] (log (hashInputs task (fs wb)).2 wb))
        >>= (λ w2, Done (log [OutputFromCache name; Print out] w2))
    ∧ ∃ w2, world_of (runTask (S depth) scripts name w1) = Some w2
            ∧ ∃ es2, trace w2 = trace wb ++ es2 ∧ executed es2 = [].
Proof.
  intros Hname Hcache Hinv Hdeps1 Hmiss Hown1 Hdeps2 Hfp.
  pose proof (run_dependencies_store_inv _ _ _ _ _ Hinv Hdeps1) as Hinva.
  pose proof (hashInputs_warn task (fs wa)) as Hwarn1.
  pose proof (prepareOutputs_warn task) as Hwarn3.
  rewrite (run_own_miss name task wa Hmiss Hcache Hinva) in Hown1.
  cbv zeta in Hown1.
  destruct (shell (command task) (fs wa)) as [f' [out|]] eqn:Hshell; [|discriminate].
  injection Hown1 as Hw1.
  exists out. split; [done|]. split.
  { rewrite (runTask_steps _ _ _ task) by done. rewrite Hdeps1. simpl.
    rewrite (run_own_miss name task wa Hmiss Hcache Hinva), Hshell.
    by rewrite <- Hw1. }
  split.
  { rewrite <- Hw1. simpl. eexists. split; [by rewrite <- !app_assoc|].
    by apply executed_own_miss. }
  set (row := CacheRow (next_uuid wa) name (hashInputs task (fs wa)).1 out).
  assert (Hsel : select_cache name (hashInputs task (fs wb)).1 wb = Some row).
  { apply run_dependencies_cache_prefix in Hdeps2 as [extra Hextra].
    rewrite <- Hw1 in Hextra. simpl in Hextra.
    unfold select_cache. rewrite Hextra, Hfp, <- app_assoc.
    by apply select_new_record. }
  assert (Hrun2 : runTask (S depth) scripts name w1
                  = restoreFromCache (next_uuid wa)
                      (log [CacheHit name] (log (hashInputs task (fs wb)).2 wb))
                    >>= (λ w2, Done (log [OutputFromCache name; Print out] w2))).
  { rewrite (runTask_steps _ _ _ task) by done. rewrite Hdeps2. simpl.
    by rewrite (run_own_hit name task wb row Hsel). }
  split; [exact Hrun2|].
  rewrite Hrun2.
  destruct (restoreFromCache_stops (next_uuid wa)
              (log [CacheHit name] (log (hashInputs task (fs wb)).2 wb)))
    as [v Hv].
  assert (Hstop : ∃ w2, world_of
            (restoreFromCache (id row)
               (log [CacheHit name] (log (hashInputs task (fs wb)).2 wb))
             >>= (λ w2, Done (log [OutputFromCache name; Print (stdout row)] w2)))
            = Some w2).
  { simpl. destruct (restoreFromCache _ _); simpl in *; try discriminate; by eexists. }
  destruct Hstop as [w2 Hw2]. exists w2. split; [exact Hw2|].
  eapply hit_executes_nothing; [|exact Hw2]. apply hashInputs_warn.
Qed.

(** *** Sorting *)

Lemma sort_insert_sorted {A} (cmp : A → A → Z) x l :
  (∀ y, y ∈ l → (cmp x y <= 0)%Z ∨ (cmp y x <= 0)%Z) →
  (∀ y z, y ∈ l → z ∈ l → (cmp x y <= 0)%Z → (cmp y z <= 0)%Z → (cmp x z <= 0)%Z) →
  StronglySorted (λ a b, (cmp a b <= 0)%Z) l →
  StronglySorted (λ a b, (cmp a b <= 0)%Z) (sort_insert cmp x l).
Proof.
  intros Htot Htrans Hl. induction Hl as [|y l Hl IH Hy]; simpl.
  - repeat constructor.
  - destruct (cmp x y <=? 0)%Z eqn:Hxy.
    + apply Z.leb_le in Hxy. constructor; [by constructor|].
      constructor; [done|]. rewrite Forall_forall in Hy |- *.
      intros z Hz. apply (Htrans y z); [by left|by right|done|by apply Hy].
    + apply Z.leb_gt in Hxy. constructor.
      * apply IH.
        -- intros z Hz. apply Htot. by right.
        -- intros z1 z2 Hz1 Hz2. apply Htrans; by right.
      * rewrite sort_insert_perm. constructor; [|done].
        destruct (Htot y) as [H|H]; [by left|lia|done].
Qed.

Lemma Array_sort_sorted {A} (cmp : A → A → Z) l :
  (∀ x y, x ∈ l → y ∈ l → (cmp x y <= 0)%Z ∨ (cmp y x <= 0)%Z) →
  (∀ x y z, x ∈ l → y ∈ l → z ∈ l →
            (cmp x y <= 0)%Z → (cmp y z <= 0)%Z → (cmp x z <= 0)%Z) →
  StronglySorted (λ a b, (cmp a b <= 0)%Z) (Array_sort cmp l).
Proof.
  induction l as [|x l IH]; intros Htot Htrans; simpl; [constructor|].
  apply sort_insert_sorted.
  - intros y Hy. rewrite Array_sort_perm in Hy. apply Htot; [by left|by right].
  - intros y z Hy Hz. rewrite Array_sort_perm in Hy, Hz.
    apply Htrans; [by left|by right|by right].
  - apply IH.
    + intros y z Hy Hz. apply Htot; by right.
    + intros y z u Hy Hz Hu. apply Htrans; by right.
Qed.

Lemma orders_spec cmp keys a b c :
  orders cmp keys → a ∈ keys → b ∈ keys → c ∈ keys →
  ((cmp a b <= 0)%Z ∨ (cmp b a <= 0)%Z)
  ∧ ((cmp a b <= 0)%Z → (cmp b a <= 0)%Z → a = b)
  ∧ ((cmp a b <= 0)%Z → (cmp b c <= 0)%Z → (cmp a c <= 0)%Z).
Proof.
  unfold orders. rewrite Forall_forall. intros H Ha Hb Hc.
  specialize (H a Ha). rewrite Forall_forall in H.
  destruct (H b Hb) as (Htot & Hanti & Htrans).
  rewrite Forall_forall in Htrans. split; [done|]. split; [done|by apply Htrans].
Qed.

Lemma orders_subseteq cmp keys keys' :
  keys' ⊆ keys → orders cmp keys → orders cmp keys'.
Proof.
  intros Hsub H. unfold orders. rewrite Forall_forall. intros a Ha.
  rewrite Forall_forall. intros b Hb.
  destruct (orders_spec cmp keys a b b H) as (Htot & Hanti & _); auto.
  split; [done|]. split; [done|]. rewrite Forall_forall. intros c Hc.
  by destruct (orders_spec cmp keys a b c H) as (_ & _ & Htrans); auto.
Qed.

Lemma same_key_same_entry {V} (o : obj V) k v1 v2 :
  NoDup o.*1 → (k, v1) ∈ o → (k, v2) ∈ o → v1 = v2.
Proof.
  intros Hnd H1 H2.
  apply (elem_of_list_to_map_1 (M := gmap string) _ _ _ Hnd) in H1.
  apply (elem_of_list_to_map_1 (M := gmap string) _ _ _ Hnd) in H2.
  congruence.
Qed.

(** Two objects with the same properties, whatever their property order,
    are sorted into the same array when the comparator orders their
    keys. *)
Lemma sorted_entries_unique (o1 o2 : obj string) :
  NoDup o1.*1 → NoDup o2.*1 →
  (list_to_map o1 : gmap string string) = list_to_map o2 →
  orders localeCompare o1.*1 →
  Array_sort compare_keys (Object_entries o1)
  = Array_sort compare_keys (Object_entries o2).
Proof.
  intros Hnd1 Hnd2 Hmap Hord. unfold Object_entries.
  assert (Hperm : o1 ≡ₚ o2) by by apply (list_to_map_inj (M := gmap string)).
  assert (Hkey : ∀ e, e ∈ o1 → e.1 ∈ o1.*1).
  { intros e He. apply list_elem_of_fmap. by exists e. }
  assert (Hsorted : ∀ o, o ≡ₚ o1 →
            StronglySorted (λ a b, (compare_keys a b <= 0)%Z)
                           (Array_sort compare_keys o)).
  { intros o Ho. apply Array_sort_sorted.
    - intros x y Hx Hy. rewrite Ho in Hx, Hy. unfold compare_keys.
      by destruct (orders_spec _ _ x.1 y.1 y.1 Hord) as (Htot & _); auto.
    - intros x y z Hx Hy Hz. rewrite Ho in Hx, Hy, Hz. unfold compare_keys.
      by destruct (orders_spec _ _ x.1 y.1 z.1 Hord) as (_ & _ & Htrans); auto. }
  apply (StronglySorted_unique_strong (λ a b, (compare_keys a b <= 0)%Z)).
  - intros [k1 v1] [k2 v2] H1 H2 H12 H21.
    rewrite Array_sort_perm in H1, H2. rewrite <- Hperm in H2.
    unfold compare_keys in *. simpl in *.
    destruct (orders_spec _ _ k1 k2 k2 Hord) as (_ & Hanti & _);
      [by apply (Hkey (k1, v1))|by apply (Hkey (k2, v2))..|].
    specialize (Hanti H12 H21) as ->.
    f_equal. by apply (same_key_same_entry o1 k2).
  - by apply Hsorted.
  - apply Hsorted. by symmetry.
  - by rewrite !Array_sort_perm.
Qed.

(** *** The fingerprint as a function of the files read *)

Lemma collect_inputs_paths patterns f :
  collect_inputs patterns f = fold_left (hash_file f) (input_paths patterns f) ([], []).
Proof. unfold collect_inputs, input_paths. apply fold_left_bind. Qed.

Lemma hash_file_lookup f acc p :
  NoDup acc.1.*1 →
  NoDup (hash_file f acc p).1.*1
  ∧ ∀ q, (list_to_map (hash_file f acc p).1 : gmap string string) !! q
         = if decide ((q = p ∧ q ≠ "__proto__") ∧ is_Some (digest_of f q))
           then digest_of f q else (list_to_map acc.1 : gmap string string) !! q.
Proof.
  intros Hnd. unfold hash_file.
  destruct (read_text f p) as [c|] eqn:Hread; simpl.
  - split; [by apply obj_assign_NoDup|]. intros q.
    rewrite obj_assign_lookup by done.
    destruct (decide (p = "__proto__")) as [Hp|Hp].
    + rewrite decide_False; [done|]. intros [[-> ?] _]. done.
    + destruct (decide (q = p)) as [->|Hq].
      * rewrite lookup_insert_eq. unfold digest_of. rewrite Hread. simpl.
        rewrite decide_True; [done|]. by split.
      * rewrite lookup_insert_ne by done. rewrite decide_False; [done|].
        by intros [[? _] _].
  - split; [done|]. intros q. case_decide as Hq; [|done].
    destruct Hq as ((-> & _) & Hsome). unfold digest_of in Hsome.
    rewrite Hread in Hsome. by destruct Hsome.
Qed.

Lemma hash_files_lookup f l acc :
  NoDup acc.1.*1 →
  NoDup (fold_left (hash_file f) l acc).1.*1
  ∧ ∀ q, (list_to_map (fold_left (hash_file f) l acc).1 : gmap string string) !! q
         = if decide ((q ∈ l ∧ q ≠ "__proto__") ∧ is_Some (digest_of f q))
           then digest_of f q else (list_to_map acc.1 : gmap string string) !! q.
Proof.
  revert acc. induction l as [|p l IH]; intros acc Hnd.
  - split; [done|]. intros q. case_decide as Hq; [|done].
    destruct Hq as ((Hq & _) & _). by apply elem_of_nil in Hq.
  - change (fold_left (hash_file f) (p :: l) acc)
      with (fold_left (hash_file f) l (hash_file f acc p)).
    destruct (hash_file_lookup f acc p Hnd) as [Hnd' Hp].
    destruct (IH _ Hnd') as [Hnd'' Hl]. split; [done|].
    intros q. rewrite Hl, Hp. clear.
    destruct (decide ((q ∈ l ∧ q ≠ "__proto__") ∧ is_Some (digest_of f q)))
      as [((Hq & Hne) & Hsome)|Hq].
    + rewrite decide_True; [done|]. split; [|done]. split; [by right|done].
    + destruct (decide ((q = p ∧ q ≠ "__proto__") ∧ is_Some (digest_of f q)))
        as [((-> & Hne) & Hsome)|Hq'].
      * rewrite decide_True; [done|]. split; [|done]. split; [by left|done].
      * rewrite decide_False; [done|].
        intros (([->|Hin]%elem_of_cons & Hne) & Hsome);
          [by apply Hq'|by apply Hq].
Qed.

(** The files the fingerprint is made of: the paths gone through that can
    be read, but for [__proto__], with their digests. *)
Lemma collect_inputs_lookup patterns f :
  NoDup (collect_inputs patterns f).1.*1
  ∧ ∀ q, (list_to_map (collect_inputs patterns f).1 : gmap string string) !! q
         = if decide ((q ∈ input_paths patterns f ∧ q ≠ "__proto__")
                      ∧ is_Some (digest_of f q))
           then digest_of f q else None.
Proof.
  rewrite collect_inputs_paths.
  destruct (hash_files_lookup f (input_paths patterns f) ([], [])) as [Hnd Hl];
    [constructor|].
  split; [done|]. intros q. by rewrite Hl.
Qed.

Lemma collect_inputs_keys patterns f :
  (collect_inputs patterns f).1.*1 ⊆ input_paths patterns f.
Proof.
  destruct (collect_inputs_lookup patterns f) as [Hnd Hl].
  intros q Hq.
  destruct (decide (q ∈ input_paths patterns f)) as [|Hnot]; [done|].
  apply (not_elem_of_list_to_map (M := gmap string)) in Hq; [done|].
  rewrite Hl, decide_False; [done|]. by intros ((? & _) & _).
Qed.

End Engine.

(** *** Another order of the patterns, another enumeration of the tree *)

Lemma input_paths_reordered {P : Platform} scan' patterns patterns' f :
  patterns' ≡ₚ patterns →
  (∀ pat, pat ∈ patterns → scan' pat f ≡ₚ scan pat f) →
  ∀ q, q ∈ @input_paths (with_scan scan' P) patterns' f ↔ q ∈ input_paths patterns f.
Proof.
  intros Hpats Hscan q. unfold input_paths. rewrite !list_elem_of_bind.
  split; intros (pat & Hq & Hpat).
  - rewrite Hpats in Hpat. exists pat. split; [|done].
    revert Hq. unfold resolve. simpl.
    destruct (includes_star pat); [|done]. by rewrite Hscan.
  - exists pat. rewrite Hpats. split; [|done].
    revert Hq. unfold resolve. simpl.
    destruct (includes_star pat); [|done]. by rewrite Hscan.
Qed.

(** Where the sort of line 74 does what it is there for: when the
    comparator puts the paths gone through in a strict order (no two of
    them compare equal), the fingerprint does not depend on the order in
    which the patterns are listed nor on the order in which [scan]
    enumerates the files: with the same command and the same working
    tree, any such reordering gives the same string. *)
Lemma fingerprint_independent_of_order {P : Platform} scan' task task' f :
  command task' = command task →
  default [] (inputs task') ≡ₚ default [] (inputs task) →
  (∀ pat, pat ∈ default [] (inputs task) → scan' pat f ≡ₚ scan pat f) →
  orders localeCompare (input_paths (default [] (inputs task)) f) →
  (@hashInputs (with_scan scan' P) task' f).1 = (hashInputs task f).1.
Proof.
  intros Hcmd Hpats Hscan Hord.
  pose proof (input_paths_reordered scan' _ _ f Hpats Hscan) as Hpaths.
  unfold hashInputs.
  destruct (@collect_inputs_lookup (with_scan scan' P) (default [] (inputs task')) f)
    as [Hnd' Hl'].
  destruct (collect_inputs_lookup (default [] (inputs task)) f) as [Hnd Hl].
  pose proof (@collect_inputs_keys (with_scan scan' P) (default [] (inputs task')) f)
    as Hkeys'.
  destruct (@collect_inputs (with_scan scan' P) (default [] (inputs task')) f)
    as [o' warnings'].
  destruct (collect_inputs (default [] (inputs task)) f) as [o warnings].
  simpl in *. unfold fingerprint_of. rewrite Hcmd. f_equal. f_equal.
  apply (@sorted_entries_unique P); [done|done| |].
  - apply map_eq. intros q. rewrite Hl', Hl.
    destruct (decide ((q ∈ input_paths (default [] (inputs task)) f
                       ∧ q ≠ "__proto__")
                      ∧ is_Some (digest_of f q)))
      as [((Hq & Hne) & Hsome)|Hq].
    + rewrite decide_True; [done|]. split; [|done]. split; [by apply Hpaths|done].
    + rewrite decide_False; [done|].
      intros ((Hq' & Hne) & Hsome). apply Hq. split; [|done].
      split; [by apply Hpaths|done].
  - apply (orders_subseteq _ (input_paths (default [] (inputs task)) f)); [|done].
    intros q Hq. apply Hpaths. by apply Hkeys'.
Qed.

(** *** What the fingerprint tells apart *)

Lemma fromEntries_lookup {V} (l acc : list (string * V)) k :
  NoDup acc.*1 → NoDup l.*1 →
  (list_to_map (fold_left (λ o e, obj_define e.1 e.2 o) l acc) : gmap string V) !! k
  = match (list_to_map l : gmap string V) !! k with
    | Some v => Some v
    | None => (list_to_map acc : gmap string V) !! k
    end.
Proof.
  revert acc. induction l as [|[k0 v0] l IH]; intros acc Hacc Hl; [done|].
  rewrite fmap_cons in Hl. apply NoDup_cons in Hl as [Hk0 Hl].
  cbn [fst] in Hk0. cbn [fold_left fst snd]. rewrite IH by (done || by apply obj_define_NoDup).
  rewrite obj_define_lookup by done. rewrite list_to_map_cons.
  destruct (decide (k0 = k)) as [<-|Hk].
  - apply (not_elem_of_list_to_map (M := gmap string)) in Hk0.
    by rewrite Hk0, !lookup_insert_eq.
  - by rewrite !lookup_insert_ne.
Qed.

Lemma fromEntries_map {V} (l : list (string * V)) :
  NoDup l.*1 →
  (list_to_map (Object_fromEntries l) : gmap string V) = list_to_map l.
Proof.
  intros Hl. apply map_eq. intros k. unfold Object_fromEntries.
  rewrite fromEntries_lookup by (done || constructor).
  by destruct (list_to_map l !! k).
Qed.

(** The serialised object holds the properties of [inputs]. *)
Lemma fingerprint_files {P : Platform} (o : obj string) :
  NoDup o.*1 →
  (list_to_map (Object_fromEntries (Array_sort compare_keys (Object_entries o)))
     : gmap string string) = list_to_map o.
Proof.
  intros Ho. unfold Object_entries.
  rewrite fromEntries_map by by rewrite Array_sort_perm.
  symmetry. apply list_to_map_proper; [done|]. by rewrite Array_sort_perm.
Qed.

Lemma recorded_lookup {P : Platform} task f q :
  (list_to_map (collect_inputs (default [] (inputs task)) f).1 : gmap string string) !! q
  = recorded task f q.
Proof.
  destruct (collect_inputs_lookup (default [] (inputs task)) f) as [_ ->].
  unfold recorded.
  destruct (decide (q ∈ input_paths (default [] (inputs task)) f
                    ∧ q ≠ "__proto__")) as [Hq|Hq].
  - destruct (digest_of f q) as [d|] eqn:Hd.
    + rewrite decide_True; [done|]. by split.
    + by case_decide.
  - rewrite decide_False; [done|]. intros (? & _). by apply Hq.
Qed.


(** * The claims on the example platform *)

Section Examples.

Import Example.

#[local] Existing Instance Example.platform.

Lemma store_inv_initial {P : Platform} f t n :
  store_inv {| fs := f; task_cache := []; task_output := []; trace := t;
               next_uuid := n |}.
Proof.
  unfold store_inv. simpl.
  repeat split; try (intros r Hr; by apply elem_of_nil in Hr). constructor.
Qed.

Lemma store_inv_set_fs {P : Platform} f w : store_inv w → store_inv (set_fs f w).
Proof. done. Qed.



(** C1 as stated fails for a task that is not cached: with the command
    and the input file as they were, [dev] runs its command at both
    runs. *)
Lemma uncached_task_runs_twice :
  ∃ w1 w2,
    runTask 1 scripts "dev" start = Done w1
    ∧ runTask 1 scripts "dev" w1 = Done w2
    ∧ (hashInputs dev (fs w1)).1 = (hashInputs dev (fs start)).1
    ∧ fs w1 = fs start
    ∧ executed (trace w2) = ["serve"; "serve"].
Proof.
  exists (after (runTask 1 scripts "dev" start) start).
  exists (after (runTask 1 scripts "dev"
                   (after (runTask 1 scripts "dev" start) start)) start).
  split; [by vm_compute|]. split; [by vm_compute|]. split; [by vm_compute|].
  split; by vm_compute.
Qed.

Lemma cached_task_runs_once_witness :
  ∃ out,
    (shell (command build) (fs start)).2 = Some out
    ∧ runTask 1 scripts "build" start
      = Done (after (run_own "build" build start) start)
    ∧ (∃ es1, trace (after (run_own "build" build start) start)
              = trace start ++ es1 ∧ executed es1 = [command build])
    ∧ runTask 1 scripts "build" (after (run_own "build" build start) start)
      = restoreFromCache (next_uuid start)
          (log [CacheHit "build"]
             (log (hashInputs build
                     (fs (after (run_own "build" build start) start))).2
                  (after (run_own "build" build start) start)))
        >>= (λ w2, Done (log [OutputFromCache "build"; Print out] w2))
    ∧ ∃ w2, world_of (runTask 1 scripts "build"
                        (after (run_own "build" build start) start)) = Some w2
            ∧ ∃ es2, trace w2
                     = trace (after (run_own "build" build start) start) ++ es2
                     ∧ executed es2 = [].
Proof.
  apply (cached_task_runs_once scripts 0 "build" build start start
           (after (run_own "build" build start) start)
           (after (run_own "build" build start) start)).
  - by vm_compute.
  - by vm_compute.
  - apply store_inv_initial.
  - by vm_compute.
  - by vm_compute.
  - by vm_compute.
  - by vm_compute.
  - by vm_compute.
Defined.

(** C3 as stated fails: once [build] has run its command, the store left
    after the first statement of [save] already answers the lookup with
    the new record, which has none of its snapshots yet; a run started on
    that store with [out.txt] gone is a cache hit that restores nothing and
    ends with [out.txt] still missing. *)
Lemma record_visible_before_snapshots :
  ∃ w' row,
    save_stopped 0 "build" build build_fingerprint "built" (world built_tree) = Done w'
    ∧ select_cache "build" (hashInputs build (fs w')).1 w' = Some row
    ∧ select_outputs (id row) w' = []
    ∧ saved_rows (id row) build built_tree
      = [OutputRow 0 "out.txt" (Some (digest [x68; x69; x0a])) (Some [x68; x69; x0a])]
    ∧ ∃ w'', runTask 1 scripts "build" (set_fs tree w') = Done w''
             ∧ processed (trace w'') = ["build"]
             ∧ executed (trace w'') = []
             ∧ read_bytes (fs w'') "out.txt" = None.
Proof.
  exists (after (save_stopped 0 "build" build build_fingerprint "built"
                   (world built_tree)) start).
  exists (CacheRow 0 "build" build_fingerprint "built").
  split; [by vm_compute|]. split; [by vm_compute|].
  split; [by vm_compute|]. split; [by vm_compute|].
  exists (after (runTask 1 scripts "build"
                   (set_fs tree
                      (after (save_stopped 0 "build" build build_fingerprint "built"
                                (world built_tree)) start))) start).
  split; [by vm_compute|]. split; [by vm_compute|]. split; by vm_compute.
Qed.

Lemma record_precedes_snapshots_witness :
  (∃ w', save "build" build build_fingerprint "built" (world built_tree) = Done w'
         ∧ ∃ row, select_cache "build" build_fingerprint w' = Some row
                  ∧ select_outputs (id row) w'
                    = by_path (saved_rows (next_uuid (world built_tree)) build
                                 (fs (world built_tree))))
  ∧ (∀ n, ∃ w', save_stopped n "build" build build_fingerprint "built"
                  (world built_tree) = Done w'
         ∧ ∃ row, select_cache "build" build_fingerprint w' = Some row
                  ∧ select_outputs (id row) w'
                    = by_path (take n (saved_rows (next_uuid (world built_tree))
                                         build (fs (world built_tree))))).
Proof.
  apply (record_precedes_snapshots "build" build build_fingerprint "built"
           (world built_tree)).
  - apply store_inv_initial.
  - by vm_compute.
Defined.

Lemma restore_twice_witness :
  ∃ w2, restoreFromCache 0
          (after (restoreFromCache 0
                    (set_fs tree (after (runTask 1 scripts "build" start) start)))
                 start) = Done w2
        ∧ fs w2 = fs (after (restoreFromCache 0
                    (set_fs tree (after (runTask 1 scripts "build" start) start)))
                 start)
        ∧ ∃ es, trace w2
                = trace (after (restoreFromCache 0
                    (set_fs tree (after (runTask 1 scripts "build" start) start)))
                 start) ++ es
                ∧ written es = [].
Proof.
  apply (restore_twice 0
           (set_fs tree (after (runTask 1 scripts "build" start) start))).
  - apply store_inv_set_fs.
    apply (runTask_store_inv 1 scripts "build" start); [apply store_inv_initial|].
    by vm_compute.
  - by vm_compute.
Defined.

(** C5 fails for a write: [blocked] is a directory, the write of its
    snapshot, the first in the order of the paths, throws with no warning
    logged, and neither the absence entry of [gone.txt] nor the snapshot
    of [out.txt] that follow is gone through; where nothing blocks, the
    same record restores [out.txt]. *)
Lemma failed_write_aborts_restore :
  ∃ w', restoreFromCache 0 blocked_world = Throw (WriteError "blocked") w'
        ∧ select_outputs 0 blocked_world
          = [OutputRow 0 "blocked" (Some "b") (Some [x62]);
             OutputRow 0 "gone.txt" None None;
             OutputRow 0 "out.txt" (Some "o") (Some [x6f])]
        ∧ trace w' = [Restoring 0; RestoringFiles 3; Writing "blocked"]
        ∧ read_bytes (fs w') "out.txt" = None
        ∧ ∃ w'', restoreFromCache 0 unblocked_world = Done w''
                 ∧ read_bytes (fs w'') "out.txt" = Some [x6f].
Proof.
  exists (after (restoreFromCache 0 blocked_world) start).
  split; [by vm_compute|]. split; [by vm_compute|]. split; [by vm_compute|].
  split; [by vm_compute|].
  exists (after (restoreFromCache 0 unblocked_world) start).
  split; by vm_compute.
Qed.

Lemma restore_failures_witness :
  for_each restore_row restore_rows blocked_world
  = for_each restore_row (tail restore_rows)
      (log [Clearing "gone.txt"; WarnDelete "gone.txt"] blocked_world)
  ∧ for_each restore_row (tail restore_rows) blocked_world
    = Throw (WriteError "blocked") (log [Writing "blocked"] blocked_world).
Proof.
  split.
  - apply (proj1 (restore_failures (OutputRow 0 "gone.txt" None None)
                    (tail restore_rows) blocked_world)); by vm_compute.
  - apply (proj2 (restore_failures (OutputRow 0 "blocked" (Some "b") (Some [x62]))
                    (tail (tail restore_rows)) blocked_world) "b" [x62]);
      by vm_compute.
Defined.



Lemma unknown_task_aborts_witness :
  (∀ depth w, runTask (S depth) scripts "missing" w = Throw (TypeError "missing") w)
  ∧ (∀ depth rest w, "missing" ≠ "reset" →
       main depth scripts ("missing" :: rest) w
       = Exit 1 (log [NotFound "missing"; Usage] (log [Loading] w)))
  ∧ (∀ depth parent task w w',
       scripts !! parent = Some task →
       "missing" ∈ default [] (depends_on task) →
       runTask depth scripts parent w ≠ Done w')
  ∧ (∀ depth parent task earlier later w w1,
       scripts !! parent = Some task →
       default [] (depends_on task) = earlier ++ "missing" :: later →
       for_each (runTask (S depth) scripts) earlier w = Done w1 →
       runTask (S (S depth)) scripts parent w = Throw (TypeError "missing") w1).
Proof.
  apply (unknown_task_aborts scripts "missing"); [by vm_compute|].
  apply (bool_decide_unpack _). by vm_compute.
Defined.

Lemma uncached_task_leaves_store_witness :
  (∀ w f' out,
     select_cache "dev" (hashInputs dev (fs w)).1 w = None →
     shell (command dev) (fs w) = (f', Some out) →
     ∃ w', run_own "dev" dev w = Done w'
           ∧ fs w' = f'
           ∧ task_cache w' = task_cache w
           ∧ task_output w' = task_output w
           ∧ ∃ es, trace w' = trace w ++ es ∧ executed es = [command dev])
  ∧ (∀ depth root w w',
       world_of (runTask depth scripts root w) = Some w' →
       ∀ fp, select_cache "dev" fp w' = select_cache "dev" fp w).
Proof.
  apply (uncached_task_leaves_store scripts "dev" dev); by vm_compute.
Defined.

(** C9 fails where the comparator takes two paths for equal, as
    [localeCompare] does for two spellings of one text: the sort, which
    is stable, leaves the two entries in the order in which the loops met
    them, and the same command with the same two files, listed in the
    other order, has another fingerprint. *)
Lemma fingerprint_depends_on_order_at_ties :
  composed_name ≠ combining_name
  ∧ @localeCompare accents_platform composed_name combining_name = 0%Z
  ∧ command accents' = command accents
  ∧ default [] (inputs accents') ≡ₚ default [] (inputs accents)
  ∧ (@hashInputs accents_platform accents accents_tree).1
    = JSON_stringify "cat" [(composed_name, "1"); (combining_name, "2")]
  ∧ (@hashInputs accents_platform accents' accents_tree).1
    = JSON_stringify "cat" [(combining_name, "2"); (composed_name, "1")]
  ∧ (@hashInputs accents_platform accents' accents_tree).1
    ≠ (@hashInputs accents_platform accents accents_tree).1.
Proof.
  split; [done|]. split; [by vm_compute|]. split; [done|].
  split; [apply perm_swap|]. split; [by vm_compute|]. split; by vm_compute.
Qed.

Lemma fingerprint_independent_of_order_witness :
  (@hashInputs (with_scan scan_backwards platform) docs' tree).1
  = (hashInputs docs tree).1.
Proof.
  apply (fingerprint_independent_of_order scan_backwards docs docs' tree).
  - by vm_compute.
  - apply (bool_decide_unpack _). by vm_compute.
  - intros pat _. apply reverse_Permutation.
  - apply (bool_decide_unpack _). by vm_compute.
Defined.



End Examples.

(** * Further properties of the script *)

(** ** The dependency graph *)

Lemma for_each_Done_elem {A} (body : A → World → result) l x w w' :
  for_each body l w = Done w' → x ∈ l → ∃ v v', body x v = Done v'.
Proof.
  revert w. induction l as [|y l IH]; intros w H Hx.
  - by apply elem_of_nil in Hx.
  - simpl in H. apply bind_Done in H as (w1 & Hy & H).
    apply elem_of_cons in Hx as [->|Hx]; [by eauto|by eapply IH].
Qed.

Lemma for_each_Throw {A} (body : A → World → result) l w e w' :
  for_each body l w = Throw e w' →
  ∃ l1 x l2 v, l = l1 ++ x :: l2 ∧ for_each body l1 w = Done v
               ∧ body x v = Throw e w'.
Proof.
  revert w. induction l as [|y l IH]; intros w H; simpl in H; [discriminate|].
  destruct (body y w) as [w1| |] eqn:Hy; simpl in H; [|injection H as -> ->|discriminate].
  - apply IH in H as (l1 & x & l2 & v & -> & H1 & Hx).
    exists (y :: l1), x, l2, v. simpl. by rewrite Hy.
  - by exists [], y, l, w.
Qed.

Lemma for_each_ext_stops {A} (body body' : A → World → result) l w :
  (∀ x v, body x v ≠ Diverge → body' x v = body x v) →
  for_each body l w ≠ Diverge → for_each body' l w = for_each body l w.
Proof.
  intros Hext. revert w. induction l as [|y l IH]; intros w H; simpl in *; [done|].
  destruct (body y w) as [w1|e w1|] eqn:Hy; simpl in *; [| |done].
  - rewrite Hext, Hy by by rewrite Hy. simpl. by apply IH.
  - rewrite Hext, Hy by by rewrite Hy. done.
Qed.

Lemma for_each_stops_in {A} (body : A → World → result) l :
  (∀ x w, x ∈ l → body x w ≠ Diverge) → ∀ w, for_each body l w ≠ Diverge.
Proof.
  induction l as [|y l IH]; intros Hbody w; simpl; [done|].
  destruct (body y w) as [w1|e w1|] eqn:Hy; simpl; [|done|].
  - apply IH. intros x v Hx. apply Hbody. by right.
  - exfalso. eapply Hbody; [|exact Hy]. by left.
Qed.

Section Graph.

Context {P : Platform}.

Lemma Done_along scripts a b :
  tc (depends scripts) a b →
  ∀ depth w w', runTask depth scripts a w = Done w' →
    ∃ depth' v v', (depth' < depth)%nat ∧ runTask depth' scripts b v = Done v'.
Proof.
  induction 1 as [a b (task & Ha & Hb)|a c b (task & Ha & Hc) _ IH];
    intros depth w w' H.
  - destruct depth as [|depth]; [discriminate|].
    rewrite runTask_unfold, Ha in H. apply bind_Done in H as (w1 & Hdeps & _).
    destruct (for_each_Done_elem _ _ b _ _ Hdeps Hb) as (v & v' & Hv).
    exists depth, v, v'. split; [lia|done].
  - destruct depth as [|depth]; [discriminate|].
    rewrite runTask_unfold, Ha in H. apply bind_Done in H as (w1 & Hdeps & _).
    destruct (for_each_Done_elem _ _ c _ _ Hdeps Hc) as (v & v' & Hv).
    apply IH in Hv as (depth' & u & u' & Hlt & Hu).
    exists depth', u, u'. split; [lia|done].
Qed.

Lemma cycle_never_Done scripts name :
  tc (depends scripts) name name →
  ∀ depth w w', runTask depth scripts name w ≠ Done w'.
Proof.
  intros Hcycle depth. induction (lt_wf depth) as [depth _ IH]. intros w w' H.
  destruct (Done_along _ _ _ Hcycle _ _ _ H) as (depth' & v & v' & Hlt & Hv).
  by eapply IH.
Qed.

(** X1: a task that lies on a cycle of [depends_on], and every task that
    reaches one, never returns: [runTask] keeps no list of the tasks it is
    in, so the recursion of lines 124-128 goes round the cycle. *)
Theorem cyclic_dependency_never_returns scripts root name :
  rtc (depends scripts) root name →
  tc (depends scripts) name name →
  ∀ depth w w', runTask depth scripts root w ≠ Done w'.
Proof.
  intros Hreach Hcycle depth w w' H.
  apply rtc_tc in Hreach as [->|Hreach]; [by eapply cycle_never_Done|].
  destruct (Done_along _ _ _ Hreach _ _ _ H) as (depth' & v & v' & _ & Hv).
  by eapply cycle_never_Done.
Qed.

Lemma run_own_stops name task w : run_own name task w ≠ Diverge.
Proof.
  unfold run_own. destruct (hashInputs task (fs w)) as [fp warnings].
  destruct (select_cache _ _ _) as [row|].
  - pose proof (restoreFromCache_stops (id row)
                  (log [CacheHit name] (log warnings w))) as [v Hv].
    destruct (restoreFromCache _ _); simpl in *; done.
  - destruct (shell _ _) as [f' [out|]]; [|done].
    destruct (default true (cache task)); [|done].
    match goal with |- ?s >>= _ ≠ _ => destruct s eqn:Hs end; simpl; try done.
    exfalso. revert Hs. unfold save, randomUUIDv7. simpl.
    destruct (insert_cache _ _); simpl; [|done].
    destruct (prepareOutputs _ _) as [captured ws].
    apply for_each_stops_in. intros r v _. unfold insert_output_row.
    by destruct (insert_output r v).
Qed.

Lemma runTask_deeper depth scripts name w :
  runTask depth scripts name w ≠ Diverge →
  runTask (S depth) scripts name w = runTask depth scripts name w.
Proof.
  revert name w. induction depth as [|depth IH]; intros name w H; [done|].
  rewrite (runTask_unfold (S depth)). rewrite runTask_unfold in H |- *.
  destruct (scripts !! name) as [task|]; [|done].
  rewrite (for_each_ext_stops (runTask depth scripts) (runTask (S depth) scripts));
    [done|by intros; apply IH|].
  intros Hd. by rewrite Hd in H.
Qed.

Lemma runTask_deeper_le (depth depth' : nat) scripts name w :
  (depth ≤ depth')%nat → runTask depth scripts name w ≠ Diverge →
  runTask depth' scripts name w = runTask depth scripts name w.
Proof.
  induction 1 as [|depth' _ IH]; intros H; [done|].
  rewrite runTask_deeper; [by apply IH|]. by rewrite IH.
Qed.

Lemma ranked_stops scripts (rank : string → nat) :
  (∀ a b, depends scripts a b → (rank b < rank a)%nat) →
  ∀ depth name w, (rank name < depth)%nat → runTask depth scripts name w ≠ Diverge.
Proof.
  intros Hrank. induction depth as [|depth IH]; intros name w Hlt; [lia|].
  rewrite runTask_unfold. destruct (scripts !! name) as [task|] eqn:Hname; [|done].
  match goal with |- ?s >>= _ ≠ _ => destruct s eqn:Hs end; simpl.
  - apply run_own_stops.
  - done.
  - exfalso. revert Hs. apply for_each_stops_in. intros d v Hd. apply IH.
    assert (rank d < rank name)%nat; [|lia]. apply Hrank. by exists task.
Qed.

(** X2: when the tasks can be numbered so that every dependency has a
    smaller number than its dependent (the graph has no cycle), every run
    stops, returning or throwing, the commands and the runtime services
    being functions that return; and what it does is the same at every
    depth above the number of the requested task. *)
Theorem acyclic_run_stops scripts (rank : string → nat) :
  (∀ a b, depends scripts a b → (rank b < rank a)%nat) →
  ∀ name w,
    is_Some (world_of (runTask (S (rank name)) scripts name w))
    ∧ ∀ depth, (rank name < depth)%nat →
        runTask depth scripts name w = runTask (S (rank name)) scripts name w.
Proof.
  intros Hrank name w.
  pose proof (ranked_stops _ _ Hrank (S (rank name)) name w) as Hstop.
  split.
  - destruct (runTask _ _ _ _); simpl; eauto. exfalso. apply Hstop; [lia|done].
  - intros depth Hlt. apply runTask_deeper_le; [lia|]. apply Hstop. lia.
Qed.

End Graph.

Lemma ranked_graph scripts (rank : string → nat) :
  map_Forall (λ a task, Forall (λ b, (rank b < rank a)%nat)
                               (default [] (depends_on task))) scripts →
  ∀ a b, depends scripts a b → (rank b < rank a)%nat.
Proof.
  intros H a b (task & Ha & Hb). apply H in Ha.
  eapply Forall_forall in Ha; [exact Ha|done].
Qed.

(** ** Reaching tasks through the graph *)

Section Reach.

Context {P : Platform}.

Lemma runTask_reach (Q : World → World → Prop) scripts root :
  (∀ w, Q w w) →
  (∀ w1 w2 w3, Q w1 w2 → Q w2 w3 → Q w1 w3) →
  (∀ name task w w',
     rtc (depends scripts) root name → scripts !! name = Some task →
     world_of (run_own name task w) = Some w' → Q w w') →
  ∀ depth name w w',
    rtc (depends scripts) root name →
    world_of (runTask depth scripts name w) = Some w' → Q w w'.
Proof.
  intros Hrefl Htrans Hown. induction depth as [|depth IH]; intros name w w' Hreach H.
  - discriminate.
  - rewrite runTask_unfold in H.
    destruct (scripts !! name) as [task|] eqn:Hname;
      [|injection H as <-; apply Hrefl].
    assert (Hdeps : ∀ v, world_of (for_each (runTask depth scripts)
                            (default [] (depends_on task)) w) = Some v → Q w v).
    { intros v. apply (for_each_world (Q w) (runTask depth scripts)
               (default [] (depends_on task))) with (w := w); [|apply Hrefl].
      intros d u u' Hd Hu Hrun. apply Htrans with u; [done|].
      eapply IH; [|done]. eapply rtc_r; [done|]. by exists task. }
    apply bind_world in H as [(w1 & H1 & H)|(e & H1)].
    + apply Htrans with w1; [apply Hdeps; by rewrite H1|by eapply Hown].
    + apply Hdeps. by rewrite H1.
Qed.

Lemma runTask_extends depth scripts name w w' :
  world_of (runTask depth scripts name w) = Some w' →
  ∃ es, trace w' = trace w ++ es.
Proof.
  apply (runTask_world (λ v v', ∃ es, trace v' = trace v ++ es) scripts).
  - intros v. exists []. by rewrite app_nil_r.
  - intros v1 v2 v3 (es1 & E1) (es2 & E2). exists (es1 ++ es2).
    by rewrite E2, E1, app_assoc.
  - intros n task v v' _ Hown. apply run_own_world in Hown as (_ & es & E & _).
    by exists es.
Qed.

Lemma dependencies_extend depth scripts deps w w' :
  world_of (for_each (runTask depth scripts) deps w) = Some w' →
  ∃ es, trace w' = trace w ++ es.
Proof.
  apply (for_each_world (λ v, ∃ es, trace v = trace w ++ es)).
  - intros d v v' _ (es1 & E1) Hd. apply runTask_extends in Hd as (es2 & E2).
    exists (es1 ++ es2). by rewrite E2, E1, app_assoc.
  - exists []. by rewrite app_nil_r.
Qed.

Lemma dependencies_store_inv depth scripts deps w w' :
  store_inv w →
  world_of (for_each (runTask depth scripts) deps w) = Some w' → store_inv w'.
Proof.
  intros Hinv. apply (for_each_world store_inv); [|done].
  intros d v v' _ Hv Hd. by eapply runTask_store_inv.
Qed.

(** *** What a run executes *)

Lemma run_own_executed name task w w' :
  world_of (run_own name task w) = Some w' →
  ∃ es, trace w' = trace w ++ es
        ∧ executed es = match select_cache name (hashInputs task (fs w)).1 w with
                        | Some _ => []
                        | None => [command task]
                        end.
Proof.
  unfold run_own.
  pose proof (hashInputs_warn task (fs w)) as Hwarn.
  destruct (hashInputs task (fs w)) as [fp warnings]. simpl in Hwarn. simpl.
  replace (select_cache name fp (log warnings w)) with (select_cache name fp w)
    by done.
  destruct (select_cache name fp w) as [row|].
  - by apply hit_executes_nothing.
  - assert (Hstart : executed (warnings ++ [Starting name; Echo (command task);
                                           Shell (command task)]) = [command task])
      by by rewrite executed_app, (warnings_executed _ Hwarn).
    destruct (shell (command task) _) as [f' [out|]]; simpl.
    + destruct (default true (cache task)).
      * intros H.
        assert (∃ v tail, world_of (save name task fp out
                  (set_fs f' (log [Starting name; Echo (command task);
                                   Shell (command task)] (log warnings w)))) = Some v
                  ∧ trace w' = trace v ++ tail ∧ executed tail = [])
          as (v & tail & Hv & E & Htail).
        { apply bind_world in H as [(w1 & H1 & H)|(e & H1)].
          - simpl in H. injection H as <-. exists w1, [Finished name].
            by rewrite H1.
          - exists w', []. by rewrite H1, app_nil_r. }
        apply save_world in Hv as (_ & (es & E' & Hes) & _). simpl in E'.
        exists ((warnings ++ [Starting name; Echo (command task);
                              Shell (command task)]) ++ es ++ tail).
        split; [rewrite E, E'; by rewrite <- !app_assoc|].
        by rewrite executed_app, Hstart, executed_app, (warnings_executed _ Hes), Htail.
      * simpl. intros [= <-]. simpl.
        exists ((warnings ++ [Starting name; Echo (command task);
                              Shell (command task)]) ++ [Finished name]).
        split; [by rewrite <- !app_assoc|]. by rewrite executed_app, Hstart.
    + intros [= <-]. simpl.
      exists (warnings ++ [Starting name; Echo (command task); Shell (command task)]).
      split; [by rewrite <- !app_assoc|done].
Qed.

(** X3: a run executes no command but those of the tasks the requested task
    reaches in the graph: what the cache holds (the stored stdout, the
    stored files) is printed or written back, never run. *)
Theorem only_graph_commands_run scripts depth root w w' :
  world_of (runTask depth scripts root w) = Some w' →
  ∃ es, trace w' = trace w ++ es
        ∧ ∀ c, c ∈ executed es →
            ∃ n task, rtc (depends scripts) root n ∧ scripts !! n = Some task
                      ∧ command task = c.
Proof.
  apply (runTask_reach
           (extends (λ es, ∀ c, c ∈ executed es →
              ∃ n task, rtc (depends scripts) root n ∧ scripts !! n = Some task
                        ∧ command task = c)) scripts root); [| | |done].
  - intros v. apply extends_refl. intros c Hc. by apply elem_of_nil in Hc.
  - intros v1 v2 v3. apply extends_trans. intros es1 es2 H1 H2 c.
    rewrite executed_app, elem_of_app. intros [Hc|Hc]; eauto.
  - intros n task v v' Hreach Hn Hown.
    apply run_own_executed in Hown as (es & E & Hes). exists es. split; [done|].
    intros c. rewrite Hes. destruct (select_cache _ _ _).
    + intros Hc. by apply elem_of_nil in Hc.
    + intros ->%list_elem_of_singleton. eauto.
Qed.

(** *** Where an error comes from *)

Lemma restore_rows_Throw rows w e w' :
  for_each restore_row rows w = Throw e w' →
  ∃ p es, e = WriteError p ∧ trace w' = trace w ++ es ++ [Writing p].
Proof.
  intros H. apply for_each_Throw in H as (l1 & r & l2 & v & -> & H1 & Hr).
  assert (Hv : world_of (for_each restore_row l1 w) = Some v) by by rewrite H1.
  apply restore_rows_world in Hv as (_ & es & E & _).
  unfold restore_row in Hr.
  destruct (hash r), (content r);
    try (destruct (unlink _ _); discriminate).
  case_decide; [discriminate|].
  destruct (write_file _ _ _); [discriminate|]. injection Hr as <- <-.
  exists (path r), es. split; [done|]. simpl. by rewrite E, app_assoc.
Qed.

Lemma save_Throw name task fp out w e w' :
  save name task fp out w = Throw e w' → e = SqliteError ∧ ¬ store_inv w.
Proof.
  intros H. split.
  - revert H. unfold save, randomUUIDv7. simpl.
    destruct (insert_cache _ _); simpl; [|by intros [= <- _]].
    destruct (prepareOutputs _ _) as [captured ws].
    intros H. apply for_each_Throw in H as (l1 & r & l2 & v & _ & _ & Hr).
    unfold insert_output_row in Hr. destruct (insert_output r v); [discriminate|].
    by injection Hr as <- _.
  - intros Hinv. by rewrite save_done in H.
Qed.

Lemma run_own_Throw scripts name task w e w' :
  scripts !! name = Some task →
  run_own name task w = Throw e w' → thrown_by scripts name e w w'.
Proof.
  intros Hname. unfold run_own.
  destruct (hashInputs task (fs w)) as [fp warnings].
  destruct (select_cache _ _ _) as [row|].
  - intros H.
    destruct (restoreFromCache _ _) as [v|e' v|] eqn:Hr; simpl in H; try discriminate.
    injection H as -> ->. unfold restoreFromCache in Hr.
    apply restore_rows_Throw in Hr as (p & es & -> & E). simpl in *.
    exists (warnings ++ [CacheHit name] ++ [Restoring (id row)]
            ++ [RestoringFiles (length (select_outputs (id row)
                 (log [Restoring (id row)] (log [CacheHit name] (log warnings w)))))]
            ++ es).
    rewrite E. by rewrite <- !app_assoc.
  - destruct (shell _ _) as [f' [out|]].
    + destruct (default true (cache task)); [|discriminate].
      intros H.
      match type of H with ?s >>= _ = _ => destruct s as [v|e' v|] eqn:Hs end;
        simpl in H; try discriminate.
      injection H as -> ->. apply save_Throw in Hs as [-> Hinv]. simpl.
      intros Hw. apply Hinv. revert Hw. apply store_inv_same_store. by repeat split.
    + intros [= <- <-]. simpl. exists name, task, warnings.
      repeat split; [done|done|]. by rewrite <- app_assoc.
Qed.



(** *** A task the store holds nothing for *)

Lemma new_records_reach scripts root depth name w w' :
  rtc (depends scripts) root name →
  world_of (runTask depth scripts name w) = Some w' →
  ∀ r, r ∈ task_cache w' →
       r ∈ task_cache w ∨ rtc (depends scripts) root (task_name r).
Proof.
  apply (runTask_reach
           (λ v v', ∀ r, r ∈ task_cache v' →
              r ∈ task_cache v ∨ rtc (depends scripts) root (task_name r))
           scripts root).
  - auto.
  - intros v1 v2 v3 H1 H2 r Hr. apply H2 in Hr as [Hr|Hr]; auto.
  - intros n task v v' Hreach Hn Hown r Hr.
    apply run_own_store in Hown as [[Hc _]|(_ & _ & out & k & Hc & _)].
    + left. by rewrite <- Hc.
    + rewrite Hc in Hr. apply elem_of_app in Hr as [Hr|Hr]; [by left|].
      apply list_elem_of_singleton in Hr as ->. by right.
Qed.

Lemma find_none_all {A} (p : A → bool) l :
  (∀ x, x ∈ l → p x = false) → List.find p l = None.
Proof.
  induction l as [|y l IH]; intros H; simpl; [done|].
  rewrite (H y) by by left. apply IH. intros x Hx. apply H. by right.
Qed.

Lemma unrecorded_own_miss scripts depth name task w w1 w' :
  scripts !! name = Some task →
  (∀ r, r ∈ task_cache w → task_name r ≠ name) →
  for_each (runTask depth scripts) (default [] (depends_on task)) w = Done w1 →
  run_own name task w1 = Done w' →
  ∀ fp, select_cache name fp w1 = None.
Proof.
  intros Hname Hnone Hdeps Hown fp.
  assert (Hrun : runTask (S depth) scripts name w = Done w')
    by by rewrite runTask_unfold, Hname, Hdeps.
  assert (Hnew : ∀ r, r ∈ task_cache w1 →
            r ∈ task_cache w ∨ tc (depends scripts) name (task_name r)).
  { apply (for_each_world
             (λ v, ∀ r, r ∈ task_cache v →
                r ∈ task_cache w ∨ tc (depends scripts) name (task_name r))
             (runTask depth scripts) (default [] (depends_on task))) with (w := w);
      [|by left|by rewrite Hdeps].
    intros d v v' Hd Hv Hrun' r Hr.
    destruct (new_records_reach scripts d depth d v v' (rtc_refl _ _) Hrun' r Hr)
      as [Hr'|Hr'].
    - by apply Hv.
    - right. eapply tc_rtc_r; [|exact Hr']. apply tc_once. by exists task. }
  apply find_none_all. intros r Hr. apply bool_decide_eq_false. intros [Hr' _].
  apply Hnew in Hr as [Hr|Hr].
  - by apply Hnone in Hr.
  - rewrite Hr' in Hr. by apply (cycle_never_Done _ _ Hr) in Hrun.
Qed.

Lemma miss_executes_last scripts depth name task w w1 w' :
  for_each (runTask depth scripts) (default [] (depends_on task)) w = Done w1 →
  run_own name task w1 = Done w' →
  select_cache name (hashInputs task (fs w1)).1 w1 = None →
  ∃ es, trace w' = trace w ++ es ∧ last (executed es) = Some (command task).
Proof.
  intros Hdeps Hown Hmiss.
  assert (H1 : world_of (for_each (runTask depth scripts)
                 (default [] (depends_on task)) w) = Some w1) by by rewrite Hdeps.
  apply dependencies_extend in H1 as (es1 & E1).
  assert (H2 : world_of (run_own name task w1) = Some w') by by rewrite Hown.
  apply run_own_executed in H2 as (es2 & E2 & Hes2). rewrite Hmiss in Hes2.
  exists (es1 ++ es2). split; [by rewrite E2, E1, app_assoc|].
  by rewrite executed_app, Hes2, last_snoc.
Qed.

(** X5: a task the store holds no record of is executed: when its run
    returns, the last command run is its own. The runs of its dependencies
    cannot have left a record under its name, for it would then depend on
    itself and its run would not return. *)
Theorem unrecorded_task_is_executed scripts depth name task w w' :
  scripts !! name = Some task →
  (∀ r, r ∈ task_cache w → task_name r ≠ name) →
  runTask depth scripts name w = Done w' →
  ∃ es, trace w' = trace w ++ es ∧ last (executed es) = Some (command task).
Proof.
  intros Hname Hnone H. destruct depth as [|depth]; [discriminate|].
  rewrite runTask_unfold, Hname in H. apply bind_Done in H as (w1 & Hdeps & Hown).
  eapply miss_executes_last; [done|done|].
  by eapply unrecorded_own_miss.
Qed.

(** X6: [reset] empties both tables whatever the graph holds, without
    loading it, and leaves the working tree alone; every lookup then
    misses, and the next run of any task that returns has executed the
    task's command. *)
Theorem reset_forces_execution scripts depth rest w :
  main depth scripts ("reset" :: rest) w = Exit 0 (resetDatabase w)
  ∧ fs (resetDatabase w) = fs w
  ∧ trace (resetDatabase w) = trace w ++ [ResetDone]
  ∧ (∀ name fp, select_cache name fp (resetDatabase w) = None)
  ∧ (∀ i, select_outputs i (resetDatabase w) = [])
  ∧ ∀ depth' name task w',
      scripts !! name = Some task →
      runTask depth' scripts name (resetDatabase w) = Done w' →
      ∃ es, trace w' = trace (resetDatabase w) ++ es
            ∧ last (executed es) = Some (command task).
Proof.
  repeat split; try done.
  intros depth' name task w' Hname H. destruct depth' as [|depth']; [discriminate|].
  rewrite runTask_unfold, Hname in H. apply bind_Done in H as (w1 & Hdeps & Hown).
  eapply miss_executes_last; [done|done|].
  eapply unrecorded_own_miss; [done| |done|done].
  intros r Hr. by apply elem_of_nil in Hr.
Qed.

End Reach.

(** ** The store over a run *)

Section Store.

Context {P : Platform}.


Lemma find_none_elem {A} (p : A → bool) l x :
  List.find p l = None → x ∈ l → p x = false.
Proof.
  induction l as [|y l IH]; simpl; intros H Hx; [by apply elem_of_nil in Hx|].
  destruct (p y) eqn:Hy; [discriminate|].
  apply elem_of_cons in Hx as [->|Hx]; auto.
Qed.

Lemma find_unique {A B} `{EqDecision B} (key : A → B) (k : B) l x :
  NoDup (key <$> l) → x ∈ l → key x = k →
  List.find (λ y, bool_decide (key y = k)) l = Some x.
Proof.
  induction l as [|y l IH]; intros Hnd Hx Hk; [by apply elem_of_nil in Hx|].
  rewrite fmap_cons in Hnd. apply NoDup_cons in Hnd as [Hy Hnd]. simpl.
  case_bool_decide as Hyk.
  - apply elem_of_cons in Hx as [->|Hx]; [done|].
    exfalso. apply Hy. rewrite Hyk, <- Hk. apply list_elem_of_fmap. eauto.
  - apply elem_of_cons in Hx as [->|Hx]; [done|]. by apply IH.
Qed.

Lemma find_ext {A} (p q : A → bool) l :
  (∀ x, p x = q x) → List.find p l = List.find q l.
Proof.
  intros H. induction l as [|y l IH]; simpl; [done|]. by rewrite H, IH.
Qed.




Lemma run_own_one_record name task w w' :
  one_record w → world_of (run_own name task w) = Some w' → one_record w'.
Proof.
  unfold one_record. intros Hnd H.
  apply run_own_store in H as [[Hc _]|(_ & Hmiss & out & k & Hc & _)];
    rewrite Hc; [done|].
  rewrite fmap_app. apply NoDup_app. split; [done|]. split; [|apply NoDup_singleton].
  intros key Hkey ->%list_elem_of_singleton.
  apply list_elem_of_fmap in Hkey as (r & Hr & Hin).
  apply (find_none_elem _ _ r) in Hmiss; [|done].
  apply bool_decide_eq_false in Hmiss. apply Hmiss.
  unfold cache_key in Hr. simpl in Hr. by injection Hr as <- <-.
Qed.

(** X8: a record is written only after a lookup for its task and fingerprint
    has missed, so the store never holds two records that answer the same
    lookup: a run keeps this, wherever it stops, and the record a lookup
    returns is then the only candidate, not the first of several. *)
Theorem one_record_per_fingerprint scripts depth name w w' :
  one_record w →
  world_of (runTask depth scripts name w) = Some w' →
  one_record w'
  ∧ ∀ r, r ∈ task_cache w' → select_cache (task_name r) (row_inputs r) w' = Some r.
Proof.
  intros Hone H.
  assert (Hone' : one_record w').
  { revert Hone. revert H.
    apply (runTask_world (λ v v', one_record v → one_record v') scripts); [auto..|].
    intros n task v v' _ Hown Hv. by eapply run_own_one_record. }
  split; [done|]. intros r Hr. unfold select_cache.
  rewrite <- (find_unique cache_key (task_name r, row_inputs r) (task_cache w') r);
    [|done..].
  apply find_ext. intros y. apply bool_decide_ext. unfold cache_key.
  split; [by intros [-> ->]|by intros [= -> ->]].
Qed.


(** X9: every snapshot belongs to a record of the store. The schema declares
    it as a foreign key; the code keeps it by writing the record before its
    snapshots and by emptying both tables together: a run keeps it wherever
    it stops, and it holds after a reset. *)
Theorem snapshots_belong_to_records scripts depth name w w' :
  referenced w →
  world_of (runTask depth scripts name w) = Some w' →
  referenced w' ∧ referenced (resetDatabase w').
Proof.
  intros Href H. split; [|intros r Hr; by apply elem_of_nil in Hr].
  revert Href. revert H.
  apply (runTask_world (λ v v', referenced v → referenced v') scripts); [auto..|].
  intros n task v v' _ Hown Hv r Hr.
  apply run_own_store in Hown as [[Hc Ho]|(_ & _ & out & k & Hc & Ho)].
  - rewrite Hc. apply Hv. by rewrite <- Ho.
  - rewrite Hc, fmap_app. rewrite Ho in Hr. apply elem_of_app.
    apply elem_of_app in Hr as [Hr|Hr]; [left; by apply Hv|right].
    apply subseteq_take, list_elem_of_fmap in Hr as (e & -> & _). simpl.
    by left.
Qed.

Lemma runTask_no_SqliteError scripts depth name w w' :
  store_inv w → runTask depth scripts name w ≠ Throw SqliteError w'.
Proof.
  revert name w. induction depth as [|depth IH]; intros name w Hinv H;
    [discriminate|].
  rewrite runTask_unfold in H.
  destruct (scripts !! name) as [task|] eqn:Hname; [|discriminate].
  destruct (for_each _ _ _) as [w1|e1 w1|] eqn:Hdeps; simpl in H; [| |discriminate].
  - apply run_own_Throw with (scripts := scripts) in H; [|done]. apply H.
    apply (dependencies_store_inv depth scripts (default [] (depends_on task)) w);
      [done|by rewrite Hdeps].
  - injection H as -> ->.
    apply for_each_Throw in Hdeps as (l1 & d & l2 & v & _ & H1 & Hd).
    revert Hd. apply IH.
    apply (dependencies_store_inv depth scripts l1 w); [done|by rewrite H1].
Qed.

(** X10: the whole script keeps the invariant of the store. Whatever the
    arguments, the store the process leaves satisfies it, whether the
    process exits or dies of an uncaught error; and the uncaught error is
    never a constraint violation: the identifiers are fresh and a record
    has one snapshot per path, so no insertion is rejected. *)
Theorem main_keeps_store_inv scripts depth args w :
  store_inv w →
  match main depth scripts args w with
  | Exit _ w' => store_inv w'
  | Uncaught e w' => store_inv w' ∧ e ≠ SqliteError
  | Hang => True
  end.
Proof.
  intros Hinv. unfold main. destruct args as [|script_name rest].
  - revert Hinv. apply store_inv_same_store. by repeat split.
  - case_decide; [apply store_inv_reset|].
    destruct (scripts !! script_name) as [task|].
    + assert (Hinv0 : store_inv (log [Loading] w)).
      { revert Hinv. apply store_inv_same_store. by repeat split. }
      destruct (runTask _ _ _ _) as [w1|e w1|] eqn:Hrun; [| |done].
      * assert (Hinv1 : store_inv w1)
          by (eapply runTask_store_inv; [exact Hinv0|by rewrite Hrun]).
        destruct (shell dump_command _) as [f' [out|]].
        -- revert Hinv1. apply store_inv_same_store. by repeat split.
        -- split; [|done]. revert Hinv1. apply store_inv_same_store.
           by repeat split.
      * split; [eapply runTask_store_inv; [exact Hinv0|by rewrite Hrun]|].
        intros ->. by apply runTask_no_SqliteError in Hrun.
    + revert Hinv. apply store_inv_same_store. by repeat split.
Qed.

(** X11: a command that fails leaves no record. The own step of the task
    throws in the tree the command left, with both tables as they were and
    without announcing that the task finished; and the error goes up
    through every dependent: the dependencies listed after the failed task
    and the dependent's own step are not run. *)
Theorem failed_command_aborts_run scripts depth name task w f' :
  scripts !! name = Some task →
  select_cache name (hashInputs task (fs w)).1 w = None →
  shell (command task) (fs w) = (f', None) →
  ∃ w', run_own name task w = Throw (ShellError (command task)) w'
        ∧ fs w' = f' ∧ same_store w w'
        ∧ (∃ es, trace w' = trace w ++ es ∧ executed es = [command task]
                 ∧ Finished name ∉ es)
        ∧ ∀ parent ptask earlier later w0,
            scripts !! parent = Some ptask →
            default [] (depends_on ptask) = earlier ++ name :: later →
            for_each (runTask (S depth) scripts) earlier w0
            >>= run_dependencies depth scripts task = Done w →
            runTask (S (S depth)) scripts parent w0
            = Throw (ShellError (command task)) w'.
Proof.
  intros Hname Hmiss Hshell.
  assert (Hown : run_own name task w
            = Throw (ShellError (command task))
                (set_fs f' (log ((hashInputs task (fs w)).2
                   ++ [Starting name; Echo (command task); Shell (command task)]) w))).
  { unfold run_own. destruct (hashInputs task (fs w)) as [fp warnings]. simpl in *.
    replace (select_cache name fp (log warnings w)) with (@None cache_row).
    rewrite Hshell. by rewrite log_log. }
  eexists. split; [exact Hown|]. split; [done|]. split; [by repeat split|].
  split.
  - eexists. split; [done|].
    pose proof (hashInputs_warn task (fs w)) as Hwarn.
    split; [by rewrite executed_app, (warnings_executed _ Hwarn)|].
    intros Hin. apply elem_of_app in Hin as [Hin|Hin].
    + eapply Forall_forall in Hwarn; [|exact Hin]. done.
    + repeat (apply elem_of_cons in Hin as [Hin|Hin]; [discriminate|]).
      by apply elem_of_nil in Hin.
  - intros parent ptask earlier later w0 Hparent Hdeps Hearlier.
    apply bind_Done in Hearlier as (w1 & Hearlier & Hmine).
    assert (Hrun : runTask (S depth) scripts name w1
              = Throw (ShellError (command task))
                  (set_fs f' (log ((hashInputs task (fs w)).2
                     ++ [Starting name; Echo (command task); Shell (command task)]) w))).
    { rewrite (runTask_steps depth scripts name task w1 Hname), Hmine. exact Hown. }
    rewrite runTask_unfold, Hparent, Hdeps, for_each_app, Hearlier.
    cbn [bind for_each]. by rewrite Hrun.
Qed.


End Store.

(** ** Restoring *)

Section Restore.

Context {P : Platform}.


Lemma saved_rows_selected name task fp out w f' :
  store_inv w →
  select_outputs (next_uuid w)
    (set_fs f'
       {| fs := fs w;
          task_cache := task_cache w ++ [CacheRow (next_uuid w) name fp out];
          task_output := task_output w ++ saved_rows (next_uuid w) task (fs w);
          trace := trace w ++ (prepareOutputs task (fs w)).2;
          next_uuid := N.succ (next_uuid w) |})
  = by_path (saved_rows (next_uuid w) task (fs w)).
Proof.
  intros (_ & Hout & _). unfold select_outputs, rows_of. simpl. f_equal.
  rewrite List.filter_app.
  rewrite filter_task_id_none, filter_task_id_all; [done| |].
  - intros r Hr. by apply list_elem_of_fmap in Hr as (e & -> & _).
  - intros r Hr. apply Hout in Hr. lia.
Qed.

Lemma captured_row task f i p :
  p ∈ output_paths task f → p ≠ "__proto__" →
  OutputRow i p (sha256 <$> read_bytes f p) (read_bytes f p) ∈ saved_rows i task f.
Proof.
  intros Hp Hne. destruct (prepareOutputs_lookup task f) as [Hnd Hlook].
  specialize (Hlook p). rewrite decide_True in Hlook by done.
  apply elem_of_list_to_map in Hlook; [|done].
  unfold saved_rows. apply list_elem_of_fmap. by exists (p, read_bytes f p).
Qed.

(** X14: what a cache miss saved, a restoration brings back. After the save
    of a run in a store that satisfies the invariant, for a task none of
    whose output paths is [__proto__] or a file of the store, whatever the
    working tree has become, a restoration of the record that returns
    leaves at every captured output path a file with the digest it had
    when it was captured, and nothing readable where the read had failed;
    with a digest that tells contents apart, the very bytes. *)
Theorem restore_brings_outputs_back name task fp out w w1 f' w2 :
  store_inv w →
  Forall (λ p, p ∉ "__proto__" :: store_files) (output_paths task (fs w)) →
  save name task fp out w = Done w1 →
  restoreFromCache (next_uuid w) (set_fs f' w1) = Done w2 →
  ∀ p, p ∈ output_paths task (fs w) →
    sha256 <$> read_bytes (fs w2) p = sha256 <$> read_bytes (fs w) p
    ∧ ((∀ a b, sha256 a = sha256 b → a = b) →
       read_bytes (fs w2) p = read_bytes (fs w) p).
Proof.
  intros Hinv Hplain Hsave Hrestore p Hp.
  assert (Hne : p ≠ "__proto__").
  { intros ->. eapply Forall_forall in Hplain; [|exact Hp].
    apply Hplain. by left. }
  rewrite save_done in Hsave by done. injection Hsave as <-.
  match type of Hrestore with
  | restoreFromCache _ ?v = _ => remember v as v1 eqn:Hv1
  end.
  assert (Hinv1 : store_inv v1).
  { rewrite Hv1. eapply store_inv_same_store;
      [|by apply (store_inv_saved name task fp out w)]. by repeat split. }
  assert (Hsel : select_outputs (next_uuid w) (log [Restoring (next_uuid w)] v1)
                 = by_path (saved_rows (next_uuid w) task (fs w))).
  { rewrite Hv1. by apply saved_rows_selected. }
  unfold restoreFromCache in Hrestore.
  apply restore_rows_settle in Hrestore.
  - rewrite Hsel in Hrestore.
    eapply Forall_forall in Hrestore;
      [|apply elem_of_by_path; by apply captured_row].
    unfold settled, is_absence in Hrestore. simpl in Hrestore.
    assert (Hhash : sha256 <$> read_bytes (fs w2) p = sha256 <$> read_bytes (fs w) p).
    { destruct (read_bytes (fs w) p) as [c|]; simpl in *; [done|].
      revert Hrestore. unfold unlink, read_bytes.
      by destruct (fs w2 !! p) as [[]|]. }
    split; [done|]. intros Hinj.
    destruct (read_bytes (fs w2) p), (read_bytes (fs w) p); simpl in Hhash;
      try done. injection Hhash as Hh. f_equal. by apply Hinj.
  - by apply (select_outputs_paths (next_uuid w) (log [Restoring (next_uuid w)] v1)).
  - intros r.
    by apply (select_outputs_wf (next_uuid w) (log [Restoring (next_uuid w)] v1)).
Qed.

End Restore.

(** ** Fingerprints *)

Lemma fold_left_ext_in {A B} (g g' : A → B → A) l acc :
  (∀ a x, x ∈ l → g a x = g' a x) → fold_left g l acc = fold_left g' l acc.
Proof.
  revert acc. induction l as [|x l IH]; intros acc H; simpl; [done|].
  rewrite H by by left. apply IH. intros a y Hy. apply H. by right.
Qed.

Lemma obj_update_same {V} k (v : V) o :
  NoDup o.*1 → (k, v) ∈ o → obj_update k v o = o.
Proof.
  induction o as [|[k' v'] o IH]; intros Hnd Hin; [done|].
  rewrite fmap_cons in Hnd. apply NoDup_cons in Hnd as [Hk' Hnd]. simpl.
  apply elem_of_cons in Hin as [[= <- <-]|Hin].
  - by rewrite decide_True.
  - case_decide as Hk.
    + exfalso. apply Hk'. simpl. rewrite Hk. apply list_elem_of_fmap.
      by exists (k, v).
    + by rewrite IH.
Qed.

Lemma utf8_decode_well_formed n bs :
  (length bs ≤ n)%nat → well_formed bs = true → utf8_decode None bs = bs.
Proof.
  revert bs. induction n as [|n IH]; intros bs Hlen Hwf.
  - destruct bs; [done|simpl in Hlen; lia].
  - destruct bs as [|b r1]; [done|].
    cbn [well_formed] in Hwf. cbn [utf8_decode]. unfold lead.
    destruct (Byte.to_N b <=? 127)%N.
    { cbn [app]. rewrite (IH r1); [done|simpl in Hlen; lia|done]. }
    destruct r1 as [|c1 r2]; [discriminate|].
    destruct (in_range 194 223 b).
    { apply andb_true_iff in Hwf as [H1 Hwf]. cbn [app utf8_decode lower upper needed seen].
      rewrite H1. cbn [app]. rewrite (IH r2); [done|simpl in Hlen; lia|done]. }
    destruct r2 as [|c2 r3]; [discriminate|].
    destruct (Byte.to_N b =? 224)%N.
    { apply andb_true_iff in Hwf as [Hwf H3]. apply andb_true_iff in Hwf as [H1 H2].
      cbn [app utf8_decode lower upper needed seen].
      rewrite H1. cbn [utf8_decode lower upper needed seen]. rewrite H2.
      cbn [app]. rewrite (IH r3); [done|simpl in Hlen; lia|done]. }
    destruct (Byte.to_N b =? 237)%N.
    { apply andb_true_iff in Hwf as [Hwf H3]. apply andb_true_iff in Hwf as [H1 H2].
      cbn [app utf8_decode lower upper needed seen].
      rewrite H1. cbn [utf8_decode lower upper needed seen]. rewrite H2.
      cbn [app]. rewrite (IH r3); [done|simpl in Hlen; lia|done]. }
    destruct (in_range 225 239 b).
    { apply andb_true_iff in Hwf as [Hwf H3]. apply andb_true_iff in Hwf as [H1 H2].
      cbn [app utf8_decode lower upper needed seen].
      rewrite H1. cbn [utf8_decode lower upper needed seen]. rewrite H2.
      cbn [app]. rewrite (IH r3); [done|simpl in Hlen; lia|done]. }
    destruct r3 as [|c3 r4]; [discriminate|].
    assert (Hfour : ∀ lo hi,
      in_range lo hi c1 && in_range 128 191 c2 && in_range 128 191 c3
      && well_formed r4 = true →
      [] ++ utf8_decode (Some (Pending [b] 3 lo hi)) (c1 :: c2 :: c3 :: r4)
      = b :: c1 :: c2 :: c3 :: r4).
    { intros lo hi H. apply andb_true_iff in H as [H H4].
      apply andb_true_iff in H as [H H3]. apply andb_true_iff in H as [H1 H2].
      cbn [app utf8_decode lower upper needed seen].
      rewrite H1. cbn [utf8_decode lower upper needed seen]. rewrite H2.
      cbn [utf8_decode lower upper needed seen]. rewrite H3.
      cbn [app]. rewrite (IH r4); [done|simpl in Hlen; lia|done]. }
    destruct (Byte.to_N b =? 240)%N; [by apply Hfour|].
    destruct (Byte.to_N b =? 244)%N; [by apply Hfour|].
    destruct (in_range 241 243 b); [by apply Hfour|discriminate].
Qed.

Lemma text_utf8_well_formed bs :
  well_formed bs = true → strip_bom bs = bs → utf8 (text_utf8 bs) = bs.
Proof.
  intros Hwf Hbom. unfold utf8, text_utf8.
  rewrite Hbom, (utf8_decode_well_formed (length bs)) by done.
  apply list_byte_of_string_of_list_byte.
Qed.

Section Fingerprint.

Context {P : Platform}.

(** Well-formed UTF-8 does not begin with the bytes [ff] [fe]: it is read
    as UTF-8. *)
Lemma text_of_well_formed bs : well_formed bs = true → text bs = text_utf8 bs.
Proof.
  intros Hwf. destruct bs as [|b r1]; [done|].
  destruct (decide (b = xff)) as [->|Hb].
  - exfalso. by destruct r1 as [|c1 [|c2 [|c3 r4]]].
  - unfold text. by destruct b.
Qed.

Lemma text_well_formed bs :
  well_formed bs = true → strip_bom bs = bs → utf8 (text bs) = bs.
Proof.
  intros Hwf Hbom. rewrite text_of_well_formed by done.
  by apply text_utf8_well_formed.
Qed.

(** *** The warnings *)

Lemma hash_files_warnings f l acc :
  (fold_left (hash_file f) l acc).2
  = acc.2 ++ (WarnInput <$> filter (unreadable f) l).
Proof.
  revert acc. induction l as [|p l IH]; intros acc; simpl.
  - by rewrite app_nil_r.
  - rewrite IH, filter_cons. unfold hash_file, read_text.
    destruct (decide (unreadable f p)) as [Hp|Hp]; unfold unreadable in Hp.
    + rewrite Hp. simpl. by rewrite <- app_assoc.
    + destruct (read_bytes f p); [done|by destruct Hp].
Qed.

Lemma capture_files_warnings f l acc :
  (fold_left (capture_file f) l acc).2
  = acc.2 ++ (WarnOutput <$> filter (unreadable f) l).
Proof.
  revert acc. induction l as [|p l IH]; intros acc; simpl.
  - by rewrite app_nil_r.
  - rewrite IH, filter_cons. unfold capture_file.
    destruct (decide (unreadable f p)) as [Hp|Hp]; unfold unreadable in Hp.
    + rewrite Hp. simpl. by rewrite <- app_assoc.
    + destruct (read_bytes f p); [done|by destruct Hp].
Qed.

(** X15: the two reading loops warn once for every path they go through
    whose read fails, in the order they go through them, a path met twice
    being warned of twice, and print nothing else. *)
Theorem warnings_name_unreadable_paths task f :
  (hashInputs task f).2
  = WarnInput <$> filter (unreadable f) (input_paths (default [] (inputs task)) f)
  ∧ (prepareOutputs task f).2
    = WarnOutput <$> filter (unreadable f) (output_paths task f).
Proof.
  split.
  - unfold hashInputs.
    pose proof (collect_inputs_paths (default [] (inputs task)) f) as Hc.
    destruct (collect_inputs _ _) as [o ws]. simpl.
    assert (Hw : ws = (o, ws).2) by done. rewrite Hw, Hc.
    by rewrite hash_files_warnings.
  - unfold prepareOutputs, output_paths.
    rewrite (fold_left_bind (capture_file f) (λ pattern, resolve pattern f)).
    by rewrite capture_files_warnings.
Qed.

(** *** Files that are not inputs *)

Lemma hash_file_agree f1 f2 acc p :
  read_bytes f1 p = read_bytes f2 p → hash_file f1 acc p = hash_file f2 acc p.
Proof. unfold hash_file, read_text. by intros ->. Qed.

(** X16: the fingerprint looks at nothing but the input files. Two working
    trees in which the globs of [inputs] yield the same paths and every
    path gone through reads the same give the same fingerprint and the
    same warnings, whatever else differs between them (the outputs, for
    one). *)
Theorem fingerprint_reads_only_inputs task f1 f2 :
  (∀ pat, pat ∈ default [] (inputs task) → includes_star pat = true →
          scan pat f1 = scan pat f2) →
  (∀ p, p ∈ input_paths (default [] (inputs task)) f1 →
        read_bytes f1 p = read_bytes f2 p) →
  hashInputs task f1 = hashInputs task f2.
Proof.
  intros Hscan Hread.
  assert (Hpaths : input_paths (default [] (inputs task)) f1
                   = input_paths (default [] (inputs task)) f2).
  { clear Hread. unfold input_paths. revert Hscan.
    induction (default [] (inputs task)) as [|pat ps IH]; intros Hscan; [done|].
    rewrite !bind_cons. f_equal.
    - unfold resolve. destruct (includes_star pat) eqn:Hstar; [|done].
      apply Hscan; [by left|done].
    - apply IH. intros pat' Hpat'. apply Hscan. by right. }
  unfold hashInputs. rewrite !collect_inputs_paths, <- Hpaths.
  by rewrite (fold_left_ext_in (hash_file f1) (hash_file f2))
    by (intros; by apply hash_file_agree, Hread).
Qed.

(** *** Paths met again *)

Lemma hash_files_again f l0 l es :
  l ⊆ l0 →
  (fold_left (hash_file f) l ((fold_left (hash_file f) l0 ([], [])).1, es)).1
  = (fold_left (hash_file f) l0 ([], [])).1.
Proof.
  intros Hl.
  destruct (hash_files_lookup f l0 ([], [])) as [Hnd Hlook]; [constructor|].
  set (o := (fold_left (hash_file f) l0 ([], [])).1) in *.
  revert es. induction l as [|p l IH]; intros es; [done|]. simpl.
  assert (Hp : p ∈ l0) by (apply Hl; by left).
  assert (Hstep : ∃ es', hash_file f (o, es) p = (o, es')).
  { unfold hash_file. destruct (read_text f p) as [c|] eqn:Hc; simpl; [|by eexists].
    eexists. f_equal.
    assert (Hd : digest_of f p = Some (sha256 (utf8 c)))
      by (unfold digest_of; by rewrite Hc).
    unfold obj_assign. case_decide as Hproto; [done|].
    specialize (Hlook p). rewrite decide_True, Hd in Hlook by (by rewrite Hd).
    apply elem_of_list_to_map in Hlook; [|done].
    unfold obj_define, has_key. rewrite bool_decide_eq_true_2.
    - by apply obj_update_same.
    - apply list_elem_of_fmap. by exists (p, sha256 (utf8 c)). }
  destruct Hstep as (es' & ->). apply IH. intros q Hq. apply Hl. by right.
Qed.

(** X17: a path the loops have already gone through does not count again.
    Patterns added at the end of [inputs] that resolve to paths already
    resolved (a file listed twice, a glob that overlaps another) leave the
    fingerprint as it is, whatever the comparator: the digest is assigned
    to the property the object already has. *)
Theorem repeated_inputs_do_not_count task task' more f :
  command task' = command task →
  default [] (inputs task') = default [] (inputs task) ++ more →
  input_paths more f ⊆ input_paths (default [] (inputs task)) f →
  (hashInputs task' f).1 = (hashInputs task f).1.
Proof.
  intros Hcmd Hin Hmore. unfold hashInputs.
  rewrite Hin, Hcmd, !collect_inputs_paths. unfold input_paths at 1.
  rewrite bind_app, fold_left_app.
  fold (input_paths (default [] (inputs task)) f). fold (input_paths more f).
  pose proof (hash_files_again f (input_paths (default [] (inputs task)) f)
                (input_paths more f)
                (fold_left (hash_file f) (input_paths (default [] (inputs task)) f)
                   ([], [])).2 Hmore) as H.
  rewrite <- surjective_pairing in H.
  destruct (fold_left (hash_file f) (input_paths more f) _) as [o1 ws1].
  destruct (fold_left (hash_file f) (input_paths (default [] (inputs task)) f) _)
    as [o ws]. simpl in *. by rewrite H.
Qed.

(** *** Text and bytes *)

(** X18: for a file of well-formed UTF-8 text that does not begin with a
    byte order mark, the two ways the script hashes a file agree: the
    digest [hashInputs] records for it, computed from the text
    [Bun.file(p).text()] returns, is the digest of its bytes, the one
    [getMaybeFileHash] computes and the one stored with a snapshot. *)
Theorem text_file_one_digest f p bs acc taskId :
  read_bytes f p = Some bs →
  well_formed bs = true →
  strip_bom bs = bs →
  hash_file f acc p = (obj_assign p (sha256 bs) acc.1, acc.2)
  ∧ getMaybeFileHash (getMaybeFileBytes f p) = Some (sha256 bs)
  ∧ hash (output_row_of taskId (p, read_bytes f p)) = Some (sha256 bs).
Proof.
  intros Hread Hwf Hbom.
  unfold hash_file, read_text, getMaybeFileHash, getMaybeFileBytes.
  rewrite Hread. simpl. by rewrite text_well_formed.
Qed.

End Fingerprint.

Section More.

Context {P : Platform}.

Lemma hash_files_unreadable f l es :
  Forall (unreadable f) l → (fold_left (hash_file f) l ([], es)).1 = [].
Proof.
  intros H. revert es. induction H as [|p l Hp _ IH]; intros es; [done|]. simpl.
  unfold hash_file at 2, read_text. rewrite Hp. simpl. apply IH.
Qed.

(** X19: inputs that cannot be read count for nothing. When the read of
    every path gone through fails (the files are missing, a name is
    misspelt), the fingerprint is that of a task without inputs: the command
    alone decides whether the task runs again. *)
Theorem fingerprint_without_readable_inputs task f :
  Forall (unreadable f) (input_paths (default [] (inputs task)) f) →
  (hashInputs task f).1 = JSON_stringify (command task) [].
Proof.
  intros H. unfold hashInputs.
  pose proof (collect_inputs_paths (default [] (inputs task)) f) as Hc.
  pose proof (hash_files_unreadable f _ [] H) as Ho. rewrite <- Hc in Ho.
  destruct (collect_inputs _ _) as [o ws]. simpl in *. by rewrite Ho.
Qed.


(** X21: what a miss records. In a store that satisfies the invariant, the
    own step of a cached task whose command succeeds returns with a record
    filed under the fingerprint computed before the command ran, and, when
    none of the paths the patterns of [outputs] resolve to in the tree the
    command left is [__proto__] or a file of the store, with one snapshot
    for each of these paths, holding what that path read there. *)
Theorem miss_records_the_outputs name task w f' out :
  store_inv w →
  default true (cache task) = true →
  select_cache name (hashInputs task (fs w)).1 w = None →
  shell (command task) (fs w) = (f', Some out) →
  Forall (λ p, p ∉ "__proto__" :: store_files) (output_paths task f') →
  ∃ w', run_own name task w = Done w'
        ∧ select_cache name (hashInputs task (fs w)).1 w'
          = Some (CacheRow (next_uuid w) name (hashInputs task (fs w)).1 out)
        ∧ NoDup (path <$> select_outputs (next_uuid w) w')
        ∧ (∀ p, p ∈ path <$> select_outputs (next_uuid w) w'
                ↔ p ∈ output_paths task f')
        ∧ ∀ r, r ∈ select_outputs (next_uuid w) w' →
               content r = read_bytes f' (path r)
               ∧ hash r = sha256 <$> read_bytes f' (path r).
Proof.
  intros Hinv Hflag Hmiss Hshell Hplain.
  assert (Hproto : ∀ p, p ∈ output_paths task f' → p ≠ "__proto__").
  { intros p Hp ->. eapply Forall_forall in Hplain; [|exact Hp].
    apply Hplain. by left. }
  rewrite run_own_miss, Hshell by done. cbv zeta.
  match goal with |- ∃ w', Done ?v = Done w' ∧ _ => exists v; set (w1 := v) end.
  split; [done|].
  split; [unfold select_cache; simpl; by apply select_new_record|].
  assert (Hsel : select_outputs (next_uuid w) w1
                 = by_path (saved_rows (next_uuid w) task f')).
  { destruct Hinv as (_ & Hout & _). unfold select_outputs, rows_of. simpl.
    f_equal.
    rewrite List.filter_app, filter_task_id_none, filter_task_id_all; [done| |].
    - intros r Hr. by apply list_elem_of_fmap in Hr as (e & -> & _).
    - intros r Hr. apply Hout in Hr. lia. }
  rewrite Hsel. destruct (prepareOutputs_lookup task f') as [Hnd Hlook].
  assert (Hpaths : path <$> saved_rows (next_uuid w) task f'
                   = (prepareOutputs task f').1.*1).
  { unfold saved_rows, Object_entries. rewrite <- list_fmap_compose.
    by apply list_fmap_ext. }
  split; [by rewrite by_path_perm, Hpaths|]. split.
  - intros p. rewrite by_path_perm, Hpaths. specialize (Hlook p). split.
    + intros Hp. destruct (decide (p ∈ output_paths task f')) as [|Hn]; [done|].
      rewrite decide_False in Hlook by by intros [? _].
      by apply not_elem_of_list_to_map in Hlook.
    + intros Hp. rewrite decide_True in Hlook by (split; [done|by apply Hproto]).
      destruct (decide (p ∈ (prepareOutputs task f').1.*1)) as [|Hn]; [done|].
      apply (not_elem_of_list_to_map (M := gmap string)) in Hn.
      by rewrite Hn in Hlook.
  - intros r Hr. apply (proj1 (elem_of_by_path _ _)) in Hr.
    unfold saved_rows in Hr.
    apply list_elem_of_fmap in Hr as ([p c] & -> & He). simpl.
    apply elem_of_list_to_map in He; [|done].
    rewrite Hlook in He. case_decide; [|done]. by injection He as <-.
Qed.

(** X22: no fingerprint is shared by mistake. Whatever the comparator does,
    two fingerprints that are the same string come from the same command
    text and from the same digest for every path, a path that could not be
    read having none, nor the path [__proto__]: a changed command, or a
    readable input of another name whose text has another digest, appears
    or is gone, always changes the fingerprint. *)
Theorem no_false_hit task1 task2 f1 f2 :
  (hashInputs task1 f1).1 = (hashInputs task2 f2).1 →
  command task1 = command task2
  ∧ ∀ q, recorded task1 f1 q = recorded task2 f2 q.
Proof.
  pose proof (recorded_lookup task1 f1) as Hrec1.
  pose proof (recorded_lookup task2 f2) as Hrec2.
  destruct (collect_inputs_lookup (default [] (inputs task1)) f1) as [Hnd1 _].
  destruct (collect_inputs_lookup (default [] (inputs task2)) f2) as [Hnd2 _].
  unfold hashInputs.
  destruct (collect_inputs (default [] (inputs task1)) f1) as [o1 warnings1].
  destruct (collect_inputs (default [] (inputs task2)) f2) as [o2 warnings2].
  simpl in *. unfold fingerprint_of.
  intros [Hcmd Hfiles]%JSON_stringify_inj. split; [done|].
  intros q. rewrite <- Hrec1, <- Hrec2.
  by rewrite <- (fingerprint_files o1), <- (fingerprint_files o2), Hfiles.
Qed.

End More.

(** ** A graph without cache *)

Section Uncached.

Context {P : Platform}.

Lemma uncached_own_step name task w w' :
  cache task = Some false →
  task_cache w = [] →
  world_of (run_own name task w) = Some w' →
  task_cache w' = []
  ∧ ∃ es, trace w' = trace w ++ es ∧ executed es = [command task].
Proof.
  intros Hflag Hempty H. split.
  - apply run_own_store in H as [[Hc _]|(Hen & _)]; [by rewrite Hc|].
    by rewrite Hflag in Hen.
  - apply run_own_executed in H as (es & E & Hes). exists es. split; [done|].
    rewrite Hes. unfold select_cache. by rewrite Hempty.
Qed.

(** X23: in a graph where no task is cached, started on an empty store, a
    run that returns has executed the command of every task of the
    dependency tree unfolded from the requested task, in post-order, once
    for each occurrence: a dependency shared by two dependents runs its
    command for each of them, and the store is still empty. *)
Theorem uncached_graph_runs_every_occurrence scripts depth root w w' :
  (∀ n task, scripts !! n = Some task → cache task = Some false) →
  task_cache w = [] →
  runTask depth scripts root w = Done w' →
  task_cache w' = []
  ∧ ∃ es, trace w' = trace w ++ es
          ∧ executed es = commands scripts (visits depth scripts root).
Proof.
  intros Hflag. revert root w w'.
  induction depth as [|depth IH]; intros root w w' Hempty H; [discriminate|].
  rewrite runTask_unfold in H. simpl.
  destruct (scripts !! root) as [task|] eqn:Hroot; [|discriminate].
  apply bind_Done in H as (w1 & Hdeps & Hown).
  assert (Hd : ∀ deps v v', task_cache v = [] →
            for_each (runTask depth scripts) deps v = Done v' →
            task_cache v' = []
            ∧ ∃ es, trace v' = trace v ++ es
                    ∧ executed es = commands scripts (deps ≫= visits depth scripts)).
  { induction deps as [|d deps IHdeps]; intros v v' Hv Hrun; simpl in Hrun.
    - injection Hrun as <-. split; [done|]. exists []. by rewrite app_nil_r.
    - apply bind_Done in Hrun as (v1 & Hd & Hrun).
      apply IH in Hd as (Hv1 & es1 & E1 & H1); [|done].
      apply IHdeps in Hrun as (Hv' & es2 & E2 & H2); [|done].
      split; [done|]. exists (es1 ++ es2). split; [by rewrite E2, E1, app_assoc|].
      rewrite executed_app, H1, H2, bind_cons. unfold commands.
      by rewrite omap_app. }
  apply Hd in Hdeps as (Hw1 & es1 & E1 & H1); [|done].
  assert (Hw : world_of (run_own root task w1) = Some w') by by rewrite Hown.
  apply uncached_own_step in Hw as (Hw' & es2 & E2 & H2);
    [|by eapply Hflag|done].
  split; [done|]. exists (es1 ++ es2). split; [by rewrite E2, E1, app_assoc|].
  rewrite executed_app, H1, H2. unfold commands. rewrite omap_app. simpl.
  by rewrite Hroot.
Qed.

End Uncached.

(** * The further properties on the example platform *)

Section MoreExamples.

Import Example Cases.

#[local] Existing Instance Example.platform.

Lemma cyclic_dependency_never_returns_witness :
  tc (depends looping) "watch" "watch"
  ∧ ∀ depth w w', runTask depth looping "all" w ≠ Done w'.
Proof.
  assert (H1 : depends looping "watch" "serve").
  { exists (task "watch" ["serve"] [] [] None). split; [by vm_compute|].
    apply (bool_decide_unpack _). by vm_compute. }
  assert (H2 : depends looping "serve" "watch").
  { exists (task "serve" ["watch"] [] [] None). split; [by vm_compute|].
    apply (bool_decide_unpack _). by vm_compute. }
  assert (H0 : depends looping "all" "watch").
  { exists (task "all" ["watch"] [] [] None). split; [by vm_compute|].
    apply (bool_decide_unpack _). by vm_compute. }
  split; [exact (tc_l _ _ _ _ H1 (tc_once _ _ _ H2))|].
  apply (cyclic_dependency_never_returns looping "all" "watch").
  - exact (rtc_once _ _ H0).
  - exact (tc_l _ _ _ _ H1 (tc_once _ _ _ H2)).
Defined.

Lemma acyclic_run_stops_witness :
  is_Some (world_of (runTask (S (level "app")) scripts "app" start))
  ∧ ∀ depth, (level "app" < depth)%nat →
      runTask depth scripts "app" start = runTask (S (level "app")) scripts "app" start.
Proof.
  apply (acyclic_run_stops scripts level).
  apply ranked_graph. apply (bool_decide_unpack _). by vm_compute.
Defined.

Lemma only_graph_commands_run_witness :
  ∃ es, trace (after (runTask 3 scripts "app" start) start) = trace start ++ es
        ∧ ∀ c, c ∈ executed es →
            ∃ n task, rtc (depends scripts) "app" n ∧ scripts !! n = Some task
                      ∧ command task = c.
Proof.
  apply (only_graph_commands_run scripts 3 "app" start). by vm_compute.
Defined.


Lemma unrecorded_task_is_executed_witness :
  ∃ es, trace (after (runTask 3 scripts "app" built) start) = trace built ++ es
        ∧ last (executed es) = Some (command app).
Proof.
  apply (unrecorded_task_is_executed scripts 3 "app" app built).
  - by vm_compute.
  - apply Forall_forall. apply (bool_decide_unpack _). by vm_compute.
  - by vm_compute.
Defined.


Lemma one_record_per_fingerprint_witness :
  one_record (after (runTask 3 scripts "app" built) start)
  ∧ ∀ r, r ∈ task_cache (after (runTask 3 scripts "app" built) start) →
         select_cache (task_name r) (row_inputs r)
           (after (runTask 3 scripts "app" built) start) = Some r.
Proof.
  apply (one_record_per_fingerprint scripts 3 "app" built).
  - apply (bool_decide_unpack _). by vm_compute.
  - by vm_compute.
Defined.

Lemma snapshots_belong_to_records_witness :
  referenced (after (runTask 3 scripts "app" built) start)
  ∧ referenced (resetDatabase (after (runTask 3 scripts "app" built) start)).
Proof.
  apply (snapshots_belong_to_records scripts 3 "app" built).
  - unfold referenced. apply Forall_forall. apply (bool_decide_unpack _). by vm_compute.
  - by vm_compute.
Defined.

Lemma main_keeps_store_inv_witness :
  match main 2 failing ["deploy"] start with
  | Exit _ w' => store_inv w'
  | Uncaught e w' => store_inv w' ∧ e ≠ SqliteError
  | Hang => True
  end.
Proof. apply (main_keeps_store_inv failing 2 ["deploy"] start), store_inv_initial. Defined.

Lemma failed_command_aborts_run_witness :
  ∃ w', run_own "check" check built = Throw (ShellError (command check)) w'
        ∧ fs w' = fs built ∧ same_store built w'
        ∧ (∃ es, trace w' = trace built ++ es ∧ executed es = [command check]
                 ∧ Finished "check" ∉ es)
        ∧ ∀ parent ptask earlier later w0,
            failing !! parent = Some ptask →
            default [] (depends_on ptask) = earlier ++ "check" :: later →
            for_each (runTask 1 failing) earlier w0
            >>= run_dependencies 0 failing check = Done built →
            runTask 2 failing parent w0 = Throw (ShellError (command check)) w'.
Proof.
  apply (failed_command_aborts_run failing 0 "check" check built (fs built)).
  - by vm_compute.
  - by vm_compute.
  - reflexivity.
Defined.



Lemma restore_brings_outputs_back_witness :
  sha256 <$> read_bytes
    (fs (after (restoreFromCache 0
           (set_fs tree (after (save "build" build build_fingerprint "built"
                                  (world built_tree)) start))) start)) "out.txt"
  = sha256 <$> read_bytes built_tree "out.txt"
  ∧ ((∀ a b, sha256 a = sha256 b → a = b) →
     read_bytes
       (fs (after (restoreFromCache 0
              (set_fs tree (after (save "build" build build_fingerprint "built"
                                     (world built_tree)) start))) start)) "out.txt"
     = read_bytes built_tree "out.txt").
Proof.
  apply (restore_brings_outputs_back "build" build build_fingerprint "built"
           (world built_tree)
           (after (save "build" build build_fingerprint "built" (world built_tree))
                  start) tree).
  - apply store_inv_initial.
  - apply (bool_decide_unpack _). by vm_compute.
  - by vm_compute.
  - by vm_compute.
  - apply (bool_decide_unpack _). by vm_compute.
Defined.

Lemma fingerprint_reads_only_inputs_witness :
  hashInputs docs tree = hashInputs docs built_tree.
Proof.
  apply (fingerprint_reads_only_inputs docs tree built_tree).
  - apply (proj1 (Forall_forall
             (λ pat, includes_star pat = true → scan pat tree = scan pat built_tree)
             (default [] (inputs docs)))).
    apply (bool_decide_unpack _). by vm_compute.
  - apply (proj1 (Forall_forall
             (λ p, read_bytes tree p = read_bytes built_tree p)
             (input_paths (default [] (inputs docs)) tree))).
    apply (bool_decide_unpack _). by vm_compute.
Defined.

Lemma repeated_inputs_do_not_count_witness :
  (hashInputs docs_again tree).1 = (hashInputs docs tree).1.
Proof.
  apply (repeated_inputs_do_not_count docs docs_again ["a.txt"; "*.md"] tree).
  - by vm_compute.
  - by vm_compute.
  - apply (bool_decide_unpack _). by vm_compute.
Defined.

Lemma text_file_one_digest_witness :
  hash_file notes_tree ([], []) "notes.txt"
  = (obj_assign "notes.txt" (sha256 notes) [], [])
  ∧ getMaybeFileHash (getMaybeFileBytes notes_tree "notes.txt") = Some (sha256 notes)
  ∧ hash (output_row_of 0 ("notes.txt", read_bytes notes_tree "notes.txt"))
    = Some (sha256 notes).
Proof.
  apply (text_file_one_digest notes_tree "notes.txt" notes ([], []) 0);
    by vm_compute.
Defined.

Lemma fingerprint_without_readable_inputs_witness :
  (hashInputs binary tree).1 = JSON_stringify (command binary) [].
Proof.
  apply (fingerprint_without_readable_inputs binary tree).
  apply (bool_decide_unpack _). by vm_compute.
Defined.


Lemma miss_records_the_outputs_witness :
  ∃ w', run_own "build" build start = Done w'
        ∧ select_cache "build" (hashInputs build (fs start)).1 w'
          = Some (CacheRow (next_uuid start) "build" (hashInputs build (fs start)).1
                    "built")
        ∧ NoDup (path <$> select_outputs (next_uuid start) w')
        ∧ (∀ p, p ∈ path <$> select_outputs (next_uuid start) w'
                ↔ p ∈ output_paths build built_tree)
        ∧ ∀ r, r ∈ select_outputs (next_uuid start) w' →
               content r = read_bytes built_tree (path r)
               ∧ hash r = sha256 <$> read_bytes built_tree (path r).
Proof.
  apply (miss_records_the_outputs "build" build start built_tree "built").
  - apply store_inv_initial.
  - by vm_compute.
  - by vm_compute.
  - reflexivity.
  - apply (bool_decide_unpack _). by vm_compute.
Defined.

Lemma no_false_hit_witness :
  command docs = command docs_again
  ∧ ∀ q, recorded docs tree q = recorded docs_again built_tree q.
Proof.
  apply (no_false_hit docs docs_again tree built_tree). by vm_compute.
Defined.

Lemma uncached_graph_runs_every_occurrence_witness :
  task_cache (after (runTask 3 uncached "app" start) start) = []
  ∧ ∃ es, trace (after (runTask 3 uncached "app" start) start) = trace start ++ es
          ∧ executed es = commands uncached (visits 3 uncached "app").
Proof.
  apply (uncached_graph_runs_every_occurrence uncached 3 "app" start).
  - assert (H : map_Forall (λ (_ : string) task, cache task = Some false) uncached)
      by (apply (bool_decide_unpack _); by vm_compute).
    exact H.
  - by vm_compute.
  - by vm_compute.
Defined.

End MoreExamples.
